(** * dela: rosters, change sets and their test doubles

    A shallow embedding of the Go sources

    - [internal/testing/fake/mod.go]: the fake address, its text codec and
      its printing, the iterators over addresses and public keys, the fake
      collective authority (roster) with its constructors, [GetPublicKey],
      [Take] and [Apply], the call recorder, and the fake hash with its
      factory;
    - [contracts/evoting/controller/mod.go]: the e-voting client nonce and the
      JSON format engines of change sets ([changeSetFormat]) and of rosters
      ([rosterFormat]).

    Go values are modelled as follows.  An [int] or [uint64] is a [Z] with the
    wrap-around of its width written out; a [[]byte] is a [list byte]; an
    [error] is an [option string] ([None] is [nil]); an interface value is an
    [option] of its implementation ([None] is the [nil] interface); a slice is
    a [list] in the value-level model and a window on a backing array in the
    memory-level model of module [Mem].  A run-time panic (index out of range,
    method call on a nil interface) is the [None] of the option monad. *)

From Stdlib Require Import ZArith Lia Strings.String Strings.Byte.
From Stdlib Require Import DecimalString DecimalZ.
From stdpp Require Import base numbers option list.

(** Go's [error]: [nil] or a message. *)
Definition error : Type := option string.

Definition xerrors_New (msg : string) : error := Some msg.

(** The largest allocation of the Go run time: [maxAlloc] is [1 << 48] bytes
    on the 64-bit platforms with 48 address bits (linux/amd64 among them),
    the platforms on which an [int] has the 64 bits it is given here. *)
Definition maxAlloc : Z := 2 ^ 48.

(** The check of [make([]T, n)] for a [T] of [size] bytes: [makeslice] panics
    (len out of range) on a negative [n] and when [size * n] bytes exceed
    [maxAlloc].  That the memory asked for is there is taken for granted: a
    run out of memory is a fatal error of the run time, not a panic. *)
Definition makeslice_panics (size n : Z) : bool :=
  bool_decide (n < 0 ∨ maxAlloc < size * n)%Z.

(** The size in bytes of an interface value (two words) and of a slice
    header (three words). *)
Definition interface_size : Z := 16.

Definition slice_size : Z := 24.

(** ** The e-voting client *)

Module Evoting.

Local Open Scope Z_scope.

(** [type client struct { nonce uint64 }] *)
Record client : Type := { nonce : Z }.

Definition uint64_modulus : Z := 2 ^ 64.

(** Arithmetic on [uint64] wraps around. *)
Definition uint64_wrap (z : Z) : Z := z mod uint64_modulus.

Section GetNonce.
(** The [access.Identity] argument is ignored by the method. *)
Context {Identity : Type}.

(** [res := c.nonce; c.nonce++; return res, nil].  The receiver is a
    pointer: the updated client is returned next to the results. *)
Definition GetNonce (c : client) (_ : Identity) : (Z * error) * client :=
  let res := nonce c in
  ((res, None), {| nonce := uint64_wrap (nonce c + 1) |}).

(** Successive calls on the same client, one per identity of the list. *)
Fixpoint calls (c : client) (ids : list Identity) : list (Z * error) * client :=
  match ids with
  | [] => ([], c)
  | id :: ids' =>
      let '(r, c1) := GetNonce c id in
      let '(rs, c2) := calls c1 ids' in
      (r :: rs, c2)
  end.

(** The claim as the specification words it, at one client: the call
    returns the stored nonce without error, the stored nonce grows by
    exactly one, and the next call returns a strictly greater value. *)
Definition nonce_strictly_increasing (c : client) (id : Identity) : Prop :=
  let '(r, c1) := GetNonce c id in
  let '(r', _) := GetNonce c1 id in
  r = (nonce c, None) ∧ nonce c1 = nonce c + 1 ∧ r.1 < r'.1.
End GetNonce.

End Evoting.

(** ** The fakes of [internal/testing/fake] *)

Module Fake.

(** *** Addresses *)

(** [type Address struct { mino.Address; index int; err error }].  The
    embedded interface is never set by the constructors and is left out. *)
Record Address : Type := { index : Z; err : error }.

(** [NewAddress] *)
Definition NewAddress (index : Z) : Address := {| index := index; err := None |}.

(** [NewBadAddress] *)
Definition NewBadAddress : Address :=
  {| index := 0; err := xerrors_New "fake error" |}.

(** A value of the interface [mino.Address]: [nil], or a [fake.Address], the
    one implementation of the interface in these sources. *)
Abbreviation mino_Address := (option Address).

(** [func (a Address) Equal(o mino.Address) bool]: the type assertion
    [o.(Address)] fails on [nil]. *)
Definition Address_Equal (a : Address) (o : mino_Address) : bool :=
  match o with
  | Some other => bool_decide (index other = index a)
  | None => false
  end.

(** The call [address.Equal(o)] through the interface: it panics on a [nil]
    receiver. *)
Definition mino_Address_Equal (address o : mino_Address) : option bool :=
  a ← address; Some (Address_Equal a o).

(** The conversion [uint32(x)] of an [int]. *)
Definition uint32 (z : Z) : Z := (z mod 2 ^ 32)%Z.

(** The conversion [byte(x)] and its inverse. *)
Definition byte_of_Z (z : Z) : byte :=
  default x00 (Byte.of_N (Z.to_N (z mod 256)%Z)).

Definition Z_of_byte (b : byte) : Z := Z.of_N (Byte.to_N b).

(** [binary.LittleEndian.PutUint32] on a buffer of four bytes. *)
Definition PutUint32 (v : Z) : list byte :=
  [ byte_of_Z v; byte_of_Z (Z.shiftr v 8);
    byte_of_Z (Z.shiftr v 16); byte_of_Z (Z.shiftr v 24) ].

(** [binary.LittleEndian.Uint32]: it panics on fewer than four bytes. *)
Definition Uint32 (b : list byte) : option Z :=
  match b with
  | b0 :: b1 :: b2 :: b3 :: _ =>
      Some (Z.lor (Z_of_byte b0)
             (Z.lor (Z.shiftl (Z_of_byte b1) 8)
                (Z.lor (Z.shiftl (Z_of_byte b2) 16)
                       (Z.shiftl (Z_of_byte b3) 24))))
  | _ => None
  end.

(** [func (a Address) MarshalText() ([]byte, error)] *)
Definition MarshalText (a : Address) : list byte * error :=
  let buffer := PutUint32 (uint32 (index a)) in
  (buffer, err a).

(** [func (f AddressFactory) FromText(text []byte) mino.Address] *)
Definition FromText (text : list byte) : option Address :=
  if bool_decide (4 < length text) then
    idx ← Uint32 text;
    Some {| index := idx; err := None |}
  else Some {| index := 0; err := None |}.

(** The round trip of the text encoding through the factory, at one address. *)
Definition text_round_trip (a : Address) : Prop :=
  ∃ a', FromText (MarshalText a).1 = Some a' ∧ Address_Equal a' (Some a) = true.

(** *** The address iterator *)

(** Arithmetic on [int] (64 bits) wraps around. *)
Definition int_wrap (z : Z) : Z := ((z + 2 ^ 63) mod 2 ^ 64 - 2 ^ 63)%Z.

(** Go's [s[i]] with an [int] index. *)
Definition index_Z {A : Type} (s : list A) (i : Z) : option A :=
  if bool_decide (0 ≤ i)%Z then s !! Z.to_nat i else None.

(** [type AddressIterator struct { addrs []mino.Address; index int }] *)
Record AddressIterator : Type :=
  { it_addrs : list mino_Address; it_index : Z }.

(** [func (i *AddressIterator) HasNext() bool] *)
Definition HasNext (i : AddressIterator) : bool :=
  bool_decide (int_wrap (it_index i + 1) < Z.of_nat (length (it_addrs i)))%Z.

(** [func (i *AddressIterator) GetNext() mino.Address]: the result and the
    iterator after the call. *)
Definition GetNext (i : AddressIterator) : option (mino_Address * AddressIterator) :=
  if HasNext i then
    let i' := {| it_addrs := it_addrs i; it_index := int_wrap (it_index i + 1) |} in
    a ← index_Z (it_addrs i') (it_index i');
    Some (a, i')
  else Some (None, i).

(** [k] calls of [GetNext] in a row: the results in call order. *)
Fixpoint GetNext_times (k : nat) (i : AddressIterator)
  : option (list mino_Address * AddressIterator) :=
  match k with
  | O => Some ([], i)
  | S k' =>
      '(a, i1) ← GetNext i;
      '(rest, i2) ← GetNext_times k' i1;
      Some (a :: rest, i2)
  end.

(** *** Public keys and signers *)

(** [type PublicKey struct { crypto.PublicKey; err error; verifyErr error }] *)
Record PublicKey : Type := { pk_err : error; verifyErr : error }.

Abbreviation crypto_PublicKey := (option PublicKey).

(** [type Signature], [type SignatureFactory], [type Verifier],
    [type VerifierFactory]: the fields of a fake signer. *)
Record Signature : Type := { sig_err : error }.
Record SignatureFactory : Type := { signature : Signature; sf_err : error }.
Record Verifier : Type := { v_err : error }.
Record VerifierFactory : Type :=
  { verifier : Verifier; vf_err : error; vf_call : option nat }.

(** [type Signer struct] *)
Record Signer : Type :=
  { signatureFactory : SignatureFactory;
    verifierFactory : VerifierFactory;
    signer_err : error }.

(** The implementations of [crypto.AggregateSigner] that a fake authority
    holds: a fake [Signer], or the [signerWrapper] that [Apply] builds around
    the public key of an added player. *)
Inductive AggregateSigner : Type :=
| fake_Signer (s : Signer)
| signerWrapper (pubkey : crypto_PublicKey).

Abbreviation crypto_AggregateSigner := (option AggregateSigner).

(** [func (s Signer) GetPublicKey()] returns [PublicKey{}];
    [func (s signerWrapper) GetPublicKey()] returns [s.pubkey]. *)
Definition AggregateSigner_GetPublicKey (s : AggregateSigner) : crypto_PublicKey :=
  match s with
  | fake_Signer _ => Some {| pk_err := None; verifyErr := None |}
  | signerWrapper pubkey => pubkey
  end.

(** The call [s.GetPublicKey()] through the interface. *)
Definition crypto_GetPublicKey (s : crypto_AggregateSigner) : option crypto_PublicKey :=
  impl ← s; Some (AggregateSigner_GetPublicKey impl).

(** [func NewSigner() crypto.AggregateSigner] *)
Definition NewSigner (_ : unit) : crypto_AggregateSigner :=
  Some (fake_Signer
          {| signatureFactory := {| signature := {| sig_err := None |}; sf_err := None |};
             verifierFactory :=
               {| verifier := {| v_err := None |}; vf_err := None; vf_call := None |};
             signer_err := None |}).

(** *** Loops and slice operations at value level *)

(** [for _, x := range l { body }], where the body may panic. *)
Fixpoint for_each {A S : Type} (l : list A) (body : A → S → option S) (s : S)
  : option S :=
  match l with
  | [] => Some s
  | x :: l' => s' ← body x s; for_each l' body s'
  end.

(** [for i := range s { body }] over a slice of length [n]. *)
Definition for_range {S : Type} (n : nat) (body : nat → S → option S) (s : S)
  : option S :=
  for_each (seq 0 n) body s.

(** [s[i] = x] *)
Definition store_at {A : Type} (s : list A) (i : nat) (x : A) : option (list A) :=
  if bool_decide (i < length s) then Some (<[i:=x]> s) else None.

(** [append(s[:i], s[i+1:]...)]: the slice expression [s[i+1:]] panics unless
    [i+1 <= len(s)]. *)
Definition remove_at {A : Type} (s : list A) (i : nat) : option (list A) :=
  if bool_decide (i < length s) then Some (take i s ++ drop (S i) s) else None.

(** The removal loop of [Apply] on one slice: the indices of [R] are removed
    one after the other, each in the slice that the removals before it left. *)
Definition remove_all {A : Type} (R : list nat) (l : list A) : option (list A) :=
  for_each R (λ i l, remove_at l i) l.

(** *** The collective authority *)

(** [type CollectiveAuthority struct { addrs []mino.Address;
    signers []crypto.AggregateSigner; Call *Call }].  [Call] is a pointer to a
    call log; the log itself lives in the store of module [Mem]. *)
Record CollectiveAuthority : Type :=
  { addrs : list mino_Address;
    signers : list crypto_AggregateSigner;
    Call : option nat }.

(** [type GenSigner func() crypto.AggregateSigner] *)
Definition GenSigner : Type := unit → crypto_AggregateSigner.

(** [func NewAuthorityWithBase(base int, n int, g GenSigner)]: the two
    [make] of [n] interface values panic on a negative [n] and on an [n]
    beyond what [makeslice] accepts. *)
Definition NewAuthorityWithBase (base n : Z) (g : GenSigner)
  : option CollectiveAuthority :=
  if makeslice_panics interface_size n then None
  else
    let signers := (λ _, g ()) <$> seq 0 (Z.to_nat n) in
    let addrs :=
      (λ i, Some {| index := int_wrap (Z.of_nat i + base); err := None |})
        <$> seq 0 (Z.to_nat n) in
    Some {| signers := signers; addrs := addrs; Call := None |}.

(** [func NewAuthority(n int, g GenSigner)] *)
Definition NewAuthority (n : Z) (g : GenSigner) : option CollectiveAuthority :=
  NewAuthorityWithBase 0 n g.

(** [func (ca CollectiveAuthority) GetAddress(index int) mino.Address] *)
Definition GetAddress (ca : CollectiveAuthority) (index : Z) : option mino_Address :=
  index_Z (addrs ca) index.

(** [func (ca CollectiveAuthority) GetSigner(index int)] *)
Definition GetSigner (ca : CollectiveAuthority) (index : Z)
  : option crypto_AggregateSigner :=
  index_Z (signers ca) index.

(** [func (ca CollectiveAuthority) Len() int] *)
Definition Len (ca : CollectiveAuthority) : Z := Z.of_nat (length (signers ca)).

(** The loop of [GetPublicKey] from position [i] on; [rest] is [ca.addrs[i:]]. *)
Fixpoint GetPublicKey_from (ca : CollectiveAuthority) (addr : mino_Address)
    (i : nat) (rest : list mino_Address) : option (crypto_PublicKey * Z) :=
  match rest with
  | [] => Some (None, (-1)%Z)
  | address :: rest' =>
      eq ← mino_Address_Equal address addr;
      if eq : bool then
        s ← signers ca !! i;
        pubkey ← crypto_GetPublicKey s;
        Some (pubkey, Z.of_nat i)
      else GetPublicKey_from ca addr (S i) rest'
  end.

(** [func (ca CollectiveAuthority) GetPublicKey(addr mino.Address)
    (crypto.PublicKey, int)] *)
Definition GetPublicKey (ca : CollectiveAuthority) (addr : mino_Address)
  : option (crypto_PublicKey * Z) :=
  GetPublicKey_from ca addr 0 (addrs ca).

(** [func (ca CollectiveAuthority) Take(updaters ...mino.FilterUpdater)].
    Package [mino] is not among the sources: the index list [Indices] that
    [mino.ApplyFilters(updaters)] resolves is the parameter. *)
Definition Take (ca : CollectiveAuthority) (Indices : list Z)
  : option CollectiveAuthority :=
  let newCA :=
    {| Call := Call ca;
       addrs := replicate (length Indices) None;
       signers := replicate (length Indices) None |} in
  for_each (zip (seq 0 (length Indices)) Indices)
    (λ '(i, k) newCA,
       a ← index_Z (addrs ca) k;
       addrs' ← store_at (addrs newCA) i a;
       s ← index_Z (signers ca) k;
       signers' ← store_at (signers newCA) i s;
       Some {| Call := Call newCA; addrs := addrs'; signers := signers' |})
    newCA.

(** What one round of [Take] reads for the index [k]. *)
Definition picked_player (ca : CollectiveAuthority) (k : Z)
  : option (mino_Address * crypto_AggregateSigner) :=
  a ← index_Z (addrs ca) k;
  s ← index_Z (signers ca) k;
  Some (a, s).

(** [viewchange.Player] and [viewchange.ChangeSet].  An index of [Remove] is
    a [uint32]; it is only ever compared with a length. *)
Record Player : Type :=
  { Player_Address : mino_Address; Player_PublicKey : crypto_PublicKey }.

Record ChangeSet : Type := { Remove : list nat; Add : list Player }.

(** The zero value [ChangeSet{}], which is also what a nil change set is. *)
Definition empty_ChangeSet : ChangeSet := {| Remove := []; Add := [] |}.

(** [func (ca CollectiveAuthority) Apply(cs viewchange.ChangeSet)]: copy the
    receiver, append the added players, then remove the listed indices in the
    order of the list.  The call [ca.Call.Add("apply", cs)] that opens the
    method writes to the call log only, not to what is returned; [Mem.Apply]
    has it. *)
Definition Apply (ca : CollectiveAuthority) (cs : ChangeSet)
  : option CollectiveAuthority :=
  let newAuthority :=
    {| Call := Call ca;
       addrs := replicate (length (addrs ca)) None;
       signers := replicate (length (signers ca)) None |} in
  newAuthority ← for_range (length (addrs ca))
    (λ i newAuthority,
       a ← addrs ca !! i;
       addrs' ← store_at (addrs newAuthority) i a;
       s ← signers ca !! i;
       signers' ← store_at (signers newAuthority) i s;
       Some {| Call := Call newAuthority; addrs := addrs'; signers := signers' |})
    newAuthority;
  newAuthority ← for_each (Add cs)
    (λ player newAuthority,
       Some {| Call := Call newAuthority;
               addrs := addrs newAuthority ++ [Player_Address player];
               signers := signers newAuthority
                            ++ [Some (signerWrapper (Player_PublicKey player))] |})
    newAuthority;
  for_each (Remove cs)
    (λ i newAuthority,
       addrs' ← remove_at (addrs newAuthority) i;
       signers' ← remove_at (signers newAuthority) i;
       Some {| Call := Call newAuthority; addrs := addrs'; signers := signers' |})
    newAuthority.

(** The new authority of [Apply] after [i] rounds of its copy loop. *)
Definition copied (ca : CollectiveAuthority) (i : nat) : CollectiveAuthority :=
  {| Call := Call ca;
     addrs := take i (addrs ca) ++ replicate (length (addrs ca) - i) None;
     signers := take i (signers ca) ++ replicate (length (signers ca) - i) None |}.

(** [func (ca CollectiveAuthority) AddressIterator()] *)
Definition new_AddressIterator (ca : CollectiveAuthority) : AddressIterator :=
  {| it_addrs := addrs ca; it_index := (-1)%Z |}.

(** The iterator that has handed out the first [i] addresses. *)
Definition iterator_at (l : list mino_Address) (i : nat) : AddressIterator :=
  {| it_addrs := l; it_index := (Z.of_nat i - 1)%Z |}.

(** The invariant that the constructors of the package establish: the two
    slices run in parallel and hold no nil interface value. *)
Definition well_formed (ca : CollectiveAuthority) : Prop :=
  length (addrs ca) = length (signers ca)
  ∧ Forall is_Some (addrs ca) ∧ Forall is_Some (signers ca).

(** What [GetPublicKey] answers: the key and position of the first player
    whose address is [Equal] to [addr], or [(nil, -1)] when there is none. *)
Definition scan_result (l : list mino_Address) (sg : list crypto_AggregateSigner)
    (base : nat) (addr : mino_Address) (r : crypto_PublicKey * Z) : Prop :=
  (∃ k a s,
      l !! k = Some (Some a)
      ∧ Address_Equal a addr = true
      ∧ (∀ j b, j < k → l !! j = Some (Some b) → Address_Equal b addr = false)
      ∧ sg !! (base + k) = Some (Some s)
      ∧ r = (AggregateSigner_GetPublicKey s, Z.of_nat (base + k)))
  ∨ ((∀ a, Some a ∈ l → Address_Equal a addr = false) ∧ r = (None, (-1)%Z)).

(** The claim on [GetPublicKey] as the specification words it, at one roster
    and one address: the call returns, and what it returns is the answer of
    the scan. *)
Definition GetPublicKey_scans (ca : CollectiveAuthority) (addr : mino_Address) : Prop :=
  ∃ r, GetPublicKey ca addr = Some r
       ∧ scan_result (addrs ca) (signers ca) 0 addr r.

(** The zero value [viewchange.Player{}]: no address, no public key. *)
Definition zero_Player : Player :=
  {| Player_Address := None; Player_PublicKey := None |}.

(** The authority of three members that the tests build with
    [NewAuthority(3, NewSigner)]. *)
Definition authority3 : CollectiveAuthority :=
  {| addrs := [Some (NewAddress 0); Some (NewAddress 1); Some (NewAddress 2)];
     signers := [NewSigner (); NewSigner (); NewSigner ()];
     Call := None |}.

End Fake.

(** ** The roster's [Diff] and [Apply] *)

Module Roster.
Import Fake.

(** The argument of [Diff] is a value of the interface [viewchange.Authority]:
    a roster, an authority of another type, or [nil]. *)
Inductive Authority : Type :=
| roster_Authority (other : CollectiveAuthority)
| foreign_Authority
| nil_Authority.

(** The public key that goes with position [k]. *)
Definition PublicKey_at (ca : CollectiveAuthority) (k : nat) : crypto_PublicKey :=
  match signers ca !! k with
  | Some s => default None (crypto_GetPublicKey s)
  | None => None
  end.

(** An authority as the ordered sequence of its players. *)
Definition players (ca : CollectiveAuthority) : list Player :=
  imap (λ k a, {| Player_Address := a; Player_PublicKey := PublicKey_at ca k |})
       (addrs ca).

(** Membership is decided by [Equal] on addresses, never by public keys. *)
Definition same_address (a b : mino_Address) : bool :=
  default false (mino_Address_Equal a b).

(** Modelled from the spec: the walk of [Diff], the method of the roster whose
    source is not among the files (its test [TestRoster_Diff] is).  Sections
    3 and 4.1 of the specification make it the deterministic change set that
    turns the receiver into the other roster, with [Remove] holding positions
    of the receiver and [Add] the new players in the order of the other
    roster, membership being decided on addresses only.  The test fixes the
    traversal: position by position, with removal indices in increasing
    order; on rosters [0,1,2] and [0,5,2] it expects [Remove = [1,2]] and two
    additions.  [i] is the current position in the receiver. *)
Fixpoint Diff_from (i : nat) (mine : list mino_Address) (other : list Player)
  : ChangeSet :=
  match mine with
  | [] => {| Remove := []; Add := other |}
  | a :: mine' =>
      match other with
      | b :: other' =>
          if same_address a (Player_Address b)
          then Diff_from (S i) mine' other'
          else
            let cs := Diff_from (S i) mine' other in
            {| Remove := i :: Remove cs; Add := Add cs |}
      | [] =>
          let cs := Diff_from (S i) mine' [] in
          {| Remove := i :: Remove cs; Add := Add cs |}
      end
  end.

(** Modelled from the spec: [Diff(other) -> ChangeSet] of section 4.1, the
    roster method missing from the sources; an incompatible or absent
    authority yields the empty change set. *)
Definition Diff (ca : CollectiveAuthority) (o : Authority) : ChangeSet :=
  match o with
  | roster_Authority other => Diff_from 0 (addrs ca) (players other)
  | foreign_Authority | nil_Authority => empty_ChangeSet
  end.

(** The elements of [l] whose position, counted from [i], is not in [R]. *)
Fixpoint drop_positions {A : Type} (i : nat) (R : list nat) (l : list A) : list A :=
  match l with
  | [] => []
  | x :: l' =>
      if bool_decide (i ∈ R) then drop_positions (S i) R l'
      else x :: drop_positions (S i) R l'
  end.

(** What the specification asks of [Apply]: the players of the source roster
    outside the positions of [Remove], followed by the players of [Add]. *)
Definition Apply_spec (ca : CollectiveAuthority) (cs : ChangeSet)
  : CollectiveAuthority :=
  {| Call := Call ca;
     addrs := drop_positions 0 (Remove cs) (addrs ca)
              ++ (Player_Address <$> Add cs);
     signers := drop_positions 0 (Remove cs) (signers ca)
                ++ ((λ p, Some (signerWrapper (Player_PublicKey p))) <$> Add cs) |}.

(** The claim on [Apply] as the specification words it, at one input. *)
Definition Apply_removes_then_appends (ca : CollectiveAuthority) (cs : ChangeSet)
  : Prop :=
  ∃ r, Apply ca cs = Some r
       ∧ r = Apply_spec ca cs
       ∧ (Z.of_nat (length (addrs r))
          = Z.of_nat (length (addrs ca)) - Z.of_nat (length (Remove cs))
            + Z.of_nat (length (Add cs)))%Z.

(** The indices of a change set are listed in strictly descending order. *)
Fixpoint strictly_descending (R : list nat) : Prop :=
  match R with
  | [] => True
  | r :: R' => Forall (λ r', r' < r) R' ∧ strictly_descending R'
  end.


(** Modelled from the spec: [Apply(ChangeSet) -> Roster] of section 4.1, the
    method of the roster, whose source is not among the files; the [Apply]
    of module [Fake] is the one of the test double, a type without [Diff].
    Section 3 makes [Remove] a set of positions in the source roster, the
    descending order being there so that a removal does not shift the meaning
    of another, and [Add] the players appended after all removals.  An index
    past the roster removes nobody, as [TestRoster_Apply] expects of
    [Remove = [3, 2, 0]] on three players. *)
Definition Roster_Apply (ca : CollectiveAuthority) (cs : ChangeSet)
  : CollectiveAuthority :=
  Apply_spec ca cs.


(** The rosters of [TestRoster_Diff]. *)
Definition authority_of (indices : list Z) : CollectiveAuthority :=
  {| addrs := (λ i, Some (NewAddress i)) <$> indices;
     signers := (λ _, NewSigner ()) <$> indices;
     Call := None |}.



End Roster.

(** ** The JSON format engine of change sets *)

Module Json.

(** A Go slice with its [nil]: the engine tells a nil [Add] from an empty one. *)
Abbreviation slice A := (option (list A)).

Definition elems {A : Type} (s : slice A) : list A := default [] s.

Definition len {A : Type} (s : slice A) : nat := length (elems s).

(** [xerrors.Errorf(prefix + ": %v", err)] *)
Definition Errorf (prefix msg : string) : error :=
  Some (prefix ++ ": " ++ msg)%string.

(** [xerrors.Errorf(prefix + " '%T'", v)], with the name of the type of [v]. *)
Definition Errorf_T (prefix T : string) : error :=
  Some (prefix ++ " '" ++ T ++ "'")%string.

(** The JSON messages of the package: [Player] and [ChangeSet]. *)
Record Player : Type :=
  { Address : list byte; PublicKey : list byte }.

Record ChangeSet : Type :=
  { Remove : slice nat; Add : slice Player }.

Section changeSetFormat.

(** The addresses and public keys that the engine handles through the
    interfaces [mino.Address] and [crypto.PublicKey], with the methods it
    calls on them. *)
Context {mino_Address crypto_PublicKey : Type}.
Variable Address_MarshalText : mino_Address → list byte * error.
Variable PublicKey_Serialize : crypto_PublicKey → list byte * error.

(** [roster.Player] and [roster.ChangeSet] *)
Record roster_Player : Type :=
  { roster_Address : mino_Address; roster_PublicKey : crypto_PublicKey }.

Record roster_ChangeSet : Type :=
  { roster_Remove : slice nat; roster_Add : slice roster_Player }.

(** A [serde.Message]: a change set, or a message of another type. *)
Inductive serde_Message : Type :=
| ChangeSet_Message (cset : roster_ChangeSet)
| other_Message (type_name : string).

(** A [serde.Factory] as the context hands it out: a factory of public keys,
    a factory of addresses, or a value that is neither (the nil interface
    among them).  [type_name] is the dynamic type of the value as [%T] prints
    it, package and name, such as [fake.PublicKeyFactory]. *)
Inductive serde_Factory : Type :=
| PublicKeyFactory (type_name : string)
    (PublicKeyOf : list byte → crypto_PublicKey * error)
| AddressFactory (type_name : string) (FromText : list byte → mino_Address)
| other_Factory (type_name : string).

Inductive factory_key : Type := PubKeyFac | AddrKeyFac.

(** The [serde.Context]: its JSON codec and its factories. *)
Variable ctx_Marshal : ChangeSet → list byte * error.
Variable ctx_Unmarshal : list byte → ChangeSet * error.
Variable ctx_GetFactory : factory_key → serde_Factory.

(** The loop of [Encode] over [cset.Add]. *)
Fixpoint Encode_players (players : list roster_Player) : list Player * error :=
  match players with
  | [] => ([], None)
  | player :: players' =>
      let '(addr, err) := Address_MarshalText (roster_Address player) in
      match err with
      | Some e => ([], Errorf "couldn't serialize address" e)
      | None =>
          let '(pubkey, err) := PublicKey_Serialize (roster_PublicKey player) in
          match err with
          | Some e => ([], Errorf "couldn't serialize public key" e)
          | None =>
              let '(add, err) := Encode_players players' in
              match err with
              | Some e => ([], Some e)
              | None => ({| Address := addr; PublicKey := pubkey |} :: add, None)
              end
          end
      end
  end.

(** The message that [Encode] hands to [ctx.Marshal]; [add] is made by
    [make], so it is never nil. *)
Definition Encode_message (cset : roster_ChangeSet) : ChangeSet * error :=
  let '(add, err) := Encode_players (elems (roster_Add cset)) in
  match err with
  | Some e => ({| Remove := None; Add := None |}, Some e)
  | None => ({| Remove := roster_Remove cset; Add := Some add |}, None)
  end.

(** [func (f changeSetFormat) Encode(ctx serde.Context, msg serde.Message)
    ([]byte, error)] *)
Definition Encode (msg : serde_Message) : list byte * error :=
  match msg with
  | other_Message T => ([], Errorf_T "unsupported message of type" T)
  | ChangeSet_Message cset =>
      let '(m, err) := Encode_message cset in
      match err with
      | Some e => ([], Some e)
      | None =>
          let '(data, err) := ctx_Marshal m in
          match err with
          | Some e => ([], Errorf "couldn't marshal" e)
          | None => (data, None)
          end
      end
  end.

(** The loop of [Decode] over [m.Add]. *)
Fixpoint Decode_players
    (FromText : list byte → mino_Address)
    (PublicKeyOf : list byte → crypto_PublicKey * error)
    (players : list Player) : list roster_Player * error :=
  match players with
  | [] => ([], None)
  | player :: players' =>
      let addr := FromText (Address player) in
      let '(pubkey, err) := PublicKeyOf (PublicKey player) in
      match err with
      | Some e => ([], Errorf "couldn't deserialize public key" e)
      | None =>
          let '(add, err) := Decode_players FromText PublicKeyOf players' in
          match err with
          | Some e => ([], Some e)
          | None =>
              ({| roster_Address := addr; roster_PublicKey := pubkey |} :: add, None)
          end
      end
  end.

(** [func (f changeSetFormat) Decode(ctx serde.Context, data []byte)
    (serde.Message, error)] *)
Definition Decode (data : list byte) : option serde_Message * error :=
  let '(m, err) := ctx_Unmarshal data in
  match err with
  | Some e => (None, Errorf "couldn't deserialize change set" e)
  | None =>
      match ctx_GetFactory PubKeyFac with
      | PublicKeyFactory _ PublicKeyOf =>
          match ctx_GetFactory AddrKeyFac with
          | AddressFactory _ FromText =>
              if bool_decide (len (Add m) = 0) then
                let cset := {| roster_Remove := Remove m; roster_Add := None |} in
                (Some (ChangeSet_Message cset), None)
              else
                let '(add, err) := Decode_players FromText PublicKeyOf (elems (Add m)) in
                match err with
                | Some e => (None, Some e)
                | None =>
                    let set := {| roster_Remove := Remove m; roster_Add := Some add |} in
                    (Some (ChangeSet_Message set), None)
                end
          | PublicKeyFactory T _ | other_Factory T =>
              (None, Errorf_T "invalid address factory of type" T)
          end
      | AddressFactory T _ | other_Factory T =>
          (None, Errorf_T "invalid public key factory of type" T)
      end
  end.

(** A player decodes back under the factories [FromText] and [PublicKeyOf]:
    its address and its public key encode without error and the factories
    return them from the encoding. *)
Definition decodes_back
    (FromText : list byte → mino_Address)
    (PublicKeyOf : list byte → crypto_PublicKey * error)
    (player : roster_Player) : Prop :=
  FromText (Address_MarshalText (roster_Address player)).1 = roster_Address player
  ∧ PublicKeyOf (PublicKey_Serialize (roster_PublicKey player)).1
    = (roster_PublicKey player, None).

End changeSetFormat.

Arguments roster_Player : clear implicits.
Arguments roster_ChangeSet : clear implicits.
Arguments serde_Message : clear implicits.
Arguments serde_Factory : clear implicits.
Arguments roster_Address {_ _} _.
Arguments roster_PublicKey {_ _} _.
Arguments roster_Remove {_ _} _.
Arguments roster_Add {_ _} _.

(** *** A context for sample runs

    The codec of the context (package [encoding/json] behind [serde/json])
    is not among the sources.  The sample codec writes a message field by
    field, a slice behind a flag that tells nil from non-nil and behind its
    length in one byte, an index of [Remove] in four bytes, and reads it back;
    it refuses a slice of 256 elements or more and trailing bytes. *)

Definition put_list {A : Type} (put : A → option (list byte)) (l : list A)
  : option (list byte) :=
  n ← Byte.of_nat (length l);
  items ← mapM put l;
  Some (n :: concat items).

Definition put_slice {A : Type} (put : A → option (list byte)) (s : slice A)
  : option (list byte) :=
  match s with
  | None => Some [x00]
  | Some l => d ← put_list put l; Some (x01 :: d)
  end.

Definition put_bytes (b : list byte) : option (list byte) :=
  put_list (λ x, Some [x]) b.

Definition put_uint32 (i : nat) : option (list byte) :=
  if bool_decide (Z.of_nat i < 2 ^ 32)%Z then Some (Fake.PutUint32 (Z.of_nat i))
  else None.

Definition put_Player (p : Player) : option (list byte) :=
  a ← put_bytes (Address p);
  k ← put_bytes (PublicKey p);
  Some (a ++ k).

Definition put_ChangeSet (m : ChangeSet) : option (list byte) :=
  r ← put_slice put_uint32 (Remove m);
  a ← put_slice put_Player (Add m);
  Some (r ++ a).

(** A reader takes what it reads from the front of the data and returns the
    rest. *)
Definition reader (A : Type) : Type := list byte → option (A * list byte).

Fixpoint get_many {A : Type} (get : reader A) (n : nat) : reader (list A) :=
  λ d,
    match n with
    | O => Some ([], d)
    | S n' =>
        '(x, d1) ← get d;
        '(l, d2) ← get_many get n' d1;
        Some (x :: l, d2)
    end.

Definition get_list {A : Type} (get : reader A) : reader (list A) :=
  λ d,
    match d with
    | n :: d' => get_many get (Byte.to_nat n) d'
    | [] => None
    end.

Definition get_slice {A : Type} (get : reader A) : reader (slice A) :=
  λ d,
    match d with
    | x00 :: d' => Some (None, d')
    | x01 :: d' => '(l, d2) ← get_list get d'; Some (Some l, d2)
    | _ => None
    end.

Definition get_byte : reader byte :=
  λ d, match d with b :: d' => Some (b, d') | [] => None end.

Definition get_bytes : reader (list byte) := get_list get_byte.

Definition get_uint32 : reader nat :=
  λ d, v ← Fake.Uint32 d; Some (Z.to_nat v, drop 4 d).

Definition get_Player : reader Player :=
  λ d,
    '(a, d1) ← get_bytes d;
    '(k, d2) ← get_bytes d1;
    Some ({| Address := a; PublicKey := k |}, d2).

Definition get_ChangeSet : reader ChangeSet :=
  λ d,
    '(r, d1) ← get_slice get_uint32 d;
    '(a, d2) ← get_slice get_Player d1;
    Some ({| Remove := r; Add := a |}, d2).

Definition sample_Marshal (m : ChangeSet) : list byte * error :=
  match put_ChangeSet m with
  | Some d => (d, None)
  | None => ([], Some "unsupported message"%string)
  end.

Definition sample_Unmarshal (data : list byte) : ChangeSet * error :=
  match get_ChangeSet data with
  | Some (m, []) => (m, None)
  | _ => ({| Remove := None; Add := None |}, Some "invalid data"%string)
  end.

(** A factory of fake addresses that reads the index from the four bytes
    which [MarshalText] writes.  The factory of package [fake] answers the
    address of index 0 to every text of four bytes. *)
Definition sample_FromText (text : list byte) : Fake.Address :=
  Fake.NewAddress (default 0%Z (Fake.Uint32 text)).

(** Public keys that are their own encoding. *)
Definition sample_Serialize (pubkey : list byte) : list byte * error := (pubkey, None).

Definition sample_PublicKeyOf (data : list byte) : list byte * error := (data, None).

Definition sample_GetFactory (key : factory_key)
  : serde_Factory Fake.Address (list byte) :=
  match key with
  | PubKeyFac => PublicKeyFactory "sample.PublicKeyFactory" sample_PublicKeyOf
  | AddrKeyFac => AddressFactory "sample.AddressFactory" sample_FromText
  end.

Definition sample_change_set : roster_ChangeSet Fake.Address (list byte) :=
  {| roster_Remove := Some [2; 0];
     roster_Add := Some [{| roster_Address := Fake.NewAddress 1;
                            roster_PublicKey := [xdf] |};
                         {| roster_Address := Fake.NewAddress 258;
                            roster_PublicKey := [xde; xad] |}] |}.

(** The bytes that the sample codec writes for the sample change set. *)
Definition sample_data : list byte :=
  [x01; x02; x02; x00; x00; x00; x00; x00; x00; x00;
   x01; x02; x04; x01; x00; x00; x00; x01; xdf;
        x04; x02; x01; x00; x00; x02; xde; xad].

End Json.

(** ** The collective authority in memory

    Go slices are windows on backing arrays, and [append] writes in place
    when the capacity allows.  This module runs [Apply] and [Take] on an
    explicit store of arrays, so that what they write can be told from what
    they only read. *)

Module Mem.

Section Arrays.
Context {A : Type}.

(** The zero value of the element type. *)
Variable zero : A.

(** The capacity that the runtime adds when [append] has to grow a slice of
    capacity [c] to hold [n] elements. *)
Variable spare : nat → nat → nat.

(** The store: array [p] is [m !! p].  An array never changes its length. *)
Abbreviation arrays := (list (list A)).

(** A slice header: the array, the offset of the window, [len] and [cap]. *)
Record slice : Type := { ptr : nat; off : nat; len : nat; cap : nat }.

(** The elements that a slice shows. *)
Definition contents (m : arrays) (s : slice) : list A :=
  take (len s) (drop (off s) (default [] (m !! ptr s))).

(** The window of a slice lies within its array. *)
Definition valid (m : arrays) (s : slice) : Prop :=
  len s ≤ cap s ∧ off s + cap s ≤ length (default [] (m !! ptr s)).

(** [make([]T, n)] *)
Definition make (n : nat) (m : arrays) : slice * arrays :=
  ({| ptr := length m; off := 0; len := n; cap := n |}, m ++ [replicate n zero]).

(** [s[i]] read *)
Definition load (m : arrays) (s : slice) (i : nat) : option A :=
  if bool_decide (i < len s) then arr ← m !! ptr s; arr !! (off s + i) else None.

(** [s[i] = x] *)
Definition store (s : slice) (i : nat) (x : A) (m : arrays) : option arrays :=
  if bool_decide (i < len s)
  then Some (alter (λ arr, <[off s + i := x]> arr) (ptr s) m)
  else None.

(** [s[:j]] *)
Definition slice_to (s : slice) (j : nat) : option slice :=
  if bool_decide (j ≤ cap s)
  then Some {| ptr := ptr s; off := off s; len := j; cap := cap s |}
  else None.

(** [s[i:]] *)
Definition slice_from (s : slice) (i : nat) : option slice :=
  if bool_decide (i ≤ len s)
  then Some {| ptr := ptr s; off := off s + i; len := len s - i; cap := cap s - i |}
  else None.

(** [append(dst, xs...)]: in place when the capacity of [dst] allows, else
    into a new array. *)
Definition append (dst : slice) (xs : list A) (m : arrays) : slice * arrays :=
  let n := len dst + length xs in
  if bool_decide (n ≤ cap dst) then
    ({| ptr := ptr dst; off := off dst; len := n; cap := cap dst |},
     alter (λ arr, list_inserts (off dst + len dst) xs arr) (ptr dst) m)
  else
    let newcap := n + spare (cap dst) n in
    ({| ptr := length m; off := 0; len := n; cap := newcap |},
     m ++ [contents m dst ++ xs ++ replicate (newcap - n) zero]).

(** [append(s[:i], s[i+1:]...)] *)
Definition remove (s : slice) (i : nat) (m : arrays) : option (slice * arrays) :=
  dst ← slice_to s i;
  src ← slice_from s (S i);
  Some (append dst (contents m src) m).

(** Every array of [m0] is still in [m], with the same elements. *)
Definition preserved (m0 m : arrays) : Prop :=
  ∀ p arr, m0 !! p = Some arr → m !! p = Some arr.

End Arrays.

(** One recorded call: the arguments of [Call.Add]. *)
Inductive arg : Type :=
| arg_string (s : string)
| arg_ChangeSet (cs : Fake.ChangeSet).

(** The memory: the arrays of addresses, the arrays of signers, and the call
    logs that [*Call] pointers refer to. *)
Record state : Type :=
  { addr_arrays : list (list Fake.mino_Address);
    signer_arrays : list (list Fake.crypto_AggregateSigner);
    call_logs : list (list (list arg)) }.

(** [type CollectiveAuthority struct], with its slice headers. *)
Record CollectiveAuthority : Type :=
  { addrs : slice; signers : slice; Call : option nat }.

(** The value that an authority holds in a memory. *)
Definition view (st : state) (ca : CollectiveAuthority) : Fake.CollectiveAuthority :=
  {| Fake.addrs := contents (addr_arrays st) (addrs ca);
     Fake.signers := contents (signer_arrays st) (signers ca);
     Fake.Call := Call ca |}.

(** A computation on the memory that may panic; the memory is kept on a
    panic. *)
Definition M (R : Type) : Type := state → option R * state.

Definition ret {R : Type} (r : R) : M R := λ st, (Some r, st).

Definition bind {R R' : Type} (c : M R) (k : R → M R') : M R' :=
  λ st, match c st with
        | (Some r, st') => k r st'
        | (None, st') => (None, st')
        end.

(** Access to the two stores. *)
Definition on_addrs {R : Type}
    (f : list (list Fake.mino_Address) → option (R * list (list Fake.mino_Address)))
  : M R :=
  λ st, match f (addr_arrays st) with
        | Some (r, m) =>
            (Some r, {| addr_arrays := m; signer_arrays := signer_arrays st;
                        call_logs := call_logs st |})
        | None => (None, st)
        end.

Definition on_signers {R : Type}
    (f : list (list Fake.crypto_AggregateSigner)
         → option (R * list (list Fake.crypto_AggregateSigner)))
  : M R :=
  λ st, match f (signer_arrays st) with
        | Some (r, m) =>
            (Some r, {| addr_arrays := addr_arrays st; signer_arrays := m;
                        call_logs := call_logs st |})
        | None => (None, st)
        end.

(** [func (c *Call) Add(args ...interface{})] *)
Definition Call_Add (c : option nat) (args : list arg) : M unit :=
  λ st, match c with
        | None => (Some (), st)
        | Some p =>
            (Some (), {| addr_arrays := addr_arrays st;
                         signer_arrays := signer_arrays st;
                         call_logs := alter (λ calls, calls ++ [args]) p (call_logs st) |})
        end.

(** A slice that shows nothing, or whose array is in the store. *)
Definition in_store {A : Type} (m : list (list A)) (s : slice) : Prop :=
  len s = 0 ∨ ptr s < length m.

(** Both stores of arrays keep what they held in [st0]. *)
Definition state_preserved (st0 st : state) : Prop :=
  preserved (addr_arrays st0) (addr_arrays st)
  ∧ preserved (signer_arrays st0) (signer_arrays st).

(** The slices of [ca] lie in arrays that [st0] does not hold. *)
Definition fresh_in (st0 : state) (ca : CollectiveAuthority) : Prop :=
  length (addr_arrays st0) ≤ ptr (addrs ca)
  ∧ length (signer_arrays st0) ≤ ptr (signers ca).

(** The slices of [ca] are in the store of [st]. *)
Definition allocated (st : state) (ca : CollectiveAuthority) : Prop :=
  in_store (addr_arrays st) (addrs ca) ∧ in_store (signer_arrays st) (signers ca).

(** A computation that, started in any memory that preserves [st0], ends in
    one that does, with a result that satisfies [P] when it returns. *)
Definition keeps (st0 : state) {R : Type} (c : M R) (P : R → Prop) : Prop :=
  ∀ st, state_preserved st0 st →
        state_preserved st0 (c st).2 ∧ ∀ r, (c st).1 = Some r → P r.

(** [for _, x := range l { body }] with a loop state. *)
Fixpoint for_each {X S : Type} (l : list X) (body : X → S → M S) (s : S) : M S :=
  match l with
  | [] => ret s
  | x :: l' => bind (body x s) (for_each l' body)
  end.

(** How much [append] over-allocates is left to the runtime. *)
Section Authority.
Variable spare : nat → nat → nat.

(** [newCA.addrs[i] = ca.addrs[k]; newCA.signers[i] = ca.signers[k]]; the
    index [k] is [None] when it is negative. *)
Definition copy_player (ca newCA : CollectiveAuthority) (i : nat) (k : option nat)
  : M unit :=
  bind (on_addrs (λ m, k ← k; a ← load m (addrs ca) k;
                       m' ← store (addrs newCA) i a m; Some ((), m')))
    (λ _, on_signers (λ m, k ← k; s ← load m (signers ca) k;
                           m' ← store (signers newCA) i s m; Some ((), m'))).

(** [func (ca CollectiveAuthority) Apply(cs viewchange.ChangeSet)] *)
Definition Apply (ca : CollectiveAuthority) (cs : Fake.ChangeSet)
  : M CollectiveAuthority :=
  bind (match Call ca with
        | Some _ => Call_Add (Call ca) [arg_string "apply"; arg_ChangeSet cs]
        | None => ret ()
        end) (λ _,
  bind (on_addrs (λ m, Some (make None (len (addrs ca)) m))) (λ na,
  bind (on_signers (λ m, Some (make None (len (signers ca)) m))) (λ ns,
  let newAuthority := {| Call := Call ca; addrs := na; signers := ns |} in
  bind (for_each (seq 0 (len (addrs ca)))
          (λ i _, copy_player ca newAuthority i (Some i)) ()) (λ _,
  bind (for_each (Fake.Add cs)
          (λ player newAuthority,
             bind (on_addrs (λ m, Some (append None spare (addrs newAuthority)
                                          [Fake.Player_Address player] m))) (λ addrs',
             bind (on_signers (λ m, Some (append None spare (signers newAuthority)
                                            [Some (Fake.signerWrapper
                                                     (Fake.Player_PublicKey player))] m)))
               (λ signers',
             ret {| Call := Call newAuthority; addrs := addrs'; signers := signers' |})))
          newAuthority) (λ newAuthority,
  for_each (Fake.Remove cs)
    (λ i newAuthority,
       bind (on_addrs (remove None spare (addrs newAuthority) i)) (λ addrs',
       bind (on_signers (remove None spare (signers newAuthority) i)) (λ signers',
       ret {| Call := Call newAuthority; addrs := addrs'; signers := signers' |})))
    newAuthority))))).

(** An [int] index that is not negative. *)
Definition nat_index (k : Z) : option nat :=
  if bool_decide (0 ≤ k)%Z then Some (Z.to_nat k) else None.

(** [func (ca CollectiveAuthority) Take(updaters ...mino.FilterUpdater)], on
    the index list that the filters resolve to. *)
Definition Take (ca : CollectiveAuthority) (Indices : list Z)
  : M CollectiveAuthority :=
  bind (on_addrs (λ m, Some (make None (length Indices) m))) (λ na,
  bind (on_signers (λ m, Some (make None (length Indices) m))) (λ ns,
  let newCA := {| Call := Call ca; addrs := na; signers := ns |} in
  bind (for_each (zip (seq 0 (length Indices)) Indices)
          (λ '(i, k) _, copy_player ca newCA i (nat_index k)) ())
    (λ _, ret newCA))).

End Authority.

(** The windows of the two slices of [ca] lie within their arrays. *)
Definition valid_authority (st : state) (ca : CollectiveAuthority) : Prop :=
  valid (addr_arrays st) (addrs ca) ∧ valid (signer_arrays st) (signers ca).

(** The computation [c], started in [st], does what the value-level result
    [cf] says: it panics when [cf] is [None], and returns a result related
    to [rf] when [cf] is [Some rf]. *)
Definition sim {R Rf : Type} (c : M R) (cf : option Rf) (st : state)
    (rel : R → state → Rf → Prop) : Prop :=
  match cf with
  | Some rf => ∃ r, (c st).1 = Some r ∧ rel r (c st).2 rf
  | None => (c st).1 = None
  end.

(** The new authority of a loop of [Apply] or [Take]: it lies in arrays that
    [st0] does not hold, and shows the value [newCAf]. *)
Definition loop_rel (st0 : state) (newCA : CollectiveAuthority) (st : state)
    (newCAf : Fake.CollectiveAuthority) : Prop :=
  state_preserved st0 st ∧ fresh_in st0 newCA
  ∧ valid_authority st newCA ∧ view st newCA = newCAf.

(** A memory for a sample run: the authority of three members, whose two
    slices fill their arrays, and its call log. *)
Definition sample_state : state :=
  {| addr_arrays := [Fake.addrs Fake.authority3];
     signer_arrays := [Fake.signers Fake.authority3];
     call_logs := [[]] |}.

Definition sample_authority : CollectiveAuthority :=
  {| addrs := {| ptr := 0; off := 0; len := 3; cap := 3 |};
     signers := {| ptr := 0; off := 0; len := 3; cap := 3 |};
     Call := Some 0 |}.

(** The runtime of the sample run allocates twice the length it needs. *)
Definition sample_spare (c n : nat) : nat := n.

End Mem.

(** ** More of the fake collective authority *)

Module Members.
Import Fake.

(** [type PublicKeyIterator struct { signers []crypto.AggregateSigner;
    index int }] *)
Record PublicKeyIterator : Type :=
  { pit_signers : list crypto_AggregateSigner; pit_index : Z }.

(** [func (i *PublicKeyIterator) HasNext() bool] *)
Definition PublicKeyIterator_HasNext (i : PublicKeyIterator) : bool :=
  bool_decide (int_wrap (pit_index i + 1) < Z.of_nat (length (pit_signers i)))%Z.

(** [func (i *PublicKeyIterator) GetNext() crypto.PublicKey]: the result and
    the iterator after the call.  The method call on the signer panics when
    the signer is nil. *)
Definition PublicKeyIterator_GetNext (i : PublicKeyIterator)
  : option (crypto_PublicKey * PublicKeyIterator) :=
  if PublicKeyIterator_HasNext i then
    let i' := {| pit_signers := pit_signers i;
                 pit_index := int_wrap (pit_index i + 1) |} in
    s ← index_Z (pit_signers i') (pit_index i');
    pubkey ← crypto_GetPublicKey s;
    Some (pubkey, i')
  else Some (None, i).

(** [k] calls of [GetNext] in a row: the results in call order. *)
Fixpoint PublicKeyIterator_GetNext_times (k : nat) (i : PublicKeyIterator)
  : option (list crypto_PublicKey * PublicKeyIterator) :=
  match k with
  | O => Some ([], i)
  | S k' =>
      '(pubkey, i1) ← PublicKeyIterator_GetNext i;
      '(rest, i2) ← PublicKeyIterator_GetNext_times k' i1;
      Some (pubkey :: rest, i2)
  end.

(** [func (ca CollectiveAuthority) PublicKeyIterator()] *)
Definition new_PublicKeyIterator (ca : CollectiveAuthority) : PublicKeyIterator :=
  {| pit_signers := signers ca; pit_index := (-1)%Z |}.

(** The iterator that has handed out the first [i] public keys. *)
Definition key_iterator_at (l : list crypto_AggregateSigner) (i : nat)
  : PublicKeyIterator :=
  {| pit_signers := l; pit_index := (Z.of_nat i - 1)%Z |}.

(** [type Mino struct { mino.Mino; err error }], the fake of the overlay. *)
Record Mino : Type := { mino_err : error }.

(** A value of the interface [mino.Mino]: [nil], or the fake. *)
Abbreviation mino_Mino := (option Mino).

(** [func (m Mino) GetAddress() mino.Address] returns [Address{}]. *)
Definition Mino_GetAddress (m : Mino) : mino_Address :=
  Some {| index := 0; err := None |}.

(** The call [instance.GetAddress()] through the interface. *)
Definition mino_Mino_GetAddress (instance : mino_Mino) : option mino_Address :=
  m ← instance; Some (Mino_GetAddress m).

(** [func NewAuthorityFromMino(g func() crypto.AggregateSigner,
    instances ...mino.Mino) CollectiveAuthority] *)
Definition NewAuthorityFromMino (g : GenSigner) (instances : list mino_Mino)
  : option CollectiveAuthority :=
  signers ← for_range (length instances)
    (λ i signers, store_at signers i (g ()))
    (replicate (length instances) None);
  addrs ← for_each (zip (seq 0 (length instances)) instances)
    (λ '(i, instance) addrs,
       a ← mino_Mino_GetAddress instance;
       store_at addrs i a)
    (replicate (length instances) None);
  Some {| signers := signers; addrs := addrs; Call := None |}.

End Members.

(** ** The call recorder *)

Module Recorder.
Import Fake.

Section Call.
(** The implementations behind the [interface{}] values that are recorded;
    [None] is the nil interface. *)
Context {V : Type}.

(** [type Call struct { calls [][]interface{} }] *)
Record Call : Type := { calls : list (list (option V)) }.

(** [func (c *Call) Get(n, i int) interface{}]: nil on a nil receiver, a
    panic on an index out of range. *)
Definition Get (c : option Call) (n i : Z) : option (option V) :=
  match c with
  | None => Some None
  | Some c => args ← index_Z (calls c) n; index_Z args i
  end.

(** [func (c *Call) Len() int] *)
Definition Len (c : option Call) : Z :=
  match c with
  | None => 0%Z
  | Some c => Z.of_nat (length (calls c))
  end.

(** [func (c *Call) Add(args ...interface{})].  The receiver is a pointer:
    what it points to after the call is returned. *)
Definition Add (c : option Call) (args : list (option V)) : option Call :=
  match c with
  | None => None
  | Some c => Some {| calls := calls c ++ [args] |}
  end.

End Call.

Arguments Call : clear implicits.

End Recorder.

(** ** The call log of an authority, and iterators, in memory *)

Module Recording.
Import Mem.

(** A computation that turns the call logs into [f] of what they were,
    whether it returns or panics, with a result that satisfies [P] when it
    returns. *)
Definition records {R : Type} (c : M R)
    (f : list (list (list arg)) → list (list (list arg))) (P : R → Prop) : Prop :=
  ∀ st, call_logs (c st).2 = f (call_logs st) ∧ ∀ r, (c st).1 = Some r → P r.

(** A computation that leaves the call logs as they are. *)
Definition keeps_logs {R : Type} (c : M R) (P : R → Prop) : Prop :=
  records c (λ logs, logs) P.

(** The record that [Apply] leaves in the call log. *)
Definition apply_record (cs : Fake.ChangeSet) : list arg :=
  [arg_string "apply"; arg_ChangeSet cs].

(** [type AddressIterator struct { addrs []mino.Address; index int }], with
    its slice header: the iterator shares the array of the authority. *)
Record AddressIterator : Type := { it_addrs : slice; it_index : Z }.

(** [func (ca CollectiveAuthority) AddressIterator()] *)
Definition new_AddressIterator (ca : CollectiveAuthority) : AddressIterator :=
  {| it_addrs := addrs ca; it_index := (-1)%Z |}.

(** [func (i *AddressIterator) HasNext() bool] *)
Definition HasNext (i : AddressIterator) : bool :=
  bool_decide (Fake.int_wrap (it_index i + 1) < Z.of_nat (len (it_addrs i)))%Z.

(** [func (i *AddressIterator) GetNext() mino.Address] *)
Definition GetNext (i : AddressIterator) : M (Fake.mino_Address * AddressIterator) :=
  if HasNext i then
    let i' := {| it_addrs := it_addrs i;
                 it_index := Fake.int_wrap (it_index i + 1) |} in
    bind (on_addrs (λ m, k ← nat_index (it_index i');
                         a ← load m (it_addrs i') k;
                         Some (a, m)))
      (λ a, ret (a, i'))
  else ret (None, i).

(** [k] calls of [GetNext] in a row. *)
Fixpoint GetNext_times (k : nat) (i : AddressIterator)
  : M (list Fake.mino_Address * AddressIterator) :=
  match k with
  | O => ret ([], i)
  | S k' =>
      bind (GetNext i) (λ '(a, i1),
      bind (GetNext_times k' i1) (λ '(rest, i2),
      ret (a :: rest, i2)))
  end.

(** The value-level iterator that a memory-level one shows. *)
Definition view_iterator (st : state) (i : AddressIterator) : Fake.AddressIterator :=
  {| Fake.it_addrs := contents (addr_arrays st) (it_addrs i);
     Fake.it_index := it_index i |}.

End Recording.

(** ** The fake hash *)

Module Hashing.
Import Fake Recorder.

(** [type Hash struct { hash.Hash; delay int; err error; Call *Call }].  The
    call log that [Call] points to is kept with the hash. *)
Record Hash : Type :=
  { delay : Z; hash_err : error; hash_Call : option (Call (list byte)) }.

(** [func (h *Hash) Write(in []byte) (int, error)]: the results and the hash
    after the call. *)
Definition Write (h : Hash) (input : list byte) : (Z * error) * Hash :=
  let call :=
    match hash_Call h with
    | Some _ => Add (hash_Call h) [Some input]
    | None => None
    end in
  if bool_decide (0 < delay h)%Z then
    ((0%Z, None),
     {| delay := int_wrap (delay h - 1); hash_err := hash_err h; hash_Call := call |})
  else
    ((0%Z, hash_err h),
     {| delay := delay h; hash_err := hash_err h; hash_Call := call |}).

(** Successive writes to the same hash. *)
Fixpoint writes (h : Hash) (inputs : list (list byte)) : list (Z * error) * Hash :=
  match inputs with
  | [] => ([], h)
  | input :: inputs' =>
      let '(r, h1) := Write h input in
      let '(rs, h2) := writes h1 inputs' in
      (r :: rs, h2)
  end.

(** [func (h *Hash) Sum([]byte) []byte] *)
Definition Sum (h : Hash) (b : list byte) : list byte := [].

(** The hashes in memory: a [*Hash] is [nil] or a position in the store. *)
Abbreviation hashes := (list Hash).

(** [func NewBadHashWithDelay(delay int) *Hash] *)
Definition NewBadHashWithDelay (delay : Z) (heap : hashes) : option nat * hashes :=
  (Some (length heap),
   heap ++ [{| delay := delay; hash_err := xerrors_New "fake error";
               hash_Call := None |}]).

(** [func NewBadHash() *Hash] *)
Definition NewBadHash (heap : hashes) : option nat * hashes :=
  (Some (length heap),
   heap ++ [{| delay := 0; hash_err := xerrors_New "fake error";
               hash_Call := None |}]).

(** [Write] through a pointer: it panics on a nil one. *)
Definition Write_at (h : option nat) (input : list byte) (heap : hashes)
  : option ((Z * error) * hashes) :=
  p ← h;
  obj ← heap !! p;
  let '(r, obj') := Write obj input in
  Some (r, <[p := obj']> heap).

(** [type HashFactory struct { hash *Hash }] *)
Record HashFactory : Type := { hash : option nat }.

(** [func NewHashFactory(h *Hash) HashFactory] *)
Definition NewHashFactory (h : option nat) : HashFactory := {| hash := h |}.

(** [func (f HashFactory) New() hash.Hash] *)
Definition New (f : HashFactory) : option nat := hash f.

(** One write through each of the hashes that successive calls of [New]
    return. *)
Fixpoint writes_through (f : HashFactory) (inputs : list (list byte)) (heap : hashes)
  : option (list (Z * error) * hashes) :=
  match inputs with
  | [] => Some ([], heap)
  | input :: inputs' =>
      '(r, heap1) ← Write_at (New f) input heap;
      '(rs, heap2) ← writes_through f inputs' heap1;
      Some (r :: rs, heap2)
  end.

End Hashing.

(** ** Printing an address *)

Module Printing.
Import Fake.

(** The verb [%d] of [fmt.Sprintf] on an [int]: the decimal digits, after a
    minus sign when the number is negative. *)
Definition Sprintf_d (z : Z) : string := NilEmpty.string_of_int (Z.to_int z).

(** [func (a Address) String() string] *)
Definition Address_String (a : Address) : string :=
  ("fake.Address[" ++ Sprintf_d (index a) ++ "]")%string.

End Printing.

(** ** The e-voting controller *)

Module Controller.

(** The client that [SetCommands] creates for the action of the command
    [initHttpServer]: [&client{nonce: 1}]. *)
Definition SetCommands_client : Evoting.client := {| Evoting.nonce := 1 |}.

End Controller.

(** ** The JSON format engine of rosters *)

Module RosterJson.
Import Json.

Section rosterFormat.

Context {mino_Address crypto_PublicKey Roster : Type}.
Variable Address_MarshalText : mino_Address → list byte * error.
Variable PublicKey_Serialize : crypto_PublicKey → list byte * error.

(** An address and a public key that encode without error, and the JSON
    player that the engines make of them. *)
Definition marshals (address : mino_Address) (pk : crypto_PublicKey) : Prop :=
  (Address_MarshalText address).2 = None ∧ (PublicKey_Serialize pk).2 = None.

Definition encoded_player (address : mino_Address) (pk : crypto_PublicKey) : Player :=
  {| Address := (Address_MarshalText address).1;
     PublicKey := (PublicKey_Serialize pk).1 |}.

(** The same for a player of a change set. *)
Definition player_marshals (p : roster_Player mino_Address crypto_PublicKey) : Prop :=
  marshals (roster_Address p) (roster_PublicKey p).

Definition encoded (p : roster_Player mino_Address crypto_PublicKey) : Player :=
  encoded_player (roster_Address p) (roster_PublicKey p).

(** The roster is a type of package [roster], which is not among the
    sources.  The engine uses it through [Len], through the addresses and the
    public keys that its two iterators yield until [HasNext] is false, and
    through the constructor [roster.New]. *)
Variable Roster_Len : Roster → Z.
Variable Roster_addresses : Roster → list mino_Address.
Variable Roster_pubkeys : Roster → list crypto_PublicKey.
Variable roster_New : list mino_Address → list crypto_PublicKey → Roster.

(** A [serde.Message]: a roster, or a message of another type. *)
Inductive serde_Message : Type :=
| Roster_Message (roster : Roster)
| other_Message (type_name : string).

(** The [serde.Context]; the JSON message of a roster is [type Roster
    []Player]. *)
Variable ctx_Marshal : list Player → list byte * error.
Variable ctx_Unmarshal : list byte → list Player * error.
Variable ctx_GetFactory : factory_key → serde_Factory mino_Address crypto_PublicKey.

(** The loop of [Encode], [for i := 0; addrIter.HasNext() &&
    pkIter.HasNext(); i++], from round [i] on: the store [players[i] = ...]
    panics when [i] is not below [roster.Len()]. *)
Fixpoint Encode_loop (i : nat) (addrs : list mino_Address)
    (pubkeys : list crypto_PublicKey) (players : list Player)
  : option (list Player * error) :=
  match addrs, pubkeys with
  | address :: addrs', pk :: pubkeys' =>
      let '(addr, err) := Address_MarshalText address in
      match err with
      | Some e => Some ([], Errorf "couldn't marshal address" e)
      | None =>
          let '(pubkey, err) := PublicKey_Serialize pk in
          match err with
          | Some e => Some ([], Errorf "couldn't serialize public key" e)
          | None =>
              players' ← Fake.store_at players i {| Address := addr; PublicKey := pubkey |};
              Encode_loop (S i) addrs' pubkeys' players'
          end
      end
  | _, _ => Some (players, None)
  end.

(** The message that [Encode] hands to [ctx.Marshal].  [make] panics on a
    length that [makeslice] refuses for a [Player], a struct of two slices. *)
Definition Encode_message (roster : Roster) : option (list Player * error) :=
  if makeslice_panics (2 * slice_size) (Roster_Len roster) then None
  else
    let players :=
      replicate (Z.to_nat (Roster_Len roster)) {| Address := []; PublicKey := [] |} in
    Encode_loop 0 (Roster_addresses roster) (Roster_pubkeys roster) players.

(** [func (f rosterFormat) Encode(ctx serde.Context, msg serde.Message)
    ([]byte, error)] *)
Definition Encode (msg : serde_Message) : option (list byte * error) :=
  match msg with
  | other_Message T => Some ([], Errorf_T "unsupported message of type" T)
  | Roster_Message roster =>
      '(m, err) ← Encode_message roster;
      match err with
      | Some e => Some ([], Some e)
      | None =>
          let '(data, err) := ctx_Marshal m in
          match err with
          | Some e => Some ([], Errorf "couldn't marshal" e)
          | None => Some (data, None)
          end
      end
  end.

(** The loop of [Decode] over the players of the message. *)
Fixpoint Decode_loop
    (FromText : list byte → mino_Address)
    (PublicKeyOf : list byte → crypto_PublicKey * error)
    (m : list Player) : (list mino_Address * list crypto_PublicKey) * error :=
  match m with
  | [] => (([], []), None)
  | player :: m' =>
      let addr := FromText (Address player) in
      let '(pubkey, err) := PublicKeyOf (PublicKey player) in
      match err with
      | Some e => (([], []), Errorf "couldn't deserialize public key" e)
      | None =>
          let '((addrs, pubkeys), err) := Decode_loop FromText PublicKeyOf m' in
          match err with
          | Some e => (([], []), Some e)
          | None => ((addr :: addrs, pubkey :: pubkeys), None)
          end
      end
  end.

(** [func (f rosterFormat) Decode(ctx serde.Context, data []byte)
    (serde.Message, error)] *)
Definition Decode (data : list byte) : option serde_Message * error :=
  let '(m, err) := ctx_Unmarshal data in
  match err with
  | Some e => (None, Errorf "couldn't deserialize roster" e)
  | None =>
      match ctx_GetFactory PubKeyFac with
      | PublicKeyFactory _ PublicKeyOf =>
          match ctx_GetFactory AddrKeyFac with
          | AddressFactory _ FromText =>
              let '((addrs, pubkeys), err) := Decode_loop FromText PublicKeyOf m in
              match err with
              | Some e => (None, Some e)
              | None => (Some (Roster_Message (roster_New addrs pubkeys)), None)
              end
          | PublicKeyFactory T _ | other_Factory T =>
              (None, Errorf_T "invalid address factory of type" T)
          end
      | AddressFactory T _ | other_Factory T =>
          (None, Errorf_T "invalid public key factory of type" T)
      end
  end.

(** An address and a public key that the factories [FromText] and
    [PublicKeyOf] return from their encodings. *)
Definition comes_back
    (FromText : list byte → mino_Address)
    (PublicKeyOf : list byte → crypto_PublicKey * error)
    (address : mino_Address) (pk : crypto_PublicKey) : Prop :=
  FromText (Address_MarshalText address).1 = address
  ∧ PublicKeyOf (PublicKey_Serialize pk).1 = (pk, None).

End rosterFormat.

Arguments serde_Message : clear implicits.

(** A roster for sample runs: its addresses and its public keys, which are
    their own encoding, and the sample codec for the JSON message of a
    roster. *)
Definition sample_Roster : Type := list Fake.Address * list (list byte).

Definition sample_Len (r : sample_Roster) : Z := Z.of_nat (length r.1).

Definition sample_roster : sample_Roster :=
  ([Fake.NewAddress 1; Fake.NewAddress 258; Fake.NewAddress 0],
   [[xdf]; [xde; xad]; []]).

Definition sample_roster_Marshal (m : list Player) : list byte * error :=
  match put_list put_Player m with
  | Some d => (d, None)
  | None => ([], Some "unsupported message"%string)
  end.

Definition sample_roster_Unmarshal (data : list byte) : list Player * error :=
  match get_list get_Player data with
  | Some (m, []) => (m, None)
  | _ => ([], Some "invalid data"%string)
  end.

(** The bytes that the sample codec writes for the sample roster. *)
Definition sample_roster_data : list byte :=
  [x03; x04; x01; x00; x00; x00; x01; xdf;
        x04; x02; x01; x00; x00; x02; xde; xad;
        x04; x00; x00; x00; x00; x00].

End RosterJson.

(** * Theorems *)

(** ** The e-voting client *)

Module EvotingProofs.
Import Evoting.
Local Open Scope Z_scope.

Lemma uint64_wrap_small z : 0 ≤ z < uint64_modulus → uint64_wrap z = z.
Proof. intros Hz. unfold uint64_wrap. apply Z.mod_small. exact Hz. Qed.

(** One call, whatever the stored nonce: the stored value comes back with a
    nil error and its successor modulo [2^64] is stored. *)
Lemma GetNonce_step {Identity : Type} (c : client) (id : Identity) :
  GetNonce c id = ((nonce c, None), {| nonce := (nonce c + 1) mod 2 ^ 64 |}).
Proof. reflexivity. Qed.

(** C10, as worded, fails on a client whose nonce is the largest [uint64]:
    the increment wraps to zero and the next call returns a smaller value. *)
Lemma GetNonce_wraps_at_max :
  ¬ nonce_strictly_increasing {| nonce := 2 ^ 64 - 1 |} tt.
Proof.
  unfold nonce_strictly_increasing. cbn.
  intros (_ & Hstep & _). vm_compute in Hstep. discriminate Hstep.
Qed.

(** C10 (amended): as long as the nonce does not pass [2^64], that is for [k]
    calls from a stored [uint64] nonce [n] with [n + k <= 2^64], the calls return
    [n, n+1, ..., n+k-1], each with a nil error, and the stored nonce ends at
    [n + k] modulo [2^64]. *)
Theorem GetNonce_consecutive {Identity : Type} (c : client) (ids : list Identity) :
  0 ≤ nonce c < uint64_modulus →
  nonce c + Z.of_nat (length ids) ≤ uint64_modulus →
  (calls c ids).1
    = (λ i : nat, (nonce c + Z.of_nat i, None)) <$> seq 0 (length ids)
  ∧ nonce (calls c ids).2 = uint64_wrap (nonce c + Z.of_nat (length ids)).
Proof.
  revert c. induction ids as [|id ids IH]; intros c Hlo Hhi.
  - cbn. split; [reflexivity|].
    rewrite Z.add_0_r, uint64_wrap_small; [reflexivity|].
    cbn [length] in Hhi. unfold uint64_modulus in *. lia.
  - cbn [calls GetNonce length].
    set (c1 := {| nonce := uint64_wrap (nonce c + 1) |}).
    destruct (calls c1 ids) as [rs c2] eqn:Hcalls.
    cbn [fst snd]. cbn [length] in Hhi.
    destruct ids as [|id' ids'].
    + cbn in Hcalls. injection Hcalls as <- <-. cbn.
      split; [by rewrite Z.add_0_r|]. reflexivity.
    + assert (Hc1 : nonce c1 = nonce c + 1).
      { subst c1. cbn [nonce]. apply uint64_wrap_small.
        cbn [length] in Hhi. unfold uint64_modulus in *. lia. }
      clearbody c1.
      destruct (IH c1) as [Hrs Hend].
      * rewrite Hc1. cbn [length] in Hhi. lia.
      * rewrite Hc1. cbn [length] in Hhi |- *. lia.
      * rewrite Hcalls in Hrs, Hend. cbn [fst snd] in Hrs, Hend.
        split.
        -- rewrite Hrs.
           change (seq 0 (S (length (id' :: ids'))))
             with (0%nat :: seq 1 (length (id' :: ids'))).
           rewrite fmap_cons, Z.add_0_r. f_equal.
           rewrite <- seq_shift, <- list_fmap_compose.
           apply list_fmap_ext. intros _ i _. cbn. rewrite Hc1. f_equal. lia.
        -- rewrite Hend, Hc1. f_equal. lia.
Qed.

Lemma GetNonce_consecutive_witness :
  (calls {| nonce := 1 |} [(); (); ()]).1 = [(1, None); (2, None); (3, None)]
  ∧ nonce (calls {| nonce := 1 |} [(); (); ()]).2 = 4.
Proof.
  exact (GetNonce_consecutive {| nonce := 1 |} [(); (); ()]
           ltac:(vm_compute; split; [discriminate | reflexivity])
           ltac:(vm_compute; discriminate)).
Defined.

End EvotingProofs.

(** ** Addresses and their text encoding *)

Module AddressProofs.
Import Fake.

Lemma Address_Equal_refl (a : Address) : Address_Equal a (Some a) = true.
Proof. unfold Address_Equal. by rewrite bool_decide_eq_true. Qed.

Lemma Address_Equal_sym (a b : Address) :
  Address_Equal a (Some b) = Address_Equal b (Some a).
Proof. unfold Address_Equal. apply bool_decide_ext. split; congruence. Qed.

Lemma Address_Equal_index (a b : Address) :
  Address_Equal a (Some b) = true ↔ index a = index b.
Proof.
  unfold Address_Equal. rewrite bool_decide_eq_true. split; congruence.
Qed.

(** [MarshalText] always writes four bytes. *)
Lemma MarshalText_length (a : Address) : length (MarshalText a).1 = 4.
Proof. reflexivity. Qed.

(** The factory reads nothing from a text of four bytes: the guard
    [len(text) > 4] sends it to the zero address. *)
Lemma FromText_four_bytes (text : list byte) :
  length text = 4 → FromText text = Some {| index := 0; err := None |}.
Proof.
  intros Hlen. unfold FromText. rewrite bool_decide_eq_false_2; [reflexivity|lia].
Qed.

Lemma FromText_MarshalText (a : Address) :
  FromText (MarshalText a).1 = Some {| index := 0; err := None |}.
Proof. apply FromText_four_bytes, MarshalText_length. Qed.

Lemma Z_of_byte_of_Z (z : Z) : Z_of_byte (byte_of_Z z) = (z mod 256)%Z.
Proof.
  unfold Z_of_byte, byte_of_Z.
  assert (Hlt : (Z.to_N (z mod 256) < 256)%N).
  { pose proof (Z.mod_pos_bound z 256 eq_refl). lia. }
  destruct (Byte.of_N (Z.to_N (z mod 256))) as [b|] eqn:Hb.
  - cbn. apply Byte.to_of_N in Hb. rewrite Hb.
    pose proof (Z.mod_pos_bound z 256 eq_refl). lia.
  - apply Byte.of_N_None_iff in Hb. lia.
Qed.

Lemma Uint32_PutUint32 (v : Z) : (0 ≤ v < 2 ^ 32)%Z → Uint32 (PutUint32 v) = Some v.
Proof.
  intros Hv. unfold Uint32, PutUint32. f_equal.
  rewrite !Z_of_byte_of_Z.
  change 256%Z with (2 ^ 8)%Z.
  apply Z.bits_inj'. intros n Hn.
  rewrite !Z.lor_spec, !Z.shiftl_spec by lia.
  destruct (decide (n < 8)%Z).
  - rewrite Z.mod_pow2_bits_low by lia.
    rewrite !(Z.testbit_neg_r _ (n - _)) by lia. by rewrite !orb_false_r.
  - rewrite Z.mod_pow2_bits_high by lia. cbn [orb].
    destruct (decide (n < 16)%Z).
    + rewrite Z.mod_pow2_bits_low, Z.shiftr_spec by lia.
      rewrite !(Z.testbit_neg_r _ (n - _)) by lia. rewrite !orb_false_r.
      f_equal. lia.
    + rewrite (Z.mod_pow2_bits_high _ _ (n - 8)) by lia. cbn [orb].
      destruct (decide (n < 24)%Z).
      * rewrite Z.mod_pow2_bits_low, Z.shiftr_spec by lia.
        rewrite !(Z.testbit_neg_r _ (n - _)) by lia. rewrite !orb_false_r.
        f_equal. lia.
      * rewrite (Z.mod_pow2_bits_high _ _ (n - 16)) by lia. cbn [orb].
        destruct (decide (n < 32)%Z).
        -- rewrite Z.mod_pow2_bits_low, Z.shiftr_spec by lia. f_equal. lia.
        -- rewrite Z.mod_pow2_bits_high by lia.
           symmetry. apply (Z.bits_above_log2 v n); [lia|].
           destruct (decide (v = 0%Z)) as [->|Hne]; [cbn; lia|].
           apply Z.log2_lt_pow2; [lia|].
           eapply Z.lt_le_trans; [apply Hv|]. apply Z.pow_le_mono_r; lia.
Qed.

(** The decoder inverts the encoder: with one more byte after the four of
    [MarshalText], enough to pass the guard, the factory finds the address. *)
Lemma FromText_five_bytes (a : Address) (b : byte) :
  (0 ≤ index a < 2 ^ 32)%Z →
  ∃ a', FromText ((MarshalText a).1 ++ [b]) = Some a'
        ∧ Address_Equal a' (Some a) = true.
Proof.
  intros Hidx. unfold FromText, MarshalText. cbn [fst].
  rewrite bool_decide_eq_true_2 by (cbn; lia).
  change (Uint32 (PutUint32 (uint32 (index a)) ++ [b]))
    with (Uint32 (PutUint32 (uint32 (index a)))).
  unfold uint32. rewrite Z.mod_small by done.
  rewrite Uint32_PutUint32 by done. cbn.
  eexists. split; [reflexivity|]. unfold Address_Equal. cbn.
  by rewrite bool_decide_eq_true.
Qed.

(** C4: the text encoding of the address of index 1 does not come back:
    [FromText] returns the address of index 0, which is not [Equal] to it. *)
Theorem text_round_trip_fails :
  FromText (MarshalText (NewAddress 1)).1 = Some (NewAddress 0)
  ∧ Address_Equal (NewAddress 0) (Some (NewAddress 1)) = false
  ∧ ¬ text_round_trip (NewAddress 1).
Proof.
  split; [reflexivity|]. split; [reflexivity|].
  intros (a' & Hdec & Heq). rewrite FromText_MarshalText in Hdec.
  injection Hdec as <-. vm_compute in Heq. discriminate Heq.
Qed.

(** The round trip holds for exactly the addresses of index 0. *)
Lemma text_round_trip_iff (a : Address) : text_round_trip a ↔ index a = 0%Z.
Proof.
  unfold text_round_trip. rewrite FromText_MarshalText. split.
  - intros (a' & [= <-] & Heq). apply Address_Equal_index in Heq. cbn in Heq. congruence.
  - intros H0. eexists. split; [reflexivity|].
    apply Address_Equal_index. cbn. congruence.
Qed.

End AddressProofs.

(** ** The address iterator *)

Module IteratorProofs.
Import Fake.

Lemma index_Z_of_nat {A : Type} (s : list A) (i : nat) :
  index_Z s (Z.of_nat i) = s !! i.
Proof.
  unfold index_Z. rewrite bool_decide_eq_true_2 by lia. by rewrite Nat2Z.id.
Qed.

Lemma int_wrap_small (z : Z) : (- 2 ^ 63 ≤ z < 2 ^ 63)%Z → int_wrap z = z.
Proof.
  intros Hz. unfold int_wrap.
  assert (H64 : (2 ^ 64 = 2 * 2 ^ 63)%Z) by reflexivity.
  rewrite Z.mod_small; lia.
Qed.

Lemma int_wrap_index (i : nat) :
  (Z.of_nat i < 2 ^ 63)%Z → int_wrap (Z.of_nat i - 1 + 1) = Z.of_nat i.
Proof.
  intros Hi. assert (Hpos : (0 < 2 ^ 63)%Z) by reflexivity.
  rewrite int_wrap_small; lia.
Qed.

Lemma HasNext_iterator_at l i :
  (Z.of_nat i < 2 ^ 63)%Z →
  HasNext (iterator_at l i) = bool_decide (i < length l).
Proof.
  intros Hi. unfold HasNext, iterator_at. cbn [it_index it_addrs].
  rewrite int_wrap_index by done. apply bool_decide_ext. lia.
Qed.

Lemma GetNext_iterator_at l i a :
  (Z.of_nat i < 2 ^ 63)%Z →
  l !! i = Some a → GetNext (iterator_at l i) = Some (a, iterator_at l (S i)).
Proof.
  intros Hint Hi. unfold GetNext. rewrite HasNext_iterator_at by done.
  rewrite bool_decide_eq_true_2 by (by eapply lookup_lt_Some).
  cbn [it_addrs it_index iterator_at].
  rewrite int_wrap_index by done.
  rewrite index_Z_of_nat, Hi. cbn. unfold iterator_at. do 3 f_equal. lia.
Qed.

Lemma GetNext_exhausted l i :
  (Z.of_nat i < 2 ^ 63)%Z →
  length l ≤ i → GetNext (iterator_at l i) = Some (None, iterator_at l i).
Proof.
  intros Hint Hi. unfold GetNext. rewrite HasNext_iterator_at by done.
  by rewrite bool_decide_eq_false_2 by lia.
Qed.

Lemma GetNext_times_iterator_at l k i :
  (Z.of_nat (length l) < 2 ^ 63)%Z →
  i + k ≤ length l →
  GetNext_times k (iterator_at l i) = Some (take k (drop i l), iterator_at l (i + k)).
Proof.
  intros Hint. revert i. induction k as [|k IH]; intros i Hik.
  - cbn. by rewrite Nat.add_0_r.
  - destruct (lookup_lt_is_Some_2 l i) as [a Ha]; [lia|].
    assert (Hi : (Z.of_nat i < 2 ^ 63)%Z) by lia.
    cbn [GetNext_times]. rewrite (GetNext_iterator_at _ _ _ Hi Ha). cbn.
    rewrite IH by lia. cbn.
    rewrite (drop_S _ _ _ Ha). cbn. do 3 f_equal. lia.
Qed.

Lemma GetNext_times_exhausted l k i :
  (Z.of_nat i < 2 ^ 63)%Z →
  length l ≤ i →
  GetNext_times k (iterator_at l i) = Some (replicate k None, iterator_at l i).
Proof.
  intros Hint Hi. induction k as [|k IH]; [reflexivity|].
  cbn [GetNext_times]. rewrite GetNext_exhausted by done. cbn.
  by rewrite IH.
Qed.

(** C6: on a roster of [n] addresses, [n] within the range of [int] as the
    length of every slice is, a fresh iterator has a next element before each
    of the first [n] calls of [GetNext]; these calls return the addresses in
    roster order; after them [HasNext] is false and any number of further
    calls return nil without a panic. *)
Theorem AddressIterator_yields_roster (ca : CollectiveAuthority) :
  let n := length (addrs ca) in
  (Z.of_nat n < 2 ^ 63)%Z →
  ∃ last,
    GetNext_times n (new_AddressIterator ca) = Some (addrs ca, last)
    ∧ (∀ k, k < n →
         ∃ seen it, GetNext_times k (new_AddressIterator ca) = Some (seen, it)
                    ∧ HasNext it = true)
    ∧ HasNext last = false
    ∧ ∀ m, GetNext_times m last = Some (replicate m None, last).
Proof.
  intros n Hint.
  assert (Hnew : new_AddressIterator ca = iterator_at (addrs ca) 0) by reflexivity.
  exists (iterator_at (addrs ca) n). rewrite Hnew. repeat split.
  - rewrite GetNext_times_iterator_at by (done || subst n; lia).
    cbn. subst n. by rewrite firstn_all.
  - intros k Hk. eexists _, _. split.
    + apply GetNext_times_iterator_at; [done|]. subst n. lia.
    + rewrite HasNext_iterator_at by lia.
      apply bool_decide_eq_true_2. subst n. cbn. lia.
  - rewrite HasNext_iterator_at by done. apply bool_decide_eq_false_2. subst n. lia.
  - intros m. apply GetNext_times_exhausted; [done|]. subst n. lia.
Qed.

Lemma AddressIterator_yields_roster_witness :
  ∃ last,
    GetNext_times 3 (new_AddressIterator authority3) = Some (addrs authority3, last)
    ∧ (∀ k, k < 3 →
         ∃ seen it, GetNext_times k (new_AddressIterator authority3) = Some (seen, it)
                    ∧ HasNext it = true)
    ∧ HasNext last = false
    ∧ ∀ m, GetNext_times m last = Some (replicate m None, last).
Proof.
  apply (AddressIterator_yields_roster authority3). vm_compute. reflexivity.
Defined.

End IteratorProofs.

(** ** Lookup of a public key *)

Module GetPublicKeyProofs.
Import Fake.

Lemma GetPublicKey_from_scan (ca : CollectiveAuthority) (addr : mino_Address)
    (rest : list mino_Address) (i : nat) :
  Forall is_Some rest →
  (∀ k, k < length rest → ∃ s, signers ca !! (i + k) = Some (Some s)) →
  ∃ r, GetPublicKey_from ca addr i rest = Some r
       ∧ scan_result rest (signers ca) i addr r.
Proof.
  revert i. induction rest as [|address rest IH]; intros i Hsome Hsig.
  - eexists. split; [reflexivity|]. right. split; [|reflexivity].
    intros a Ha. by apply elem_of_nil in Ha.
  - apply Forall_cons in Hsome as [[a ->] Hsome].
    cbn [GetPublicKey_from mino_Address_Equal mbind option_bind].
    destruct (Address_Equal a addr) eqn:Heq.
    + destruct (Hsig 0) as [s Hs]; [cbn; lia|].
      rewrite Nat.add_0_r in Hs. rewrite Hs. cbn.
      eexists. split; [reflexivity|]. left. exists 0, a, s.
      rewrite Nat.add_0_r. repeat split; try done. intros j b Hj. lia.
    + destruct (IH (S i) Hsome) as (r & Hr & Hscan).
      { intros k Hk. destruct (Hsig (S k)) as [s Hs]; [cbn; lia|].
        exists s. by rewrite Nat.add_succ_comm. }
      exists r. split; [exact Hr|].
      destruct Hscan as [(k & b & s & Hk & Hb & Hfirst & Hs & ->)|[Hnone ->]].
      * left. exists (S k), b, s. rewrite Nat.add_succ_r. repeat split; try done.
        intros [|j] c Hj Hc.
        -- cbn in Hc. by injection Hc as <-.
        -- cbn in Hc. apply (Hfirst j c); [lia|done].
      * right. split; [|reflexivity].
        intros c Hc. apply elem_of_cons in Hc as [[= ->]|Hc]; [done|by apply Hnone].
Qed.

(** Why the roster has to be well formed: the scan calls [Equal] on each
    address it meets, and the call panics on a nil one. *)
Lemma GetPublicKey_nil_address :
  GetPublicKey {| addrs := [None]; signers := [NewSigner ()]; Call := None |}
               (Some (NewAddress 0))
  = None.
Proof. reflexivity. Qed.

(** C5, as worded, fails: the claim is made for every roster, and the
    package builds rosters on which the call panics.  [Apply] with the zero
    player, as [TestRoster_Apply] adds it, returns a roster of four members
    whose last address is nil: the lookup of an address that no member has
    walks up to it and calls [Equal] on it.  [NewAuthority] with a generator
    of nil signers returns a roster on which the lookup of the address of a
    member calls [GetPublicKey] on a nil signer. *)
Lemma GetPublicKey_panics_after_Apply :
  Apply authority3 {| Remove := []; Add := [zero_Player] |}
    = Some {| Call := None;
              addrs := addrs authority3 ++ [None];
              signers := signers authority3 ++ [Some (signerWrapper None)] |}
  ∧ GetPublicKey {| Call := None;
                    addrs := addrs authority3 ++ [None];
                    signers := signers authority3 ++ [Some (signerWrapper None)] |}
                 (Some (NewAddress 999))
    = None
  ∧ ¬ GetPublicKey_scans {| Call := None;
                            addrs := addrs authority3 ++ [None];
                            signers := signers authority3 ++ [Some (signerWrapper None)] |}
                         (Some (NewAddress 999))
  ∧ NewAuthority 1 (λ _, None)
    = Some {| Call := None; addrs := [Some (NewAddress 0)]; signers := [None] |}
  ∧ ¬ GetPublicKey_scans {| Call := None; addrs := [Some (NewAddress 0)]; signers := [None] |}
                         (Some (NewAddress 0)).
Proof.
  split; [reflexivity|]. split; [reflexivity|]. split; [|split; [reflexivity|]].
  - intros (r & Hr & _). discriminate Hr.
  - intros (r & Hr & _). discriminate Hr.
Qed.

(** C5 (amended): on a well-formed roster, one whose address and signer
    slices have the same length and hold no nil value, [GetPublicKey] never
    panics; it returns the public key and the index of the first player whose
    address is [Equal] to the queried one, and [(nil, -1)] when no address of
    the roster is. *)
Theorem GetPublicKey_linear_scan (ca : CollectiveAuthority) (addr : mino_Address) :
  well_formed ca →
  ∃ r, GetPublicKey ca addr = Some r
       ∧ scan_result (addrs ca) (signers ca) 0 addr r.
Proof.
  intros (Hlen & Haddrs & Hsigners).
  apply GetPublicKey_from_scan; [exact Haddrs|].
  intros k Hk. rewrite Hlen in Hk.
  destruct (lookup_lt_is_Some_2 _ _ Hk) as [s Hs].
  rewrite Forall_lookup in Hsigners. destruct (Hsigners _ _ Hs) as [s' ->].
  by exists s'.
Qed.

Lemma GetPublicKey_linear_scan_witness :
  ∃ r, GetPublicKey authority3 (Some (NewAddress 2)) = Some r
       ∧ scan_result (addrs authority3) (signers authority3) 0 (Some (NewAddress 2)) r.
Proof.
  apply (GetPublicKey_linear_scan authority3 (Some (NewAddress 2))).
  unfold well_formed. split; [reflexivity|].
  split; repeat constructor; eexists; reflexivity.
Defined.

End GetPublicKeyProofs.

(** ** [Apply] on values *)

Module ApplyProofs.
Import Fake Roster.

Section Lists.
Context {A : Type}.
Implicit Types (l ad : list A) (R : list nat).

Lemma remove_at_delete l i : i < length l → remove_at l i = Some (delete i l).
Proof.
  intros Hi. unfold remove_at. rewrite bool_decide_eq_true_2 by done.
  by rewrite delete_take_drop.
Qed.

Lemma remove_at_None l i : length l ≤ i → remove_at l i = None.
Proof. intros Hi. unfold remove_at. by rewrite bool_decide_eq_false_2 by lia. Qed.

Lemma remove_at_length l i l' : remove_at l i = Some l' → S (length l') = length l.
Proof.
  unfold remove_at. case_bool_decide as Hi; [|done]. intros [= <-].
  rewrite length_app, length_take, length_drop. lia.
Qed.

Lemma remove_all_cons r R l :
  remove_all (r :: R) l = remove_at l r ≫= remove_all R.
Proof. reflexivity. Qed.

Lemma remove_all_length R l l' :
  remove_all R l = Some l' → length l' + length R = length l.
Proof.
  revert l. induction R as [|r R IH]; intros l.
  - intros [= <-]. cbn. lia.
  - rewrite remove_all_cons. destruct (remove_at l r) as [l1|] eqn:H1; [|done].
    cbn. intros H2. apply IH in H2. apply remove_at_length in H1. cbn. lia.
Qed.

(** Positions below the starting count are never met. *)
Lemma drop_positions_below i R l :
  Forall (λ r, r < i) R → drop_positions i R l = l.
Proof.
  revert i. induction l as [|x l IH]; intros i HR; [reflexivity|].
  cbn. rewrite bool_decide_eq_false_2.
  - f_equal. apply IH. eapply Forall_impl; [exact HR|]. cbn. lia.
  - intros Hin. rewrite Forall_forall in HR. apply HR in Hin. lia.
Qed.

Lemma drop_positions_nil i l : drop_positions i [] l = l.
Proof. apply drop_positions_below. constructor. Qed.

(** Removing the largest position first leaves the smaller ones in place. *)
Lemma drop_positions_delete i r R l :
  Forall (λ r', r' < i + r) R →
  drop_positions i R (delete r l) = drop_positions i ((i + r) :: R) l.
Proof.
  revert i r. induction l as [|x l IH]; intros i r HR; [by destruct r|].
  destruct r as [|r].
  - rewrite Nat.add_0_r in *. change (delete 0 (x :: l)) with l.
    cbn [drop_positions].
    rewrite bool_decide_eq_true_2 by (apply elem_of_cons; by left).
    rewrite !drop_positions_below; [done| |done].
    constructor; [lia|]. eapply Forall_impl; [exact HR|]. cbn. lia.
  - change (delete (S r) (x :: l)) with (x :: delete r l).
    cbn [drop_positions].
    rewrite <- Nat.add_succ_comm in *.
    rewrite (IH (S i) r HR).
    assert (Hi : i ∈ S i + r :: R ↔ i ∈ R).
    { rewrite elem_of_cons. split; [intros [?|?]; [lia|done]|by right]. }
    by rewrite (bool_decide_ext _ _ Hi).
Qed.

Lemma delete_app_l l ad i : i < length l → delete i (l ++ ad) = delete i l ++ ad.
Proof.
  revert i. induction l as [|x l IH]; intros i Hi; [cbn in Hi; lia|].
  destruct i as [|i]; [reflexivity|]. cbn. f_equal. apply IH. cbn in Hi. lia.
Qed.

Lemma strictly_descending_cons r R :
  strictly_descending (r :: R) ↔ Forall (λ r', r' < r) R ∧ strictly_descending R.
Proof. reflexivity. Qed.

(** Indices listed in strictly descending order, all within [l], remove the
    positions they name in [l], and nothing of what follows [l]. *)
Lemma remove_all_descending R l ad :
  strictly_descending R →
  Forall (λ r, r < length l) R →
  remove_all R (l ++ ad) = Some (drop_positions 0 R l ++ ad).
Proof.
  revert l. induction R as [|r R IH]; intros l Hdesc Hin.
  - cbn. by rewrite drop_positions_nil.
  - apply strictly_descending_cons in Hdesc as [Hlt Hdesc].
    apply Forall_cons in Hin as [Hr Hin].
    rewrite remove_all_cons, remove_at_delete by (rewrite length_app; lia).
    cbn. rewrite delete_app_l by done.
    rewrite IH; [|done|].
    + by rewrite (drop_positions_delete 0 r R l).
    + rewrite length_delete by (by apply lookup_lt_is_Some_2).
      eapply Forall_impl; [exact Hlt|]. cbn. lia.
Qed.

Lemma drop_positions_length R l :
  strictly_descending R →
  Forall (λ r, r < length l) R →
  length (drop_positions 0 R l) + length R = length l.
Proof.
  intros Hdesc Hin.
  pose proof (remove_all_descending R l [] Hdesc Hin) as Hrm.
  apply remove_all_length in Hrm. rewrite !length_app in Hrm. cbn in Hrm. lia.
Qed.

End Lists.

(** The copy loop of [Apply]. *)
Lemma insert_take_replicate {A : Type} (l : list A) (z a : A) (n i : nat) :
  l !! i = Some a → i < n →
  <[i:=a]> (take i l ++ replicate (n - i) z) = take (S i) l ++ replicate (n - S i) z.
Proof.
  intros Ha Hn.
  assert (Hi : i < length l) by (by eapply lookup_lt_Some).
  rewrite insert_app_r_alt by (rewrite length_take; lia).
  rewrite length_take, Nat.min_l by lia. rewrite Nat.sub_diag.
  replace (n - i) with (S (n - S i)) by lia. cbn.
  rewrite (take_S_r _ _ _ Ha), <- app_assoc. reflexivity.
Qed.

Lemma Apply_copy_loop (ca : CollectiveAuthority) (k i : nat) :
  i + k ≤ length (addrs ca) →
  length (addrs ca) ≤ length (signers ca) →
  for_each (seq i k)
    (λ i newAuthority,
       a ← addrs ca !! i;
       addrs' ← store_at (addrs newAuthority) i a;
       s ← signers ca !! i;
       signers' ← store_at (signers newAuthority) i s;
       Some {| Call := Call newAuthority; addrs := addrs'; signers := signers' |})
    (copied ca i)
  = Some (copied ca (i + k)).
Proof.
  revert i. induction k as [|k IH]; intros i Hik Hlen.
  - cbn. by rewrite Nat.add_0_r.
  - cbn [seq for_each].
    destruct (lookup_lt_is_Some_2 (addrs ca) i) as [a Ha]; [lia|].
    destruct (lookup_lt_is_Some_2 (signers ca) i) as [s Hs]; [lia|].
    rewrite Ha, Hs. cbn [mbind option_bind copied addrs signers Call].
    unfold store_at.
    rewrite !bool_decide_eq_true_2
      by (rewrite length_app, length_take, length_replicate; lia).
    cbn [mbind option_bind].
    rewrite (insert_take_replicate _ _ _ _ _ Ha) by lia.
    rewrite (insert_take_replicate _ _ _ _ _ Hs) by lia.
    change (for_each (seq (S i) k) ?b ?st) with (for_each (seq (S i) k) b (copied ca (S i))).
    rewrite IH by lia. do 2 f_equal. lia.
Qed.

(** The loop over [cs.Add]. *)
Lemma Apply_add_loop (players : list Player) (st : CollectiveAuthority) :
  for_each players
    (λ player newAuthority,
       Some {| Call := Call newAuthority;
               addrs := addrs newAuthority ++ [Player_Address player];
               signers := signers newAuthority
                            ++ [Some (signerWrapper (Player_PublicKey player))] |})
    st
  = Some {| Call := Call st;
            addrs := addrs st ++ (Player_Address <$> players);
            signers := signers st
                       ++ ((λ p, Some (signerWrapper (Player_PublicKey p))) <$> players) |}.
Proof.
  revert st. induction players as [|p players IH]; intros st.
  - cbn. rewrite !app_nil_r. by destruct st.
  - cbn [for_each mbind option_bind]. rewrite IH. cbn.
    by rewrite <- !app_assoc.
Qed.

(** The loop over [cs.Remove] runs [remove_all] on the two slices in step. *)
Lemma Apply_remove_loop (R : list nat) (st : CollectiveAuthority) :
  for_each R
    (λ i newAuthority,
       addrs' ← remove_at (addrs newAuthority) i;
       signers' ← remove_at (signers newAuthority) i;
       Some {| Call := Call newAuthority; addrs := addrs'; signers := signers' |})
    st
  = addrs' ← remove_all R (addrs st);
    signers' ← remove_all R (signers st);
    Some {| Call := Call st; addrs := addrs'; signers := signers' |}.
Proof.
  revert st. induction R as [|r R IH]; intros st.
  - cbn. by destruct st.
  - cbn [for_each]. rewrite !remove_all_cons.
    destruct (remove_at (addrs st) r) as [a1|]; [|reflexivity].
    destruct (remove_at (signers st) r) as [s1|]; cbn.
    + by rewrite IH.
    + by destruct (remove_all R a1).
Qed.

(** [Apply] in one equation: the receiver is copied, the added players are
    appended, and the removals run on the result. *)
Lemma Apply_unfold (ca : CollectiveAuthority) (cs : ChangeSet) :
  length (addrs ca) = length (signers ca) →
  Apply ca cs
  = addrs' ← remove_all (Remove cs) (addrs ca ++ (Player_Address <$> Add cs));
    signers' ← remove_all (Remove cs)
      (signers ca ++ ((λ p, Some (signerWrapper (Player_PublicKey p))) <$> Add cs));
    Some {| Call := Call ca; addrs := addrs'; signers := signers' |}.
Proof.
  intros Hlen. unfold Apply, for_range.
  assert (Hinit : copied ca 0
                  = {| Call := Call ca;
                       addrs := replicate (length (addrs ca)) None;
                       signers := replicate (length (signers ca)) None |}).
  { unfold copied. by rewrite !Nat.sub_0_r. }
  rewrite <- Hinit, (Apply_copy_loop ca (length (addrs ca)) 0) by lia.
  assert (Hdone : copied ca (0 + length (addrs ca))
                  = {| Call := Call ca; addrs := addrs ca; signers := signers ca |}).
  { unfold copied. cbn [Nat.add].
    rewrite (take_ge (signers ca)) by lia. rewrite firstn_all.
    rewrite <- Hlen, Nat.sub_diag. cbn [replicate]. by rewrite !app_nil_r. }
  rewrite Hdone. cbn [mbind option_bind].
  rewrite Apply_add_loop. cbn [mbind option_bind].
  by rewrite Apply_remove_loop.
Qed.

(** The copy loop panics when the receiver has fewer signers than
    addresses. *)
Lemma Apply_copy_panics (ca : CollectiveAuthority) (cs : ChangeSet) :
  length (signers ca) < length (addrs ca) → Apply ca cs = None.
Proof.
  intros Hlen. unfold Apply, for_range.
  match goal with
  | |- context [for_each (seq 0 _) ?b _] => set (body := b)
  end.
  assert (Hloop : ∀ k i st, i ≤ length (signers ca) < i + k →
            i + k ≤ length (addrs ca) → for_each (seq i k) body st = None).
  { induction k as [|k IH]; intros i st Hi Hk; [lia|].
    cbn [seq for_each]. destruct (body i st) as [st'|] eqn:Hbody; [|done].
    cbn. destruct (decide (i = length (signers ca))) as [->|Hne].
    - subst body. cbn beta in Hbody.
      destruct (addrs ca !! _) as [a|]; cbn in Hbody; [|done].
      destruct (store_at (addrs st) _ a); cbn in Hbody; [|done].
      by rewrite (lookup_ge_None_2 (signers ca)) in Hbody.
    - apply IH; lia. }
  rewrite (Hloop _ 0) by lia. reflexivity.
Qed.

(** C3: applying the empty change set, which is what a nil change set is, to
    a roster whose two slices run in parallel returns an equal roster: the
    same addresses and the same signers, hence public keys, in the same
    order. *)
Theorem Apply_empty (ca : CollectiveAuthority) :
  length (addrs ca) = length (signers ca) →
  Apply ca empty_ChangeSet = Some ca.
Proof.
  intros Hlen. rewrite Apply_unfold by done. cbn.
  rewrite !app_nil_r. by destruct ca.
Qed.

Lemma Apply_empty_witness : Apply authority3 empty_ChangeSet = Some authority3.
Proof. apply (Apply_empty authority3). reflexivity. Defined.

(** C2, as worded, fails: the indices are applied in the order of the list,
    each to what the removals before it left.  On three players with
    [Remove = [0, 1]] the code removes the players at positions 0 and 2 of
    the source and keeps the one at position 1. *)
Lemma Apply_ascending_removal_shifts :
  Apply authority3 {| Remove := [0; 1]; Add := [] |}
    = Some {| Call := None; addrs := [Some (NewAddress 1)]; signers := [NewSigner ()] |}
  ∧ ¬ Apply_removes_then_appends authority3 {| Remove := [0; 1]; Add := [] |}.
Proof.
  split; [reflexivity|].
  intros (r & Hr & Hspec & _). vm_compute in Hr. injection Hr as <-.
  vm_compute in Hspec. discriminate Hspec.
Qed.

(** An index that reaches past the source roster removes an added player,
    or panics when it reaches past them too, as on the change set of
    [TestRoster_Apply], which is meant for the roster proper. *)
Lemma Apply_removes_added_player :
  let p := {| Player_Address := Some (NewAddress 7); Player_PublicKey := None |} in
  Apply authority3 {| Remove := [3]; Add := [p] |} = Some authority3
  ∧ Apply authority3 {| Remove := [3]; Add := [] |} = None
  ∧ Apply authority3 {| Remove := [3; 2; 0]; Add := [] |} = None.
Proof. repeat split. Qed.

Lemma Apply_spec_when_descending (ca : CollectiveAuthority) (cs : ChangeSet) :
  length (addrs ca) = length (signers ca) →
  strictly_descending (Remove cs) →
  Forall (λ i, i < length (addrs ca)) (Remove cs) →
  Apply ca cs = Some (Apply_spec ca cs).
Proof.
  intros Hlen Hdesc Hin. rewrite Apply_unfold by done.
  rewrite (remove_all_descending (Remove cs) (addrs ca)) by done.
  rewrite (remove_all_descending (Remove cs) (signers ca));
    [reflexivity|done|by rewrite <- Hlen].
Qed.

(** C2 (amended): when the two slices of the roster run in parallel and the
    indices of [Remove] are listed in strictly descending order, all within
    the source roster, [Apply] returns the source roster without the players
    at these positions, followed by the players of [Add]; the result has
    [len(roster) - len(Remove) + len(Add)] players. *)
Theorem Apply_descending (ca : CollectiveAuthority) (cs : ChangeSet) :
  length (addrs ca) = length (signers ca) →
  strictly_descending (Remove cs) →
  Forall (λ i, i < length (addrs ca)) (Remove cs) →
  Apply ca cs = Some (Apply_spec ca cs)
  ∧ length (addrs (Apply_spec ca cs)) + length (Remove cs)
    = length (addrs ca) + length (Add cs)
  ∧ length (signers (Apply_spec ca cs)) = length (addrs (Apply_spec ca cs)).
Proof.
  intros Hlen Hdesc Hin.
  split; [by apply Apply_spec_when_descending|].
  unfold Apply_spec. cbn [addrs signers].
  rewrite !length_app, !length_fmap.
  pose proof (drop_positions_length (Remove cs) (addrs ca) Hdesc Hin) as Ha.
  rewrite Hlen in Hin.
  pose proof (drop_positions_length (Remove cs) (signers ca) Hdesc Hin) as Hs.
  lia.
Qed.

Lemma Apply_descending_witness :
  let cs := {| Remove := [2; 0];
               Add := [{| Player_Address := Some (NewAddress 7);
                          Player_PublicKey := None |}] |} in
  Apply authority3 cs = Some (Apply_spec authority3 cs)
  ∧ length (addrs (Apply_spec authority3 cs)) + length (Remove cs)
    = length (addrs authority3) + length (Add cs)
  ∧ length (signers (Apply_spec authority3 cs))
    = length (addrs (Apply_spec authority3 cs)).
Proof.
  intros cs. apply (Apply_descending authority3 cs).
  - reflexivity.
  - cbn. repeat constructor.
  - cbn. repeat constructor.
Defined.

End ApplyProofs.

(** ** [Diff] and its round trip through [Apply] *)

Module DiffProofs.
Import Fake Roster ApplyProofs.


Lemma same_address_refl (a : mino_Address) : is_Some a → same_address a a = true.
Proof. intros [a' ->]. apply AddressProofs.Address_Equal_refl. Qed.



(** The addresses of the players of a roster are its addresses. *)
Lemma players_addresses (ca : CollectiveAuthority) :
  Player_Address <$> players ca = addrs ca.
Proof.
  unfold players. generalize (PublicKey_at ca).
  induction (addrs ca) as [|a l IH]; intros f; [done|].
  cbn. f_equal. apply (IH (f ∘ S)).
Qed.

Lemma Diff_from_Remove_length i mine other :
  length (Remove (Diff_from i mine other)) ≤ length mine.
Proof.
  revert i other. induction mine as [|a mine IH]; intros i other; [done|].
  cbn. destruct other as [|b other].
  - cbn. specialize (IH (S i) []). lia.
  - destruct (same_address a (Player_Address b)).
    + specialize (IH (S i) other). lia.
    + cbn. specialize (IH (S i) (b :: other)). lia.
Qed.





Lemma sublist_tail {A : Type} (x : A) (l k : list A) :
  x :: l `sublist_of` k → l `sublist_of` k.
Proof.
  intros (k1 & k2 & -> & Hl)%sublist_cons_l.
  by apply sublist_inserts_l, sublist_cons.
Qed.

(** The walk never removes more than it has to: if [kept] can be read in
    the receiver, in order, and opens the other roster, then all of [kept]
    survives. *)
Lemma Diff_from_greedy i mine kept added other :
  Forall is_Some mine →
  kept `sublist_of` mine →
  Player_Address <$> other = kept ++ added →
  length (Remove (Diff_from i mine other)) + length kept ≤ length mine.
Proof.
  revert i kept other.
  induction mine as [|a mine IH]; intros i kept other Hsome Hsub Hother.
  - apply sublist_nil_r in Hsub as ->. cbn. lia.
  - destruct kept as [|c kept].
    { pose proof (Diff_from_Remove_length i (a :: mine) other). cbn in *. lia. }
    destruct other as [|b other]; [done|].
    cbn in Hother. injection Hother as Hb Hother.
    apply Forall_cons in Hsome as [Ha Hsome].
    cbn [Diff_from]. destruct (same_address a (Player_Address b)) eqn:Hab.
    + assert (Hsub' : kept `sublist_of` mine).
      { apply sublist_cons_r in Hsub as [Hsub|(kept' & [= _ <-] & Hsub)]; [|done].
        by eapply sublist_tail. }
      specialize (IH (S i) kept other Hsome Hsub' Hother). cbn. lia.
    + apply sublist_cons_r in Hsub as [Hsub|(kept' & [= <- <-] & Hsub)].
      * specialize (IH (S i) (c :: kept) (b :: other) Hsome Hsub).
        cbn in IH. rewrite Hb, Hother in IH. specialize (IH eq_refl).
        cbn. lia.
      * rewrite Hb, same_address_refl in Hab by done. discriminate Hab.
Qed.

(** C8: [Diff] against an authority of another type, or against nil, is the
    empty change set: nothing to remove, nothing to add, and no error. *)
Theorem Diff_incompatible (ca : CollectiveAuthority) :
  Diff ca foreign_Authority = empty_ChangeSet
  ∧ Diff ca nil_Authority = empty_ChangeSet
  ∧ Remove empty_ChangeSet = [] ∧ Add empty_ChangeSet = [].
Proof. repeat split. Qed.

(** The cases of [TestRoster_Diff]. *)
Lemma Diff_test_addition :
  Diff (authority_of [0; 1; 2]%Z) (roster_Authority (authority_of [0; 1; 2; 3]%Z))
  = {| Remove := [];
       Add := [{| Player_Address := Some (NewAddress 3);
                  Player_PublicKey := Some {| pk_err := None; verifyErr := None |} |}] |}.
Proof. reflexivity. Qed.

(** Applying that change set gives the addresses of the roster of four. *)
Lemma Diff_Apply_test_addition :
  addrs (Roster_Apply (authority_of [0; 1; 2]%Z)
           (Diff (authority_of [0; 1; 2]%Z)
                 (roster_Authority (authority_of [0; 1; 2; 3]%Z))))
  = addrs (authority_of [0; 1; 2; 3]%Z).
Proof. reflexivity. Qed.

(** The change set of [TestRoster_Apply] on the roster of three: the index 3
    removes nobody, the player of index 1 is left. *)
Lemma Roster_Apply_test_removal :
  addrs (Roster_Apply (authority_of [0; 1; 2]%Z) {| Remove := [3; 2; 0]; Add := [] |})
  = [Some (NewAddress 1)].
Proof. reflexivity. Qed.

Lemma Diff_test_removal :
  Remove (Diff (authority_of [0; 1; 2]%Z) (roster_Authority (authority_of [0; 1]%Z)))
  = [2].
Proof. reflexivity. Qed.

Lemma Diff_test_replacement :
  let diff := Diff (authority_of [0; 1; 2]%Z)
                   (roster_Authority (authority_of [0; 5; 2]%Z)) in
  Remove diff = [1; 2] ∧ length (Add diff) = 2.
Proof. split; reflexivity. Qed.


(** A roster reachable by removals and a suffix of additions costs no
    removal beyond the players that are gone. *)
Lemma Diff_removes_the_gone (A B : CollectiveAuthority) kept added :
  Forall is_Some (addrs A) →
  kept `sublist_of` addrs A →
  addrs B = kept ++ added →
  length (Remove (Diff A (roster_Authority B))) + length kept ≤ length (addrs A).
Proof.
  intros Hsome Hsub HB. cbn [Diff].
  apply (Diff_from_greedy 0 (addrs A) kept added (players B) Hsome Hsub).
  by rewrite players_addresses.
Qed.



(** In that run two players go: the removals are the positions 1 and 2 of
    the source roster. *)
Lemma Diff_two_removals :
  Diff (authority_of [0; 1; 2; 3]%Z) (roster_Authority (authority_of [0; 3; 7]%Z))
  = {| Remove := [1; 2];
       Add := [{| Player_Address := Some (NewAddress 7);
                  Player_PublicKey := Some {| pk_err := None; verifyErr := None |} |}] |}.
Proof. reflexivity. Qed.

End DiffProofs.

(** ** The sample codec *)

Module SampleCodecProofs.
Import Json.

Lemma get_many_put {A : Type} (put : A → option (list byte)) (get : reader A) :
  (∀ x dx rest, put x = Some dx → get (dx ++ rest) = Some (x, rest)) →
  ∀ l items rest,
    mapM put l = Some items →
    get_many get (length l) (concat items ++ rest) = Some (l, rest).
Proof.
  intros Hget. induction l as [|x l IH]; intros items rest Hitems.
  - by injection Hitems as <-.
  - cbn in Hitems. destruct (put x) as [dx|] eqn:Hx; [|done].
    destruct (mapM put l) as [items'|]; [|done].
    injection Hitems as <-.
    cbn [length get_many concat]. rewrite <- app_assoc, (Hget _ _ _ Hx).
    cbn. by rewrite (IH _ _ eq_refl).
Qed.

Lemma get_list_put_list {A : Type} (put : A → option (list byte)) (get : reader A) :
  (∀ x dx rest, put x = Some dx → get (dx ++ rest) = Some (x, rest)) →
  ∀ l d rest, put_list put l = Some d → get_list get (d ++ rest) = Some (l, rest).
Proof.
  intros Hget l d rest. unfold put_list.
  destruct (Byte.of_nat (length l)) as [n|] eqn:Hn; [|done].
  destruct (mapM put l) as [items|] eqn:Hitems; [|done].
  intros [= <-]. cbn [get_list app].
  rewrite (Byte.to_of_nat _ Hn). by apply (get_many_put put).
Qed.

Lemma get_slice_put_slice {A : Type} (put : A → option (list byte)) (get : reader A) :
  (∀ x dx rest, put x = Some dx → get (dx ++ rest) = Some (x, rest)) →
  ∀ s d rest, put_slice put s = Some d → get_slice get (d ++ rest) = Some (s, rest).
Proof.
  intros Hget [l|] d rest; cbn.
  - destruct (put_list put l) as [d'|] eqn:Hl; [|done].
    intros [= <-]. cbn. by rewrite (get_list_put_list put get Hget _ _ _ Hl).
  - by intros [= <-].
Qed.

Lemma get_bytes_put_bytes (b d rest : list byte) :
  put_bytes b = Some d → get_bytes (d ++ rest) = Some (b, rest).
Proof.
  apply get_list_put_list. by intros x dx rest' [= <-].
Qed.

Lemma get_uint32_put_uint32 (i : nat) (d rest : list byte) :
  put_uint32 i = Some d → get_uint32 (d ++ rest) = Some (i, rest).
Proof.
  unfold put_uint32. case_bool_decide as Hi; [|done]. intros [= <-].
  unfold get_uint32.
  change (Fake.Uint32 (Fake.PutUint32 (Z.of_nat i) ++ rest))
    with (Fake.Uint32 (Fake.PutUint32 (Z.of_nat i))).
  rewrite AddressProofs.Uint32_PutUint32 by lia.
  cbn. by rewrite Nat2Z.id.
Qed.

Lemma get_Player_put_Player (p : Player) (d rest : list byte) :
  put_Player p = Some d → get_Player (d ++ rest) = Some (p, rest).
Proof.
  unfold put_Player, get_Player.
  destruct (put_bytes (Address p)) as [a|] eqn:Ha; [|done].
  destruct (put_bytes (PublicKey p)) as [k|] eqn:Hk; [|done].
  intros [= <-]. rewrite <- app_assoc.
  rewrite (get_bytes_put_bytes _ _ _ Ha). cbn.
  rewrite (get_bytes_put_bytes _ _ _ Hk). cbn. by destruct p.
Qed.

(** The sample codec reads back every change set message that it writes. *)
Lemma sample_codec_reads_back (m : ChangeSet) (d : list byte) :
  sample_Marshal m = (d, None) → sample_Unmarshal d = (m, None).
Proof.
  unfold sample_Marshal, sample_Unmarshal, put_ChangeSet, get_ChangeSet.
  destruct (put_slice put_uint32 (Remove m)) as [r|] eqn:Hr; [|done].
  destruct (put_slice put_Player (Add m)) as [a|] eqn:Ha; [|done].
  intros [= <-].
  rewrite (get_slice_put_slice _ _ get_uint32_put_uint32 _ _ _ Hr). cbn.
  rewrite <- (app_nil_r a).
  rewrite (get_slice_put_slice _ _ get_Player_put_Player _ _ _ Ha). cbn.
  by destruct m.
Qed.

(** And every roster message. *)
Lemma sample_roster_codec_reads_back (m : list Player) (d : list byte) :
  RosterJson.sample_roster_Marshal m = (d, None) →
  RosterJson.sample_roster_Unmarshal d = (m, None).
Proof.
  unfold RosterJson.sample_roster_Marshal, RosterJson.sample_roster_Unmarshal.
  destruct (put_list put_Player m) as [d'|] eqn:Hm; [|done].
  intros [= <-]. rewrite <- (app_nil_r d').
  by rewrite (get_list_put_list _ _ get_Player_put_Player _ _ _ Hm).
Qed.

(** The sample factory returns every fake address of a [uint32] index and a
    nil error from its text; the factory of package [fake] returns only the
    address of index 0. *)
Lemma sample_FromText_MarshalText (a : Fake.Address) :
  (0 ≤ Fake.index a < 2 ^ 32)%Z → Fake.err a = None →
  sample_FromText (Fake.MarshalText a).1 = a.
Proof.
  intros Hidx Herr. unfold sample_FromText, Fake.MarshalText. cbn [fst].
  rewrite AddressProofs.Uint32_PutUint32.
  - unfold Fake.uint32. rewrite Z.mod_small by done.
    destruct a as [i e]. cbn in *. by subst e.
  - unfold Fake.uint32. by apply Z.mod_pos_bound.
Qed.

(** So every player with such an address decodes back under the sample
    factories, while under the factory of package [fake], which reads
    nothing from four bytes, only the address of index 0 does. *)
Lemma sample_decodes_back (p : roster_Player Fake.Address (list byte)) :
  (0 ≤ Fake.index (roster_Address p) < 2 ^ 32)%Z →
  Fake.err (roster_Address p) = None →
  decodes_back Fake.MarshalText sample_Serialize sample_FromText sample_PublicKeyOf p.
Proof.
  intros Hidx Herr. split; [|reflexivity]. by apply sample_FromText_MarshalText.
Qed.

Lemma fake_decodes_back (p : roster_Player Fake.Address (list byte)) :
  decodes_back Fake.MarshalText sample_Serialize
    (λ text, default (Fake.NewAddress 0) (Fake.FromText text)) sample_PublicKeyOf p
  ↔ roster_Address p = Fake.NewAddress 0.
Proof.
  unfold decodes_back. rewrite AddressProofs.FromText_MarshalText. cbn.
  split; [by intros [<- _]|by intros ->].
Qed.

End SampleCodecProofs.

(** ** The JSON round trip of a change set *)

Module JsonProofs.
Import Json.

Section RoundTrip.
Context {mino_Address crypto_PublicKey : Type}.
Variable Address_MarshalText : mino_Address → list byte * error.
Variable PublicKey_Serialize : crypto_PublicKey → list byte * error.
Variable ctx_Marshal : ChangeSet → list byte * error.
Variable ctx_Unmarshal : list byte → ChangeSet * error.
Variable ctx_GetFactory : factory_key → serde_Factory mino_Address crypto_PublicKey.
Variable pkFac addrFac : string.
Variable FromText : list byte → mino_Address.
Variable PublicKeyOf : list byte → crypto_PublicKey * error.

Lemma Encode_players_length players add :
  Encode_players Address_MarshalText PublicKey_Serialize players = (add, None) →
  length add = length players.
Proof.
  revert add. induction players as [|p players IH]; intros add.
  - by intros [= <-].
  - cbn. destruct (Address_MarshalText _) as [addr [e|]]; [done|].
    destruct (PublicKey_Serialize _) as [pubkey [e|]]; [done|].
    destruct (Encode_players Address_MarshalText PublicKey_Serialize players)
      as [add' [e|]]; [done|].
    intros [= <-]. cbn. f_equal. by apply IH.
Qed.

Lemma Decode_Encode_players players add :
  Encode_players Address_MarshalText PublicKey_Serialize players = (add, None) →
  Forall (decodes_back Address_MarshalText PublicKey_Serialize FromText PublicKeyOf)
    players →
  Decode_players FromText PublicKeyOf add = (players, None).
Proof.
  revert add. induction players as [|p players IH]; intros add Henc Hback.
  - by injection Henc as <-.
  - apply Forall_cons in Hback as [[Haddr Hpk] Hback]. cbn in Henc.
    destruct (Address_MarshalText _) as [addr [e|]]; [done|].
    destruct (PublicKey_Serialize _) as [pubkey [e|]]; [done|].
    destruct (Encode_players Address_MarshalText PublicKey_Serialize players)
      as [add' [e|]]; [done|].
    injection Henc as <-. cbn in Haddr, Hpk. cbn.
    rewrite Hpk, (IH add' eq_refl Hback), Haddr. by destruct p.
Qed.

(** What [Encode] hands to the codec when it succeeds. *)
Lemma Encode_success cset data :
  Encode Address_MarshalText PublicKey_Serialize ctx_Marshal (ChangeSet_Message cset)
  = (data, None) →
  ∃ add,
    Encode_players Address_MarshalText PublicKey_Serialize (elems (roster_Add cset))
      = (add, None)
    ∧ ctx_Marshal {| Remove := roster_Remove cset; Add := Some add |} = (data, None).
Proof.
  unfold Encode, Encode_message.
  destruct (Encode_players _ _ _) as [add [e|]]; [done|].
  destruct (ctx_Marshal _) as [data' [e|]] eqn:Hm; [done|].
  intros [= <-]. by exists add.
Qed.

(** C9: a change set that [Encode] turns into [data] without error comes
    back from [Decode] of [data], provided the codec of the context reads
    back the message of the change set from the bytes that it wrote for it,
    and every added player decodes back under the factories of the context:
    the removal indices are the same, the added players are the same, and a
    change set without additions comes back with a nil [Add]. *)
Theorem ChangeSet_round_trip cset data :
  ctx_GetFactory PubKeyFac = PublicKeyFactory pkFac PublicKeyOf →
  ctx_GetFactory AddrKeyFac = AddressFactory addrFac FromText →
  (∀ m d, Encode_message Address_MarshalText PublicKey_Serialize cset = (m, None) →
          ctx_Marshal m = (d, None) → ctx_Unmarshal d = (m, None)) →
  Forall (decodes_back Address_MarshalText PublicKey_Serialize FromText PublicKeyOf)
    (elems (roster_Add cset)) →
  Encode Address_MarshalText PublicKey_Serialize ctx_Marshal (ChangeSet_Message cset)
  = (data, None) →
  ∃ cset',
    Decode ctx_Unmarshal ctx_GetFactory data = (Some (ChangeSet_Message cset'), None)
    ∧ roster_Remove cset' = roster_Remove cset
    ∧ elems (roster_Add cset') = elems (roster_Add cset)
    ∧ (len (roster_Add cset) = 0 → roster_Add cset' = None).
Proof.
  intros Hpk Haddr Hcodec Hback Henc.
  apply Encode_success in Henc as (add & Hadd & Hdata).
  assert (Hm : ctx_Unmarshal data
               = ({| Remove := roster_Remove cset; Add := Some add |}, None)).
  { apply Hcodec; [|exact Hdata]. unfold Encode_message. by rewrite Hadd. }
  unfold Decode. rewrite Hm, Hpk, Haddr.
  cbn [Add Remove].
  pose proof (Encode_players_length _ _ Hadd) as Hlen.
  case_bool_decide as Hzero.
  - eexists. split; [reflexivity|]. cbn. split; [done|]. split; [|done].
    unfold len in Hzero. cbn in Hzero. rewrite Hlen in Hzero.
    symmetry. by apply nil_length_inv.
  - change (elems (Some add)) with add.
    rewrite (Decode_Encode_players _ _ Hadd Hback).
    eexists. split; [reflexivity|]. cbn. split; [done|]. split; [done|].
    intros Hnone. exfalso. apply Hzero. unfold len in *. cbn. by rewrite Hlen.
Qed.

End RoundTrip.

(** The sample run: two added players, of addresses 1 and 258, and the
    removals 2 and 0. *)
Lemma sample_Encode :
  Encode Fake.MarshalText sample_Serialize sample_Marshal
    (ChangeSet_Message sample_change_set)
  = (sample_data, None).
Proof. reflexivity. Qed.

Lemma ChangeSet_round_trip_witness :
  ∃ cset',
    Decode sample_Unmarshal sample_GetFactory sample_data
      = (Some (ChangeSet_Message cset'), None)
    ∧ roster_Remove cset' = roster_Remove sample_change_set
    ∧ elems (roster_Add cset') = elems (roster_Add sample_change_set)
    ∧ (len (roster_Add sample_change_set) = 0 → roster_Add cset' = None).
Proof.
  apply (ChangeSet_round_trip Fake.MarshalText sample_Serialize sample_Marshal
           sample_Unmarshal sample_GetFactory
           "sample.PublicKeyFactory" "sample.AddressFactory"
           sample_FromText sample_PublicKeyOf sample_change_set sample_data).
  - reflexivity.
  - reflexivity.
  - intros m d Hm Hd. vm_compute in Hm. injection Hm as <-.
    vm_compute in Hd. injection Hd as <-. reflexivity.
  - repeat constructor.
  - reflexivity.
Defined.

(** Without additions the decoded change set has a nil [Add], as the empty
    change set has. *)
Lemma Decode_without_additions
    {mino_Address crypto_PublicKey : Type}
    (ctx_Unmarshal : list byte → ChangeSet * error)
    (ctx_GetFactory : factory_key → serde_Factory mino_Address crypto_PublicKey)
    pkFac addrFac FromText PublicKeyOf data m :
  ctx_GetFactory PubKeyFac = PublicKeyFactory pkFac PublicKeyOf →
  ctx_GetFactory AddrKeyFac = AddressFactory addrFac FromText →
  ctx_Unmarshal data = (m, None) →
  len (Add m) = 0 →
  Decode ctx_Unmarshal ctx_GetFactory data
  = (Some (ChangeSet_Message {| roster_Remove := Remove m; roster_Add := None |}), None).
Proof.
  intros Hpk Haddr Hm Hzero. unfold Decode. rewrite Hm, Hpk, Haddr.
  by rewrite bool_decide_eq_true_2.
Qed.

End JsonProofs.

(** ** Rosters are not mutated in place *)

Module MemProofs.
Import Mem.

Section Arrays.
Context {A : Type}.
Variable zero : A.
Variable spare : nat → nat → nat.
Implicit Types (m : list (list A)) (s : slice).

Lemma preserved_refl m : preserved m m.
Proof. by intros p arr. Qed.

Lemma preserved_trans m0 m1 m2 :
  preserved m0 m1 → preserved m1 m2 → preserved m0 m2.
Proof. intros H01 H12 p arr Hp. by apply H12, H01. Qed.

Lemma preserved_length m0 m : preserved m0 m → length m0 ≤ length m.
Proof.
  intros Hpres. destruct (decide (length m0 = 0)) as [->|Hne]; [lia|].
  destruct (lookup_lt_is_Some_2 m0 (pred (length m0))) as [arr Harr]; [lia|].
  apply Hpres, lookup_lt_Some in Harr. lia.
Qed.

Lemma preserved_app m0 m arr : preserved m0 m → preserved m0 (m ++ [arr]).
Proof.
  intros Hpres p arr' Hp. apply Hpres in Hp.
  rewrite lookup_app_l; [done|by eapply lookup_lt_Some].
Qed.

Lemma preserved_alter m0 m f p :
  length m0 ≤ p → preserved m0 m → preserved m0 (alter f p m).
Proof.
  intros Hfresh Hpres q arr Hq.
  rewrite list_lookup_alter_ne; [by apply Hpres|].
  apply lookup_lt_Some in Hq. lia.
Qed.

Lemma make_preserved m0 m n :
  preserved m0 m →
  preserved m0 (make zero n m).2 ∧ length m0 ≤ ptr (make zero n m).1.
Proof.
  intros Hpres. split; [by apply preserved_app|].
  cbn. by apply preserved_length.
Qed.

Lemma store_preserved m0 m s i x m' :
  length m0 ≤ ptr s → preserved m0 m → store s i x m = Some m' → preserved m0 m'.
Proof.
  intros Hfresh Hpres. unfold store. case_bool_decide; [|done].
  intros [= <-]. by apply preserved_alter.
Qed.

Lemma append_preserved m0 m dst xs :
  length m0 ≤ ptr dst → preserved m0 m →
  preserved m0 (append zero spare dst xs m).2
  ∧ length m0 ≤ ptr (append zero spare dst xs m).1.
Proof.
  intros Hfresh Hpres. unfold append. case_bool_decide; cbn.
  - split; [by apply preserved_alter|done].
  - split; [by apply preserved_app|by apply preserved_length].
Qed.

Lemma remove_preserved m0 m s i s' m' :
  length m0 ≤ ptr s → preserved m0 m →
  remove zero spare s i m = Some (s', m') →
  preserved m0 m' ∧ length m0 ≤ ptr s'.
Proof.
  intros Hfresh Hpres. unfold remove.
  destruct (slice_to s i) as [dst|] eqn:Hdst; [|done].
  destruct (slice_from s (S i)) as [src|]; [|done]. cbn.
  assert (Hptr : ptr dst = ptr s).
  { unfold slice_to in Hdst. case_bool_decide; [|done]. by injection Hdst as <-. }
  intros [= Heq]. rewrite (surjective_pairing (append _ _ _ _ _)) in Heq.
  injection Heq as <- <-. apply append_preserved; [by rewrite Hptr|done].
Qed.

(** A slice of the store shows the same elements in every store that
    preserves it. *)
Lemma contents_preserved m0 m s :
  preserved m0 m → in_store m0 s → contents m s = contents m0 s.
Proof.
  intros Hpres [Hnil|Hin]; unfold contents.
  - by rewrite Hnil.
  - destruct (lookup_lt_is_Some_2 m0 (ptr s) Hin) as [arr Harr].
    by rewrite (Hpres _ _ Harr), Harr.
Qed.

End Arrays.

Lemma state_preserved_refl st : state_preserved st st.
Proof. split; apply preserved_refl. Qed.

(** *** The rules of [keeps] *)

Lemma keeps_ret st0 {R : Type} (r : R) (P : R → Prop) : P r → keeps st0 (ret r) P.
Proof. intros Hr st Hst. split; [done|]. by intros r' [= <-]. Qed.

Lemma keeps_bind st0 {R R' : Type} (c : M R) (k : R → M R')
    (P : R → Prop) (Q : R' → Prop) :
  keeps st0 c P → (∀ r, P r → keeps st0 (k r) Q) → keeps st0 (bind c k) Q.
Proof.
  intros Hc Hk st Hst. unfold bind.
  destruct (Hc st Hst) as [Hst' HP].
  destruct (c st) as [[r|] st']; cbn in *; [|done].
  by apply (Hk r (HP r eq_refl)).
Qed.

Lemma keeps_weaken st0 {R : Type} (c : M R) (P Q : R → Prop) :
  keeps st0 c P → (∀ r, P r → Q r) → keeps st0 c Q.
Proof.
  intros Hc HPQ st Hst. destruct (Hc st Hst) as [Hst' HP].
  split; [done|]. intros r Hr. by apply HPQ, HP.
Qed.

Lemma keeps_for_each st0 {X S : Type} (l : list X) (body : X → S → M S)
    (I : S → Prop) (s : S) :
  I s → (∀ x s, I s → keeps st0 (body x s) I) → keeps st0 (for_each l body s) I.
Proof.
  intros Hs Hbody. revert s Hs. induction l as [|x l IH]; intros s Hs.
  - by apply keeps_ret.
  - cbn. eapply keeps_bind; [by apply Hbody|]. intros s' Hs'. by apply IH.
Qed.

Lemma keeps_on_addrs st0 {R : Type}
    (f : list (list Fake.mino_Address) → option (R * list (list Fake.mino_Address)))
    (P : R → Prop) :
  (∀ m r m', preserved (addr_arrays st0) m → f m = Some (r, m') →
             preserved (addr_arrays st0) m' ∧ P r) →
  keeps st0 (on_addrs f) P.
Proof.
  intros Hf st [Ha Hs]. unfold on_addrs.
  destruct (f (addr_arrays st)) as [[r m']|] eqn:Hfm; cbn; [|done].
  destruct (Hf _ _ _ Ha Hfm) as [Hm' Hr].
  repeat split; [done|done|]. by intros r' [= <-].
Qed.

Lemma keeps_on_signers st0 {R : Type}
    (f : list (list Fake.crypto_AggregateSigner)
         → option (R * list (list Fake.crypto_AggregateSigner)))
    (P : R → Prop) :
  (∀ m r m', preserved (signer_arrays st0) m → f m = Some (r, m') →
             preserved (signer_arrays st0) m' ∧ P r) →
  keeps st0 (on_signers f) P.
Proof.
  intros Hf st [Ha Hs]. unfold on_signers.
  destruct (f (signer_arrays st)) as [[r m']|] eqn:Hfm; cbn; [|done].
  destruct (Hf _ _ _ Hs Hfm) as [Hm' Hr].
  repeat split; [done|done|]. by intros r' [= <-].
Qed.

Lemma keeps_Call_Add st0 c args : keeps st0 (Call_Add c args) (λ _, True).
Proof. intros st Hst. unfold Call_Add. by destruct c. Qed.

Lemma keeps_copy_player st0 ca newCA i k :
  fresh_in st0 newCA → keeps st0 (copy_player ca newCA i k) (λ _, True).
Proof.
  intros [Ha Hs]. unfold copy_player.
  eapply keeps_bind with (P := λ _, True).
  - apply keeps_on_addrs. intros m r m' Hm Hf. split; [|done].
    destruct k as [k|]; [|done]. cbn in Hf.
    destruct (load m (addrs ca) k) as [a|]; [|done]. cbn in Hf.
    destruct (store (addrs newCA) i a m) as [m1|] eqn:Hstore; [|done].
    injection Hf as _ <-. by eapply store_preserved.
  - intros _ _. apply keeps_on_signers. intros m r m' Hm Hf. split; [|done].
    destruct k as [k|]; [|done]. cbn in Hf.
    destruct (load m (signers ca) k) as [a|]; [|done]. cbn in Hf.
    destruct (store (signers newCA) i a m) as [m1|] eqn:Hstore; [|done].
    injection Hf as _ <-. by eapply store_preserved.
Qed.

(** A fact on the pair that an array operation returned. *)
Ltac from_pair Heq :=
  match type of Heq with
  | ?op = (?r, ?m') =>
      change r with (r, m').1; change m' with (r, m').2 at 1;
      rewrite <- Heq
  end.

(** [Apply] writes only to arrays that it allocates, whether it returns or
    panics, and the roster that it returns lies in such arrays. *)
Lemma Apply_keeps st0 spare ca cs : keeps st0 (Apply spare ca cs) (fresh_in st0).
Proof.
  unfold Apply.
  eapply keeps_bind with (P := λ _, True).
  { destruct (Call ca); [apply keeps_Call_Add|by apply keeps_ret]. }
  intros _ _.
  eapply keeps_bind with (P := λ na, length (addr_arrays st0) ≤ ptr na).
  { apply keeps_on_addrs. intros m r m' Hm [= <- <-]. by apply make_preserved. }
  intros na Hna.
  eapply keeps_bind with (P := λ ns, length (signer_arrays st0) ≤ ptr ns).
  { apply keeps_on_signers. intros m r m' Hm [= <- <-]. by apply make_preserved. }
  intros ns Hns.
  eapply keeps_bind with (P := λ _, True).
  { apply keeps_for_each; [done|]. intros i _ _. by apply keeps_copy_player. }
  intros _ _.
  eapply keeps_bind with (P := fresh_in st0).
  { apply keeps_for_each; [by split|]. intros player newAuthority [Ha Hs].
    eapply keeps_bind with (P := λ a', length (addr_arrays st0) ≤ ptr a').
    { apply keeps_on_addrs. intros m r m' Hm [= Heq]. from_pair Heq. by apply append_preserved. }
    intros addrs' Haddrs'.
    eapply keeps_bind with (P := λ s', length (signer_arrays st0) ≤ ptr s').
    { apply keeps_on_signers. intros m r m' Hm [= Heq]. from_pair Heq. by apply append_preserved. }
    intros signers' Hsigners'. by apply keeps_ret. }
  intros newAuthority Hnew.
  apply keeps_for_each; [done|]. intros i nA [Ha Hs].
  eapply keeps_bind with (P := λ a', length (addr_arrays st0) ≤ ptr a').
  { apply keeps_on_addrs. intros m r m' Hm Hrm. by eapply remove_preserved. }
  intros addrs' Haddrs'.
  eapply keeps_bind with (P := λ s', length (signer_arrays st0) ≤ ptr s').
  { apply keeps_on_signers. intros m r m' Hm Hrm. by eapply remove_preserved. }
  intros signers' Hsigners'. by apply keeps_ret.
Qed.

(** The same for [Take]. *)
Lemma Take_keeps st0 ca Indices : keeps st0 (Take ca Indices) (fresh_in st0).
Proof.
  unfold Take.
  eapply keeps_bind with (P := λ na, length (addr_arrays st0) ≤ ptr na).
  { apply keeps_on_addrs. intros m r m' Hm [= <- <-]. by apply make_preserved. }
  intros na Hna.
  eapply keeps_bind with (P := λ ns, length (signer_arrays st0) ≤ ptr ns).
  { apply keeps_on_signers. intros m r m' Hm [= <- <-]. by apply make_preserved. }
  intros ns Hns.
  eapply keeps_bind with (P := λ _, True).
  { apply keeps_for_each; [done|]. intros [i k] _ _. by apply keeps_copy_player. }
  intros _ _. by apply keeps_ret.
Qed.

(** What an allocated authority holds is the same in every memory that
    preserves the arrays. *)
Lemma view_preserved st0 st ca :
  state_preserved st0 st → allocated st0 ca → view st ca = view st0 ca.
Proof.
  intros [Ha Hs] [Hina Hins]. unfold view.
  by rewrite (contents_preserved _ _ _ Ha Hina), (contents_preserved _ _ _ Hs Hins).
Qed.

End MemProofs.

(** ** The memory-level authority refines the value-level one *)

Module RefinementProofs.
Import Mem MemProofs.

Section Arrays.
Context {A : Type}.
Variable zero : A.
Variable spare : nat → nat → nat.
Implicit Types (m : list (list A)) (s : slice) (l xs : list A).

Lemma load_contents m s i : load m s i = contents m s !! i.
Proof.
  unfold load, contents. case_bool_decide as Hi.
  - rewrite lookup_take_lt, lookup_drop by done. by destruct (m !! ptr s).
  - symmetry. apply lookup_ge_None_2. rewrite length_take. lia.
Qed.

Lemma contents_length m s : valid m s → length (contents m s) = len s.
Proof.
  intros [Hlen Hcap]. unfold contents. rewrite length_take, length_drop. lia.
Qed.

Lemma valid_in_store m s : valid m s → in_store m s.
Proof.
  intros [Hlen Hcap]. destruct (decide (len s = 0)) as [?|Hne]; [by left|right].
  destruct (m !! ptr s) as [arr|] eqn:Harr; [by eapply lookup_lt_Some|].
  cbn in Hcap. lia.
Qed.

Lemma valid_preserved m0 m s : preserved m0 m → valid m0 s → valid m s.
Proof.
  intros Hpres [Hlen Hcap]. split; [done|].
  destruct (m0 !! ptr s) as [arr|] eqn:Harr.
  - by rewrite (Hpres _ _ Harr).
  - cbn in Hcap. lia.
Qed.

(** An update of one array that keeps its length keeps every slice valid. *)
Lemma valid_alter m s f p :
  (∀ arr, length (f arr) = length arr) → valid m s → valid (alter f p m) s.
Proof.
  intros Hf [Hlen Hcap]. split; [done|].
  destruct (decide (p = ptr s)) as [->|Hne].
  - rewrite list_lookup_alter_eq. destruct (m !! ptr s); cbn in *; [|done].
    by rewrite Hf.
  - by rewrite list_lookup_alter_ne.
Qed.

Lemma contents_alter m s f :
  valid m s → 0 < cap s →
  contents (alter f (ptr s) m) s
  = take (len s) (drop (off s) (f (default [] (m !! ptr s)))).
Proof.
  intros [Hlen Hcap] Hpos. unfold contents. rewrite list_lookup_alter_eq.
  destruct (m !! ptr s); cbn in *; [done|lia].
Qed.

Lemma make_spec n m :
  contents (make zero n m).2 (make zero n m).1 = replicate n zero
  ∧ valid (make zero n m).2 (make zero n m).1.
Proof.
  unfold make, contents, valid. cbn.
  rewrite lookup_app_r, Nat.sub_diag by done. cbn.
  rewrite length_replicate. split; [|lia].
  apply take_ge. by rewrite length_replicate.
Qed.

Lemma store_spec m s i x :
  valid m s →
  match Fake.store_at (contents m s) i x with
  | Some l' => ∃ m', store s i x m = Some m' ∧ contents m' s = l' ∧ valid m' s
  | None => store s i x m = None
  end.
Proof.
  intros Hvalid. unfold Fake.store_at, store.
  rewrite (contents_length _ _ Hvalid).
  case_bool_decide as Hi; [|done].
  eexists. split; [reflexivity|]. split.
  - destruct Hvalid as [Hlen Hcap].
    rewrite contents_alter by (done || lia). unfold contents.
    rewrite drop_insert_ge by lia. rewrite take_insert_lt by lia.
    do 2 f_equal. lia.
  - apply valid_alter; [|done]. intros arr. apply length_insert.
Qed.

Lemma list_inserts_window l xs o n :
  o + n + length xs ≤ length l →
  take (n + length xs) (drop o (list_inserts (o + n) xs l))
  = take n (drop o l) ++ xs.
Proof.
  intros Hlen. apply list_eq. intros i.
  destruct (decide (i < n + length xs)) as [Hi|Hi].
  - rewrite lookup_take_lt, lookup_drop by done.
    destruct (decide (i < n)) as [Hin|Hin].
    + rewrite list_lookup_inserts_lt by lia.
      rewrite lookup_app_l by (rewrite length_take, length_drop; lia).
      by rewrite lookup_take_lt, lookup_drop.
    + rewrite list_lookup_inserts by lia.
      rewrite lookup_app_r by (rewrite length_take, length_drop; lia).
      rewrite length_take, length_drop. f_equal. lia.
  - rewrite !lookup_ge_None_2; [done| |].
    + rewrite length_app, length_take, length_drop. lia.
    + rewrite length_take, length_drop, length_inserts. lia.
Qed.

Lemma append_spec m dst xs :
  valid m dst →
  contents (append zero spare dst xs m).2 (append zero spare dst xs m).1
  = contents m dst ++ xs
  ∧ valid (append zero spare dst xs m).2 (append zero spare dst xs m).1.
Proof.
  intros Hvalid. pose proof Hvalid as [Hlen Hcap]. unfold append.
  case_bool_decide as Hfit; cbn [fst snd].
  - destruct (decide (length xs = 0)) as [Hnil|Hne].
    + apply nil_length_inv in Hnil as ->.
      rewrite Nat.add_0_r, app_nil_r.
      rewrite list_alter_id by done. split; [|done].
      unfold contents. by cbn.
    + split.
      * set (s' := {| ptr := ptr dst; off := off dst;
                      len := len dst + length xs; cap := cap dst |}).
        rewrite (contents_alter m s') by (split || cbn; cbn; lia).
        cbn [len off ptr s']. rewrite list_inserts_window; [done|lia].
      * apply (valid_alter m _ _ (ptr dst)).
        -- intros arr. apply length_inserts.
        -- split; cbn; [lia|done].
  - unfold contents, valid. cbn.
    rewrite lookup_app_r, Nat.sub_diag by done. cbn. split.
    + rewrite drop_0, app_assoc. rewrite take_app_length'; [done|].
      rewrite length_app. f_equal. symmetry. apply (contents_length m dst Hvalid).
    + rewrite !length_app, length_replicate.
      pose proof (contents_length m dst Hvalid) as Hc. unfold contents in Hc.
      rewrite Hc. lia.
Qed.

Lemma remove_spec m s i :
  valid m s →
  match Fake.remove_at (contents m s) i with
  | Some l' =>
      ∃ s' m', remove zero spare s i m = Some (s', m')
               ∧ contents m' s' = l' ∧ valid m' s'
  | None => remove zero spare s i m = None
  end.
Proof.
  intros Hvalid. pose proof Hvalid as [Hlen Hcap].
  unfold Fake.remove_at, remove, slice_to, slice_from.
  rewrite (contents_length _ _ Hvalid).
  case_bool_decide as Hi.
  - rewrite !bool_decide_eq_true_2 by lia. cbn.
    set (dst := {| ptr := ptr s; off := off s; len := i; cap := cap s |}).
    set (src := {| ptr := ptr s; off := off s + S i;
                   len := len s - S i; cap := cap s - S i |}).
    assert (Hdst : valid m dst) by (split; cbn; [lia|done]).
    destruct (append_spec m dst (contents m src) Hdst) as [Hc Hv].
    exists (append zero spare dst (contents m src) m).1,
           (append zero spare dst (contents m src) m).2.
    split; [by rewrite <- surjective_pairing|].
    split; [|done]. rewrite Hc. unfold contents. cbn [len off ptr dst src].
    rewrite take_take, Nat.min_l by lia. f_equal.
    rewrite <- drop_drop, take_drop_commute.
    by replace (S i + (len s - S i)) with (len s) by lia.
  - rewrite (bool_decide_eq_false_2 (S i ≤ len s)) by lia.
    by destruct (bool_decide (i ≤ cap s)).
Qed.

End Arrays.

(** *** The rules of [sim] *)

Lemma sim_ret {R Rf : Type} (r : R) (rf : Rf) st (rel : R → state → Rf → Prop) :
  rel r st rf → sim (ret r) (Some rf) st rel.
Proof. intros Hrel. by exists r. Qed.

Lemma sim_bind {R R' Rf Rf' : Type} (c : M R) (k : R → M R')
    (cf : option Rf) (kf : Rf → option Rf') st
    (rel : R → state → Rf → Prop) (rel' : R' → state → Rf' → Prop) :
  sim c cf st rel →
  (∀ r st' rf, rel r st' rf → sim (k r) (kf rf) st' rel') →
  sim (bind c k) (cf ≫= kf) st rel'.
Proof.
  intros Hc Hk. unfold sim, bind in *. destruct cf as [rf|]; cbn.
  - destruct Hc as (r & Hr & Hrel). destruct (c st) as [[r0|] st']; [|done].
    cbn in *. injection Hr as ->. apply (Hk r st' rf Hrel).
  - destruct (c st) as [[r0|] st']; [done|]. reflexivity.
Qed.

Lemma sim_for_each {X S Sf : Type} (l : list X) (body : X → S → M S)
    (bodyf : X → Sf → option Sf) (Inv : S → state → Sf → Prop) s sf st :
  (∀ x s st sf, Inv s st sf → sim (body x s) (bodyf x sf) st Inv) →
  Inv s st sf →
  sim (for_each l body s) (Fake.for_each l bodyf sf) st Inv.
Proof.
  intros Hbody. revert s sf st. induction l as [|x l IH]; intros s sf st Hinv.
  - by apply sim_ret.
  - cbn [for_each Fake.for_each]. eapply sim_bind; [by apply Hbody|].
    intros s' st' sf' Hinv'. by apply IH.
Qed.

Lemma on_addrs_Some {R : Type} f st (r : R) m' :
  f (addr_arrays st) = Some (r, m') →
  on_addrs f st
  = (Some r, {| addr_arrays := m'; signer_arrays := signer_arrays st;
                call_logs := call_logs st |}).
Proof. intros Hf. unfold on_addrs. by rewrite Hf. Qed.

Lemma on_addrs_None {R : Type} (f : _ → option (R * _)) st :
  f (addr_arrays st) = None → on_addrs f st = (None, st).
Proof. intros Hf. unfold on_addrs. by rewrite Hf. Qed.

Lemma on_signers_Some {R : Type} f st (r : R) m' :
  f (signer_arrays st) = Some (r, m') →
  on_signers f st
  = (Some r, {| addr_arrays := addr_arrays st; signer_arrays := m';
                call_logs := call_logs st |}).
Proof. intros Hf. unfold on_signers. by rewrite Hf. Qed.

Lemma on_signers_None {R : Type} (f : _ → option (R * _)) st :
  f (signer_arrays st) = None → on_signers f st = (None, st).
Proof. intros Hf. unfold on_signers. by rewrite Hf. Qed.

(** *** The loops of [Apply] *)

Ltac simpl_state :=
  cbn [addrs signers addr_arrays signer_arrays call_logs Call fst snd
       Fake.addrs Fake.signers Fake.Call] in *.

Section Loops.
Variable spare : nat → nat → nat.
Variable st0 : state.

(** One round of the loop over [cs.Add]. *)
Lemma add_player_sim (player : Fake.Player) newCA st newCAf :
  loop_rel st0 newCA st newCAf →
  sim (bind (on_addrs (λ m, Some (append None spare (addrs newCA)
                                    [Fake.Player_Address player] m))) (λ addrs',
       bind (on_signers (λ m, Some (append None spare (signers newCA)
                                      [Some (Fake.signerWrapper
                                               (Fake.Player_PublicKey player))] m)))
         (λ signers',
       ret {| Call := Call newCA; addrs := addrs'; signers := signers' |})))
      (Some {| Fake.Call := Fake.Call newCAf;
               Fake.addrs := Fake.addrs newCAf ++ [Fake.Player_Address player];
               Fake.signers := Fake.signers newCAf
                 ++ [Some (Fake.signerWrapper (Fake.Player_PublicKey player))] |})
      st (loop_rel st0).
Proof.
  intros ([Hpa Hps] & [Hfa Hfs] & [Hva Hvs] & <-).
  destruct (append_spec None spare (addr_arrays st) (addrs newCA)
              [Fake.Player_Address player] Hva) as [Hca Hva'].
  destruct (append_preserved None spare _ _ (addrs newCA)
              [Fake.Player_Address player] Hfa Hpa) as [Hpa' Hfa'].
  destruct (append_spec None spare (signer_arrays st) (signers newCA)
              [Some (Fake.signerWrapper (Fake.Player_PublicKey player))] Hvs)
    as [Hcs Hvs'].
  destruct (append_preserved None spare _ _ (signers newCA)
              [Some (Fake.signerWrapper (Fake.Player_PublicKey player))] Hfs Hps)
    as [Hps' Hfs'].
  destruct (append None spare (addrs newCA) _ (addr_arrays st)) as [a' ma'] eqn:Ea.
  destruct (append None spare (signers newCA) _ (signer_arrays st)) as [s' ms'] eqn:Es.
  unfold sim, bind.
  rewrite (on_addrs_Some _ st a' ma') by (by rewrite Ea).
  rewrite (on_signers_Some _ _ s' ms') by (cbn; by rewrite Es).
  unfold ret. simpl_state. eexists. split; [reflexivity|].
  split; [by split|]. split; [by split|]. split; [by split|].
  unfold view. simpl_state. by rewrite Hca, Hcs.
Qed.

(** One round of the loop over [cs.Remove]. *)
Lemma remove_index_sim (i : nat) newCA st newCAf :
  loop_rel st0 newCA st newCAf →
  sim (bind (on_addrs (remove None spare (addrs newCA) i)) (λ addrs',
       bind (on_signers (remove None spare (signers newCA) i)) (λ signers',
       ret {| Call := Call newCA; addrs := addrs'; signers := signers' |})))
      (addrs' ← Fake.remove_at (Fake.addrs newCAf) i;
       signers' ← Fake.remove_at (Fake.signers newCAf) i;
       Some {| Fake.Call := Fake.Call newCAf; Fake.addrs := addrs';
               Fake.signers := signers' |})
      st (loop_rel st0).
Proof.
  intros ([Hpa Hps] & [Hfa Hfs] & [Hva Hvs] & <-).
  pose proof (remove_spec None spare (addr_arrays st) (addrs newCA) i Hva) as Ha.
  pose proof (remove_spec None spare (signer_arrays st) (signers newCA) i Hvs) as Hs.
  unfold sim, bind. cbn [view Fake.addrs Fake.signers Fake.Call].
  destruct (Fake.remove_at (contents (addr_arrays st) (addrs newCA)) i) as [la|].
  - destruct Ha as (a' & ma' & Ea & Hca & Hva').
    destruct (remove_preserved None spare _ _ _ _ _ _ Hfa Hpa Ea) as [Hpa' Hfa'].
    rewrite (on_addrs_Some _ st a' ma') by done. cbn [mbind option_bind].
    destruct (Fake.remove_at (contents (signer_arrays st) (signers newCA)) i) as [ls|].
    + destruct Hs as (s' & ms' & Es & Hcs & Hvs').
      destruct (remove_preserved None spare _ _ _ _ _ _ Hfs Hps Es) as [Hps' Hfs'].
      rewrite (on_signers_Some _ _ s' ms') by done.
      unfold ret. simpl_state. eexists. split; [reflexivity|].
      split; [by split|]. split; [by split|]. split; [by split|].
      unfold view. simpl_state. by rewrite Hca, Hcs.
    + by rewrite on_signers_None.
  - by rewrite on_addrs_None.
Qed.

(** One round of a copy loop: element [k] of the receiver goes to position
    [i] of the new authority. *)
Lemma copy_player_sim ca caf newCA (i : nat) (k : option nat) st newCAf :
  valid_authority st0 ca → view st0 ca = caf →
  loop_rel st0 newCA st newCAf →
  sim (copy_player ca newCA i k)
      (a ← (k ≫= λ k, Fake.addrs caf !! k);
       addrs' ← Fake.store_at (Fake.addrs newCAf) i a;
       s ← (k ≫= λ k, Fake.signers caf !! k);
       signers' ← Fake.store_at (Fake.signers newCAf) i s;
       Some {| Fake.Call := Fake.Call newCAf; Fake.addrs := addrs';
               Fake.signers := signers' |})
      st (λ _, loop_rel st0 newCA).
Proof.
  intros [Hca Hcs] <- ([Hpa Hps] & [Hfa Hfs] & [Hva Hvs] & <-).
  unfold sim, copy_player, bind. cbn [view Fake.addrs Fake.signers Fake.Call].
  destruct k as [k|]; cbn [mbind option_bind]; [|by rewrite on_addrs_None].
  rewrite <- (contents_preserved _ _ _ Hpa (valid_in_store _ _ Hca)).
  rewrite <- (contents_preserved _ _ _ Hps (valid_in_store _ _ Hcs)).
  rewrite <- !load_contents.
  destruct (load (addr_arrays st) (addrs ca) k) as [a|] eqn:Ela; cbn [mbind option_bind];
    [|by rewrite on_addrs_None by (by rewrite Ela)].
  pose proof (store_spec (addr_arrays st) (addrs newCA) i a Hva) as Ha.
  destruct (Fake.store_at (contents (addr_arrays st) (addrs newCA)) i a) as [la|];
    cbn [mbind option_bind].
  - destruct Ha as (ma' & Ea & Hca' & Hva').
    rewrite (on_addrs_Some _ st () ma') by (by rewrite Ela; cbn; rewrite Ea).
    cbn [fst snd signer_arrays].
    destruct (load (signer_arrays st) (signers ca) k) as [s|] eqn:Els;
      cbn [mbind option_bind];
      [|by rewrite on_signers_None by (cbn; by rewrite Els)].
    pose proof (store_spec (signer_arrays st) (signers newCA) i s Hvs) as Hs.
    destruct (Fake.store_at (contents (signer_arrays st) (signers newCA)) i s) as [ls|].
    + destruct Hs as (ms' & Es & Hcs' & Hvs').
      rewrite (on_signers_Some _ _ () ms') by (cbn; by rewrite Els; cbn; rewrite Es).
      simpl_state. exists (). split; [reflexivity|].
      split; [split; by eapply store_preserved|].
      split; [by split|]. split; [by split|].
      unfold view. simpl_state. by rewrite Hca', Hcs'.
    + by rewrite on_signers_None by (cbn; by rewrite Els; cbn; rewrite Hs).
  - by rewrite on_addrs_None by (by rewrite Ela; cbn; rewrite Ha).
Qed.

End Loops.

Lemma sim_bind_run {R R' Rf' : Type} (c : M R) (k : R → M R')
    (cf : option Rf') st r st' (rel : R' → state → Rf' → Prop) :
  c st = (Some r, st') → sim (k r) cf st' rel → sim (bind c k) cf st rel.
Proof. intros Hc Hk. unfold sim, bind in *. by rewrite Hc. Qed.

Lemma sim_weaken {R Rf : Type} (c : M R) (cf : option Rf) st
    (rel rel' : R → state → Rf → Prop) :
  sim c cf st rel → (∀ r st' rf, rel r st' rf → rel' r st' rf) → sim c cf st rel'.
Proof.
  intros Hc Hrel. unfold sim in *. destruct cf as [rf|]; [|done].
  destruct Hc as (r & Hr & Hc). exists r. split; [done|by apply Hrel].
Qed.

Lemma sim_then_ret {R R' Rf : Type} (c : M R) (r' : R') (cf : option Rf) st
    (rel : R → state → Rf → Prop) (rel' : R' → state → Rf → Prop) :
  sim c cf st rel →
  (∀ r st' rf, rel r st' rf → rel' r' st' rf) →
  sim (bind c (λ _, ret r')) cf st rel'.
Proof.
  intros Hc Hrel. unfold sim, bind, ret in *. destruct cf as [rf|].
  - destruct Hc as (r & Hr & Hc). destruct (c st) as [[r0|] st']; [|done].
    cbn in *. exists r'. split; [done|]. by eapply Hrel.
  - by destruct (c st) as [[r0|] st'].
Qed.

(** The new authority right after the two calls of [make]. *)
Lemma made_loop_rel st st1 (ca : CollectiveAuthority) (na ns : nat) call :
  addr_arrays st1 = addr_arrays st →
  signer_arrays st1 = signer_arrays st →
  loop_rel st
    {| Call := call; addrs := (make None na (addr_arrays st1)).1;
       signers := (make None ns (signer_arrays st1)).1 |}
    {| addr_arrays := (make None na (addr_arrays st1)).2;
       signer_arrays := (make None ns (signer_arrays st1)).2;
       call_logs := call_logs st1 |}
    {| Fake.Call := call; Fake.addrs := replicate na None;
       Fake.signers := replicate ns None |}.
Proof.
  intros Ea Es. rewrite Ea, Es.
  destruct (make_spec None na (addr_arrays st)) as [Hca Hva].
  destruct (make_spec None ns (signer_arrays st)) as [Hcs Hvs].
  split; [|split; [|split]].
  - split; apply preserved_app, preserved_refl.
  - split; cbn; lia.
  - by split.
  - unfold view. simpl_state. by rewrite Hca, Hcs.
Qed.

(** [Apply] in memory does what [Apply] on values says: it panics exactly
    when the value-level [Apply] panics, and the roster that it returns
    shows the value-level result. *)
Theorem Apply_refines spare (ca : CollectiveAuthority) (cs : Fake.ChangeSet) st :
  valid_authority st ca →
  sim (Apply spare ca cs) (Fake.Apply (view st ca) cs) st
      (λ ca' st' r, view st' ca' = r ∧ valid_authority st' ca' ∧ fresh_in st ca').
Proof.
  intros Hvalid. pose proof Hvalid as [Hva Hvs].
  unfold Apply, Fake.Apply, Fake.for_range.
  set (st1 := (match Call ca with
               | Some _ => Call_Add (Call ca) [arg_string "apply"; arg_ChangeSet cs]
               | None => ret ()
               end st).2).
  assert (Ha1 : addr_arrays st1 = addr_arrays st) by (subst st1; by destruct (Call ca)).
  assert (Hs1 : signer_arrays st1 = signer_arrays st) by (subst st1; by destruct (Call ca)).
  eapply (sim_bind_run _ _ _ st () st1); [subst st1; by destruct (Call ca)|].
  eapply sim_bind_run; [reflexivity|].
  eapply sim_bind_run; [reflexivity|].
  cbn [view Fake.addrs Fake.signers Fake.Call].
  rewrite (contents_length _ _ Hva), (contents_length _ _ Hvs).
  pose proof (made_loop_rel st st1 ca (len (addrs ca)) (len (signers ca)) (Call ca)
                Ha1 Hs1) as Hinit.
  eapply sim_weaken.
  - eapply sim_bind with (rel := λ _, loop_rel st _).
    + apply (sim_for_each _ _ _ (λ _, loop_rel st _)); [|exact Hinit].
      intros i [] st' sf Hrel.
      apply (copy_player_sim st ca (view st ca) _ i (Some i)); done.
    + intros _ st' newCAf Hrel.
      eapply sim_bind with (rel := loop_rel st).
      * apply (sim_for_each _ _ _ (loop_rel st)); [|exact Hrel].
        intros player newCA st'' sf Hrel'. by apply add_player_sim.
      * intros newCA st'' sf Hrel'.
        apply (sim_for_each _ _ _ (loop_rel st)); [|exact Hrel'].
        intros i newCA' st3 sf' Hrel3. by apply remove_index_sim.
  - intros ca' st' r (_ & Hfresh & Hv & Hview). done.
Qed.

Lemma index_Z_nat_index {A : Type} (l : list A) (k : Z) :
  Fake.index_Z l k = nat_index k ≫= λ k, l !! k.
Proof. unfold Fake.index_Z, nat_index. by case_bool_decide. Qed.

(** The same for [Take]. *)
Theorem Take_refines (ca : CollectiveAuthority) (Indices : list Z) st :
  valid_authority st ca →
  sim (Take ca Indices) (Fake.Take (view st ca) Indices) st
      (λ ca' st' r, view st' ca' = r ∧ valid_authority st' ca' ∧ fresh_in st ca').
Proof.
  intros Hvalid. unfold Take, Fake.Take.
  eapply sim_bind_run; [reflexivity|].
  eapply sim_bind_run; [reflexivity|].
  pose proof (made_loop_rel st st ca (length Indices) (length Indices) (Call ca)
                eq_refl eq_refl) as Hinit.
  eapply sim_then_ret with (rel := λ _, loop_rel st _).
  - apply (sim_for_each _ _ _ (λ _, loop_rel st _)); [|exact Hinit].
    intros [i k] [] st' sf Hrel. rewrite !index_Z_nat_index.
    apply (copy_player_sim st ca (view st ca) _ i (nat_index k)); done.
  - intros _ st' newCAf (_ & Hfresh & Hv & Hview). done.
Qed.

End RefinementProofs.

(** ** Rosters are values *)

Module FrameProofs.
Import Mem MemProofs RefinementProofs.

(** C7: a roster is not mutated in place.  Whatever the change set or the
    indices, and whether the call returns or panics, [Apply] and [Take] leave
    every array of the memory as it was, so the receiver holds the same
    addresses and signers, in the same number, after the call.  The call
    returns exactly when the value-level function does, and the roster that
    it returns lies in arrays allocated by the call and shows the value-level
    result. *)
Theorem roster_not_mutated spare (ca : CollectiveAuthority) (st : state) :
  valid_authority st ca →
  (∀ cs,
     let after := (Apply spare ca cs st).2 in
     state_preserved st after
     ∧ view after ca = view st ca
     ∧ sim (Apply spare ca cs) (Fake.Apply (view st ca) cs) st
           (λ ca' st' r, view st' ca' = r ∧ fresh_in st ca'))
  ∧ (∀ Indices,
       let after := (Take ca Indices st).2 in
       state_preserved st after
       ∧ view after ca = view st ca
       ∧ sim (Take ca Indices) (Fake.Take (view st ca) Indices) st
             (λ ca' st' r, view st' ca' = r ∧ fresh_in st ca')).
Proof.
  intros Hvalid.
  assert (Halloc : allocated st ca).
  { destruct Hvalid as [Hva Hvs]. split; by apply valid_in_store. }
  split.
  - intros cs after.
    destruct (Apply_keeps st spare ca cs st (state_preserved_refl st)) as [Hst _].
    split; [done|]. split; [by apply view_preserved|].
    eapply sim_weaken; [by apply Apply_refines|]. by intros ca' st' r (? & _ & ?).
  - intros Indices after.
    destruct (Take_keeps st ca Indices st (state_preserved_refl st)) as [Hst _].
    split; [done|]. split; [by apply view_preserved|].
    eapply sim_weaken; [by apply Take_refines|]. by intros ca' st' r (? & _ & ?).
Qed.

Lemma roster_not_mutated_witness :
  (∀ cs,
     let after := (Apply sample_spare sample_authority cs sample_state).2 in
     state_preserved sample_state after
     ∧ view after sample_authority = view sample_state sample_authority
     ∧ sim (Apply sample_spare sample_authority cs)
           (Fake.Apply (view sample_state sample_authority) cs) sample_state
           (λ ca' st' r, view st' ca' = r ∧ fresh_in sample_state ca'))
  ∧ (∀ Indices,
       let after := (Take sample_authority Indices sample_state).2 in
       state_preserved sample_state after
       ∧ view after sample_authority = view sample_state sample_authority
       ∧ sim (Take sample_authority Indices)
             (Fake.Take (view sample_state sample_authority) Indices) sample_state
             (λ ca' st' r, view st' ca' = r ∧ fresh_in sample_state ca')).
Proof.
  apply (roster_not_mutated sample_spare sample_authority sample_state).
  split; split; cbn; lia.
Defined.

(** A run on the sample memory: one player leaves, one joins; the new roster
    lies in new arrays and the call is recorded in the log of the receiver. *)
Lemma Apply_sample_run :
  let cs := {| Fake.Remove := [1];
               Fake.Add := [{| Fake.Player_Address := Some (Fake.NewAddress 7);
                               Fake.Player_PublicKey := None |}] |} in
  let run := Apply sample_spare sample_authority cs sample_state in
  (Fake.addrs <$> (view run.2 <$> run.1))
    = Some [Some (Fake.NewAddress 0); Some (Fake.NewAddress 2); Some (Fake.NewAddress 7)]
  ∧ Fake.addrs (view run.2 sample_authority) = Fake.addrs Fake.authority3
  ∧ call_logs run.2 = [[[arg_string "apply"; arg_ChangeSet cs]]].
Proof. repeat split. Qed.

End FrameProofs.

(** ** The invariant of rosters *)

Module InvariantProofs.
Import Fake ApplyProofs.

(** [NewAuthority(3, NewSigner)] is the authority of three members. *)
Lemma NewAuthority_three : NewAuthority 3 NewSigner = Some authority3.
Proof. reflexivity. Qed.

(** [make] of [n] interface values returns exactly for [0 <= n <= 2^44]. *)
Lemma makeslice_interface (n : Z) :
  makeslice_panics interface_size n = false ↔ (0 ≤ n ≤ 2 ^ 44)%Z.
Proof.
  unfold makeslice_panics, maxAlloc, interface_size.
  rewrite bool_decide_eq_false.
  change (2 ^ 48)%Z with 281474976710656%Z.
  change (2 ^ 44)%Z with 17592186044416%Z. lia.
Qed.

Lemma NewAuthorityWithBase_panics (base n : Z) (g : GenSigner) :
  (n < 0 ∨ 2 ^ 44 < n)%Z → NewAuthorityWithBase base n g = None.
Proof.
  intros Hn. unfold NewAuthorityWithBase.
  destruct (makeslice_panics interface_size n) eqn:Hmake; [done|].
  apply makeslice_interface in Hmake. lia.
Qed.

Lemma NewAuthorityWithBase_well_formed (base n : Z) (g : GenSigner) :
  (0 ≤ n ≤ 2 ^ 44)%Z → is_Some (g ()) →
  ∃ ca, NewAuthorityWithBase base n g = Some ca
        ∧ well_formed ca ∧ Len ca = n.
Proof.
  intros Hn Hg. unfold NewAuthorityWithBase.
  rewrite (proj2 (makeslice_interface n) Hn). eexists. split; [reflexivity|].
  unfold well_formed, Len. cbn. rewrite !length_fmap, !length_seq.
  split; [split; [done|]|lia].
  split; apply Forall_fmap, Forall_forall; intros i _; cbn; [by eexists|done].
Qed.

Lemma remove_at_Forall {A : Type} (P : A → Prop) (l l' : list A) i :
  remove_at l i = Some l' → Forall P l → Forall P l'.
Proof.
  unfold remove_at. case_bool_decide; [|done]. intros [= <-] Hl.
  apply Forall_app. split; [by apply Forall_take|by apply Forall_drop].
Qed.

Lemma remove_all_Forall {A : Type} (P : A → Prop) R (l l' : list A) :
  remove_all R l = Some l' → Forall P l → Forall P l'.
Proof.
  revert l. induction R as [|r R IH]; intros l; [by intros [= <-]|].
  rewrite remove_all_cons. destruct (remove_at l r) as [l1|] eqn:H1; [|done].
  cbn. intros Hrest Hl. eapply IH; [done|]. by eapply remove_at_Forall.
Qed.

(** [Apply] keeps a roster well formed when the added players have an
    address. *)
Lemma Apply_well_formed (ca r : CollectiveAuthority) (cs : ChangeSet) :
  well_formed ca →
  Forall (λ p, is_Some (Player_Address p)) (Add cs) →
  Apply ca cs = Some r →
  well_formed r.
Proof.
  intros (Hlen & Ha & Hs) Hadd. rewrite Apply_unfold by done.
  destruct (remove_all (Remove cs) (addrs ca ++ _)) as [a'|] eqn:Ea; [|done].
  destruct (remove_all (Remove cs) (signers ca ++ _)) as [s'|] eqn:Es; [|done].
  cbn. intros [= <-]. unfold well_formed. cbn.
  pose proof (remove_all_length _ _ _ Ea) as Hla.
  pose proof (remove_all_length _ _ _ Es) as Hls.
  rewrite length_app, length_fmap in Hla. rewrite length_app, length_fmap in Hls.
  split; [lia|]. split.
  - eapply remove_all_Forall; [exact Ea|]. apply Forall_app. split; [done|].
    by apply Forall_fmap.
  - eapply remove_all_Forall; [exact Es|]. apply Forall_app. split; [done|].
    apply Forall_fmap, Forall_forall. intros p _. cbn. by eexists.
Qed.

Lemma store_at_fill {A : Type} (filled : list A) (z x : A) (i n : nat) :
  length filled = i →
  store_at (filled ++ replicate (S n) z) i x
  = Some ((filled ++ [x]) ++ replicate n z).
Proof.
  intros <-. unfold store_at.
  rewrite bool_decide_eq_true_2 by (rewrite length_app; cbn; lia).
  rewrite insert_app_r_alt, Nat.sub_diag by done. cbn.
  by rewrite <- app_assoc.
Qed.

(** The loop of [Take], with [da] and [ds] the players copied so far. *)
Lemma Take_loop (ca : CollectiveAuthority) (ks : list Z) (i : nat)
    (da : list mino_Address) (ds : list crypto_AggregateSigner) :
  length da = i → length ds = i →
  for_each (zip (seq i (length ks)) ks)
    (λ '(i, k) newCA,
       a ← index_Z (addrs ca) k;
       addrs' ← store_at (addrs newCA) i a;
       s ← index_Z (signers ca) k;
       signers' ← store_at (signers newCA) i s;
       Some {| Call := Call newCA; addrs := addrs'; signers := signers' |})
    {| Call := Call ca;
       addrs := da ++ replicate (length ks) None;
       signers := ds ++ replicate (length ks) None |}
  = picked ← mapM (picked_player ca) ks;
    Some {| Call := Call ca; addrs := da ++ picked.*1; signers := ds ++ picked.*2 |}.
Proof.
  revert i da ds. induction ks as [|k ks IH]; intros i da ds Hda Hds.
  - by cbn.
  - cbn [length seq zip zip_with for_each].
    change (mapM (picked_player ca) (k :: ks))
      with (y ← picked_player ca k; r ← mapM (picked_player ca) ks; mret (y :: r)).
    change (picked_player ca k)
      with (a ← index_Z (addrs ca) k; s ← index_Z (signers ca) k; Some (a, s)).
    cbn [addrs signers Call].
    destruct (index_Z (addrs ca) k) as [a|]; [|done]. cbn [mbind option_bind].
    rewrite (store_at_fill da) by done. cbn [mbind option_bind].
    destruct (index_Z (signers ca) k) as [s|]; [|done]. cbn [mbind option_bind].
    rewrite (store_at_fill ds) by done. cbn [mbind option_bind addrs signers Call].
    rewrite (IH (S i)) by (rewrite length_app; cbn; lia).
    destruct (mapM (picked_player ca) ks) as [picked|]; [|done].
    cbn. by rewrite <- !app_assoc.
Qed.

(** [Take] in one equation: the players at the indices, in the order of the
    indices; it panics on an index outside the receiver. *)
Lemma Take_unfold (ca : CollectiveAuthority) (Indices : list Z) :
  Take ca Indices
  = picked ← mapM (picked_player ca) Indices;
    Some {| Call := Call ca; addrs := picked.*1; signers := picked.*2 |}.
Proof. exact (Take_loop ca Indices 0 [] [] eq_refl eq_refl). Qed.

(** The specification's example: [Take(range(1, 3))] on three players
    returns the players at positions 1 and 2, in this order. *)
Lemma Take_range_1_3 :
  Take authority3 [1; 2]%Z
  = Some {| Call := None;
            addrs := [Some (NewAddress 1); Some (NewAddress 2)];
            signers := [NewSigner (); NewSigner ()] |}.
Proof. reflexivity. Qed.

Lemma Take_well_formed (ca r : CollectiveAuthority) (Indices : list Z) :
  well_formed ca → Take ca Indices = Some r → well_formed r.
Proof.
  intros (Hlen & Ha & Hs). rewrite Take_unfold.
  destruct (mapM (picked_player ca) Indices) as [picked|] eqn:Hpicked; [|done].
  cbn. intros [= <-]. unfold well_formed. cbn. rewrite !length_fmap.
  split; [done|].
  assert (Hall : Forall (λ p, is_Some p.1 ∧ is_Some p.2) picked).
  { rewrite Forall_lookup in Ha. rewrite Forall_lookup in Hs.
    apply mapM_Some in Hpicked. induction Hpicked as [|k p ks ps Hp _ IH];
      constructor; [|done].
    unfold picked_player, index_Z in Hp. case_bool_decide; [|done].
    destruct (addrs ca !! _) as [a|] eqn:Ea; [|done].
    destruct (signers ca !! _) as [s|] eqn:Es; [|done].
    cbn in Hp. injection Hp as <-. cbn.
    split; [by eapply Ha|by eapply Hs]. }
  split; apply Forall_fmap; (eapply Forall_impl; [exact Hall|]); by intros p [? ?].
Qed.

End InvariantProofs.

(** ** What [Apply] returns, and how it composes *)

Module ApplyOutcomeProofs.
Import Fake Roster ApplyProofs GetPublicKeyProofs InvariantProofs IteratorProofs.

(** The removal loop returns exactly when each index lies within what the
    removals before it left. *)
Lemma remove_all_is_Some {A : Type} (R : list nat) (l : list A) :
  is_Some (remove_all R l) ↔ ∀ j i, R !! j = Some i → i + j < length l.
Proof.
  revert l. induction R as [|r R IH]; intros l.
  - split; [intros _ j i Hj; by rewrite lookup_nil in Hj|by eexists].
  - rewrite remove_all_cons. split.
    + intros Hsome j i Hj.
      destruct (remove_at l r) as [l1|] eqn:H1; [|by destruct Hsome].
      pose proof (remove_at_length _ _ _ H1) as Hlen.
      assert (Hr : r < length l).
      { unfold remove_at in H1. by case_bool_decide. }
      destruct j as [|j]; cbn in Hj.
      * injection Hj as <-. lia.
      * cbn in Hsome. pose proof (proj1 (IH l1) Hsome j i Hj). lia.
    + intros Hall.
      assert (Hr : r < length l).
      { specialize (Hall 0 r eq_refl). lia. }
      rewrite remove_at_delete by done. cbn. apply IH. intros j i Hj.
      rewrite length_delete by (by apply lookup_lt_is_Some_2).
      specialize (Hall (S j) i Hj). lia.
Qed.

(** Removals that stay within [l] leave what follows [l] alone. *)
Lemma remove_all_app {A : Type} (R : list nat) (l l' ad : list A) :
  remove_all R l = Some l' → remove_all R (l ++ ad) = Some (l' ++ ad).
Proof.
  revert l. induction R as [|r R IH]; intros l.
  - by intros [= <-].
  - rewrite !remove_all_cons.
    destruct (remove_at l r) as [l1|] eqn:H1; [|done].
    assert (Hr : r < length l).
    { unfold remove_at in H1. by case_bool_decide. }
    rewrite remove_at_delete in H1 by done. injection H1 as <-.
    rewrite remove_at_delete by (rewrite length_app; lia).
    cbn. rewrite delete_app_l by done. apply IH.
Qed.

(** X1: [Apply] returns exactly when every index of [Remove] lies, at its turn,
    within the copy extended by the added players; whatever the order of the
    indices, the roster it returns then has
    [len(roster) + len(Add) - len(Remove)] players, in parallel slices, and
    the call recorder of the receiver. *)
Theorem Apply_returns_iff (ca : CollectiveAuthority) (cs : ChangeSet) :
  length (addrs ca) = length (signers ca) →
  (is_Some (Apply ca cs)
   ↔ ∀ j i, Remove cs !! j = Some i → i + j < length (addrs ca) + length (Add cs))
  ∧ ∀ r, Apply ca cs = Some r →
         Call r = Call ca
         ∧ length (addrs r) + length (Remove cs) = length (addrs ca) + length (Add cs)
         ∧ length (signers r) = length (addrs r).
Proof.
  intros Hlen. rewrite Apply_unfold by done.
  set (la := addrs ca ++ (Player_Address <$> Add cs)).
  set (ls := signers ca ++ ((λ p, Some (signerWrapper (Player_PublicKey p))) <$> Add cs)).
  assert (Hla : length la = length (addrs ca) + length (Add cs)).
  { subst la. by rewrite length_app, length_fmap. }
  assert (Hls : length ls = length la).
  { subst ls. rewrite length_app, length_fmap. lia. }
  split.
  - rewrite <- Hla. rewrite <- (remove_all_is_Some (Remove cs) la).
    pose proof (remove_all_is_Some (Remove cs) la) as Ha.
    pose proof (remove_all_is_Some (Remove cs) ls) as Hs.
    rewrite Hls in Hs. split.
    + intros [r Hr]. destruct (remove_all (Remove cs) la); [by eexists|done].
    + intros Hsome. destruct Hsome as [a' Ha']. rewrite Ha'. cbn.
      destruct (proj2 Hs) as [s' ->]; [apply Ha; by eexists|]. by eexists.
  - intros r Hr.
    destruct (remove_all (Remove cs) la) as [a'|] eqn:Ea; [|done].
    destruct (remove_all (Remove cs) ls) as [s'|] eqn:Es; [|done].
    cbn in Hr. injection Hr as <-. cbn.
    apply remove_all_length in Ea. apply remove_all_length in Es.
    split; [reflexivity|]. lia.
Qed.

Lemma Apply_returns_iff_witness :
  let cs := {| Remove := [0; 1];
               Add := [{| Player_Address := Some (NewAddress 7);
                          Player_PublicKey := None |}] |} in
  (is_Some (Apply authority3 cs)
   ↔ ∀ j i, Remove cs !! j = Some i
            → i + j < length (addrs authority3) + length (Add cs))
  ∧ ∀ r, Apply authority3 cs = Some r →
         Call r = Call authority3
         ∧ length (addrs r) + length (Remove cs)
           = length (addrs authority3) + length (Add cs)
         ∧ length (signers r) = length (addrs r).
Proof. intros cs. apply (Apply_returns_iff authority3 cs). reflexivity. Defined.

(** X2: a change set can be applied in two steps, the removals first: when the
    removals alone go through, the additions applied to their result give
    what the whole change set gives.  Additions split in the same way. *)
Theorem Apply_in_two_steps (ca : CollectiveAuthority) :
  length (addrs ca) = length (signers ca) →
  (∀ cs r1, Apply ca {| Remove := Remove cs; Add := [] |} = Some r1 →
            Apply ca cs = Apply r1 {| Remove := []; Add := Add cs |})
  ∧ (∀ A1 A2,
       Apply ca {| Remove := []; Add := A1 ++ A2 |}
       = Apply ca {| Remove := []; Add := A1 |}
         ≫= λ r1, Apply r1 {| Remove := []; Add := A2 |}).
Proof.
  intros Hlen. split.
  - intros cs r1. rewrite !Apply_unfold by done. cbn [Remove Add fmap list_fmap].
    rewrite !app_nil_r.
    destruct (remove_all (Remove cs) (addrs ca)) as [a'|] eqn:Ea; [|done].
    destruct (remove_all (Remove cs) (signers ca)) as [s'|] eqn:Es; [|done].
    cbn [mbind option_bind]. intros [= <-].
    rewrite (remove_all_app _ _ _ _ Ea), (remove_all_app _ _ _ _ Es).
    cbn [mbind option_bind].
    apply remove_all_length in Ea. apply remove_all_length in Es.
    rewrite Apply_unfold by (cbn; lia). reflexivity.
  - intros A1 A2. rewrite !Apply_unfold by done.
    cbn [Remove Add remove_all for_each mbind option_bind].
    rewrite Apply_unfold by (cbn; rewrite !length_app, !length_fmap; lia).
    cbn. by rewrite !fmap_app, !app_assoc.
Qed.

Lemma Apply_in_two_steps_witness :
  (∀ cs r1, Apply authority3 {| Remove := Remove cs; Add := [] |} = Some r1 →
            Apply authority3 cs = Apply r1 {| Remove := []; Add := Add cs |})
  ∧ (∀ A1 A2,
       Apply authority3 {| Remove := []; Add := A1 ++ A2 |}
       = Apply authority3 {| Remove := []; Add := A1 |}
         ≫= λ r1, Apply r1 {| Remove := []; Add := A2 |}).
Proof. apply (Apply_in_two_steps authority3). reflexivity. Defined.

(** The scan of [GetPublicKey] passes over a stretch in which no address is
    [Equal] to the queried one. *)
Lemma GetPublicKey_from_app (ca : CollectiveAuthority) (addr : mino_Address)
    (i : nat) (l1 l2 : list mino_Address) :
  Forall is_Some l1 →
  (∀ a, Some a ∈ l1 → Address_Equal a addr = false) →
  GetPublicKey_from ca addr i (l1 ++ l2) = GetPublicKey_from ca addr (i + length l1) l2.
Proof.
  revert i. induction l1 as [|x l1 IH]; intros i Hsome Hne.
  - cbn. by rewrite Nat.add_0_r.
  - apply Forall_cons in Hsome as [[a ->] Hsome].
    cbn [app GetPublicKey_from mino_Address_Equal mbind option_bind].
    rewrite (Hne a) by (apply elem_of_cons; by left).
    rewrite IH; [|done|].
    + f_equal. cbn. lia.
    + intros b Hb. apply Hne. apply elem_of_cons. by right.
Qed.

(** The scan stops within a stretch that holds an address [Equal] to the
    queried one: what follows the stretch, and the signers beyond it, do not
    matter. *)
Lemma GetPublicKey_from_found (ca ca' : CollectiveAuthority) (addr : mino_Address)
    (i : nat) (l1 l2 : list mino_Address) (a : Address) :
  Some a ∈ l1 → Address_Equal a addr = true →
  (∀ k, k < length l1 → signers ca' !! (i + k) = signers ca !! (i + k)) →
  GetPublicKey_from ca' addr i (l1 ++ l2) = GetPublicKey_from ca addr i l1.
Proof.
  revert i. induction l1 as [|x l1 IH]; intros i Hin Heq Hsig.
  - by apply elem_of_nil in Hin.
  - cbn [app GetPublicKey_from].
    destruct (mino_Address_Equal x addr) as [[|]|] eqn:Hx; cbn; [| |done].
    + specialize (Hsig 0). rewrite Nat.add_0_r in Hsig. rewrite Hsig by (cbn; lia).
      done.
    + apply elem_of_cons in Hin as [Hhead|Hin].
      { subst x. cbn in Hx. congruence. }
      apply IH; [done|done|]. intros k Hk.
      rewrite Nat.add_succ_comm. apply Hsig. cbn. lia.
Qed.

(** X3: adding a player and looking it up.  A player added under an address that
    no member has is found at the end of the roster, with the public key it
    was added with; the lookup of an address that a member already has gives
    what it gave before, so a player added under such an address is never
    found. *)
Theorem Apply_add_then_GetPublicKey (ca : CollectiveAuthority) (p : Player) :
  well_formed ca →
  ∃ r, Apply ca {| Remove := []; Add := [p] |} = Some r
       ∧ (∀ a, Player_Address p = Some a →
               (∀ b, Some b ∈ addrs ca → Address_Equal b (Some a) = false) →
               GetPublicKey r (Some a)
               = Some (Player_PublicKey p, Z.of_nat (length (addrs ca))))
       ∧ (∀ addr b, Some b ∈ addrs ca → Address_Equal b addr = true →
                    GetPublicKey r addr = GetPublicKey ca addr).
Proof.
  intros (Hlen & Ha & Hs). rewrite Apply_unfold by done. cbn.
  eexists. split; [reflexivity|]. unfold GetPublicKey. cbn [addrs]. split.
  - intros a Hp Hnew. rewrite GetPublicKey_from_app by done.
    rewrite Hp. cbn [GetPublicKey_from mino_Address_Equal mbind option_bind].
    rewrite AddressProofs.Address_Equal_refl. cbn [signers].
    rewrite Nat.add_0_l, Hlen, lookup_app_r, Nat.sub_diag by done.
    reflexivity.
  - intros addr b Hb Heq.
    rewrite (GetPublicKey_from_found ca _ addr 0 (addrs ca) _ b Hb Heq).
    + reflexivity.
    + intros k Hk. cbn. rewrite lookup_app_l; [done|lia].
Qed.

Lemma Apply_add_then_GetPublicKey_witness :
  let p := {| Player_Address := Some (NewAddress 7); Player_PublicKey := None |} in
  ∃ r, Apply authority3 {| Remove := []; Add := [p] |} = Some r
       ∧ (∀ a, Player_Address p = Some a →
               (∀ b, Some b ∈ addrs authority3 → Address_Equal b (Some a) = false) →
               GetPublicKey r (Some a)
               = Some (Player_PublicKey p, Z.of_nat (length (addrs authority3))))
       ∧ (∀ addr b, Some b ∈ addrs authority3 → Address_Equal b addr = true →
                    GetPublicKey r addr = GetPublicKey authority3 addr).
Proof.
  intros p. apply (Apply_add_then_GetPublicKey authority3 p).
  unfold well_formed. split; [reflexivity|].
  split; repeat constructor; eexists; reflexivity.
Defined.

End ApplyOutcomeProofs.

(** ** Members of an authority: constructors, [Take], lookups *)

Module MembersProofs.
Import Fake Members ApplyProofs GetPublicKeyProofs InvariantProofs IteratorProofs.
Import ApplyOutcomeProofs.

Local Open Scope Z_scope.

(** *** [Take] *)

Lemma picked_player_is_Some (ca : CollectiveAuthority) (k : Z) :
  is_Some (picked_player ca k)
  ↔ 0 ≤ k < Z.of_nat (length (addrs ca) `min` length (signers ca)).
Proof.
  unfold picked_player, index_Z. case_bool_decide as Hk.
  - destruct (addrs ca !! Z.to_nat k) as [a|] eqn:Ea; cbn.
    + destruct (signers ca !! Z.to_nat k) as [s|] eqn:Es; cbn.
      * apply lookup_lt_Some in Ea, Es. split; [lia|by eexists].
      * apply lookup_ge_None in Es. split; [by intros [? ?]|lia].
    + apply lookup_ge_None in Ea. split; [by intros [? ?]|lia].
  - cbn. split; [by intros [? ?]|lia].
Qed.

(** X4: [Take] returns the players at the indices, in the order of the indices
    and as often as an index is listed, with the call recorder of the
    receiver; it panics exactly when an index lies outside one of the two
    slices of the receiver. *)
Theorem Take_selects (ca : CollectiveAuthority) (Indices : list Z) :
  let n := Z.of_nat (length (addrs ca) `min` length (signers ca)) in
  (Forall (λ k, 0 ≤ k < n) Indices →
   ∃ r, Take ca Indices = Some r
        ∧ Fake.Call r = Fake.Call ca
        ∧ Len r = Z.of_nat (length Indices)
        ∧ length (addrs r) = length Indices
        ∧ ∀ j k, Indices !! j = Some k →
                 GetAddress r (Z.of_nat j) = GetAddress ca k
                 ∧ GetSigner r (Z.of_nat j) = GetSigner ca k)
  ∧ (¬ Forall (λ k, 0 ≤ k < n) Indices → Take ca Indices = None).
Proof.
  intros n. rewrite Take_unfold.
  assert (Hall : Forall (λ k, 0 ≤ k < n) Indices
                 ↔ is_Some (mapM (picked_player ca) Indices)).
  { rewrite mapM_is_Some. apply Forall_proper; [|done].
    intros k. cbn. by rewrite picked_player_is_Some. }
  split.
  - intros Hin. apply Hall in Hin as [picked Hpicked]. rewrite Hpicked. cbn.
    eexists. split; [reflexivity|]. cbn.
    apply mapM_Some in Hpicked.
    pose proof (Forall2_length _ _ _ Hpicked) as Hlen.
    unfold Len. cbn. rewrite !length_fmap.
    split; [done|]. split; [lia|]. split; [lia|].
    intros j k Hj.
    destruct (Forall2_lookup_l _ _ _ _ _ Hpicked Hj) as ([a s] & Hp & Hk).
    unfold GetAddress, GetSigner. cbn.
    rewrite !index_Z_of_nat, !list_lookup_fmap, Hp. cbn.
    unfold picked_player in Hk.
    destruct (index_Z (addrs ca) k) as [a'|]; [|done].
    destruct (index_Z (signers ca) k) as [s'|]; [|done].
    cbn in Hk. by injection Hk as -> ->.
  - intros Hout. destruct (mapM (picked_player ca) Indices) eqn:Hm; [|done].
    exfalso. apply Hout, Hall. by eexists.
Qed.

(** *** The constructor and the lookups *)

(** Two members of an authority made by [NewAuthorityWithBase] never share
    an index: the additions [i + base] wrap around at most once. *)
Lemma int_wrap_add_inj (base i j : Z) :
  0 ≤ i < 2 ^ 64 → 0 ≤ j < 2 ^ 64 →
  int_wrap (i + base) = int_wrap (j + base) → i = j.
Proof.
  intros Hi Hj. unfold int_wrap.
  assert (H64 : 2 ^ 64 = 18446744073709551616) by reflexivity.
  rewrite H64 in *.
  rewrite !Z.mod_eq by lia.
  set (q1 := (i + base + 2 ^ 63) / 18446744073709551616).
  set (q2 := (j + base + 2 ^ 63) / 18446744073709551616).
  lia.
Qed.

Lemma NewAuthorityWithBase_unfold (base n : Z) (g : GenSigner) :
  0 ≤ n ≤ 2 ^ 44 →
  NewAuthorityWithBase base n g
  = Some {| signers := (λ _, g ()) <$> seq 0 (Z.to_nat n);
            addrs := (λ i, Some (NewAddress (int_wrap (Z.of_nat i + base))))
                       <$> seq 0 (Z.to_nat n);
            Fake.Call := None |}.
Proof.
  intros Hn. unfold NewAuthorityWithBase.
  by rewrite (proj2 (InvariantProofs.makeslice_interface n) Hn).
Qed.

(** X5: for an [n] that [make] accepts, from 0 to 2^44,
    [NewAuthorityWithBase(base, n, g)] has [n] members; the member at
    position [i] has the address of index [i + base] and the signer that [g]
    makes, [GetPublicKey] finds it at position [i] under this address, and
    finds nobody under an address of another index; [GetAddress] and
    [GetSigner] panic outside the positions [0..n-1]. *)
Theorem NewAuthorityWithBase_members (base n : Z) (g : GenSigner)
    (s : AggregateSigner) :
  0 ≤ n ≤ 2 ^ 44 → g () = Some s →
  ∃ ca, NewAuthorityWithBase base n g = Some ca
        ∧ Len ca = n
        ∧ (∀ i, 0 ≤ i < n →
             GetAddress ca i = Some (Some (NewAddress (int_wrap (i + base))))
             ∧ GetSigner ca i = Some (Some s)
             ∧ GetPublicKey ca (Some (NewAddress (int_wrap (i + base))))
               = Some (AggregateSigner_GetPublicKey s, i))
        ∧ (∀ i, i < 0 ∨ n ≤ i → GetAddress ca i = None ∧ GetSigner ca i = None)
        ∧ (∀ a, (∀ i, 0 ≤ i < n → index a ≠ int_wrap (i + base)) →
                GetPublicKey ca (Some a) = Some (None, -1)).
Proof.
  intros Hn Hg. rewrite NewAuthorityWithBase_unfold by done.
  assert (H44 : 2 ^ 44 < 2 ^ 63) by reflexivity.
  assert (Hn63 : 0 ≤ n < 2 ^ 63) by lia. clear Hn H44. rename Hn63 into Hn.
  eexists. split; [reflexivity|].
  match goal with |- context [Len ?c] => set (ca := c) end.
  assert (H63 : 2 ^ 64 = 2 * 2 ^ 63) by reflexivity.
  set (mk := λ i : nat, Some (NewAddress (int_wrap (Z.of_nat i + base)))).
  assert (Haddrs : ∀ m, (m ≤ Z.to_nat n)%nat →
            addrs ca = (mk <$> seq 0 m) ++ (mk <$> seq m (Z.to_nat n - m))).
  { intros m Hm. rewrite <- fmap_app, <- seq_app. cbn. do 2 f_equal. lia. }
  assert (Hsigners : ∀ i, (i < Z.to_nat n)%nat → signers ca !! i = Some (Some s)).
  { intros i Hi. cbn. by rewrite list_lookup_fmap, lookup_seq_lt, <- Hg by done. }
  assert (Hmk : ∀ i, 0 ≤ i → mk (Z.to_nat i) = Some (NewAddress (int_wrap (i + base)))).
  { intros i Hi. unfold mk. by rewrite Z2Nat.id. }
  assert (Hall : ∀ i m, Forall is_Some (mk <$> seq i m)).
  { intros i m. apply Forall_fmap, Forall_forall. intros j _. by eexists. }
  split; [unfold Len; cbn; rewrite length_fmap, length_seq; lia|].
  split; [|split].
  - intros i Hi.
    assert (Hlt : (Z.to_nat i < Z.to_nat n)%nat) by lia.
    unfold GetAddress, GetSigner, GetPublicKey, index_Z.
    rewrite bool_decide_eq_true_2 by lia. rewrite Hsigners by done.
    split; [|split; [done|]].
    + cbn. by rewrite list_lookup_fmap, lookup_seq_lt, <- Hmk by (done || lia).
    + rewrite (Haddrs (Z.to_nat i)) by lia.
      rewrite GetPublicKey_from_app; [|apply Hall|].
      * rewrite length_fmap, length_seq, Nat.add_0_l.
        replace (Z.to_nat n - Z.to_nat i)%nat
          with (S (Z.to_nat n - S (Z.to_nat i))) by lia.
        cbn [seq fmap list_fmap GetPublicKey_from]. rewrite Hmk by lia.
        cbn [mino_Address_Equal mbind option_bind].
        rewrite AddressProofs.Address_Equal_refl, Hsigners by done.
        cbn. by rewrite Z2Nat.id by lia.
      * intros b Hb. apply list_elem_of_fmap in Hb as (j & [= ->] & Hj).
        apply elem_of_seq in Hj. unfold Address_Equal, NewAddress. cbn.
        apply bool_decide_eq_false_2. intros Heq.
        apply int_wrap_add_inj in Heq; lia.
  - intros i Hi. unfold GetAddress, GetSigner, index_Z. cbn.
    case_bool_decide; [|done].
    rewrite !lookup_ge_None_2; [done| |]; rewrite length_fmap, length_seq; lia.
  - intros a Hne. unfold GetPublicKey.
    rewrite (Haddrs (Z.to_nat n)) by lia. rewrite Nat.sub_diag. cbn [seq fmap list_fmap].
    rewrite GetPublicKey_from_app; [reflexivity|apply Hall|].
    intros b Hb. apply list_elem_of_fmap in Hb as (j & [= ->] & Hj).
    apply elem_of_seq in Hj. unfold Address_Equal, NewAddress. cbn.
    apply bool_decide_eq_false_2. apply Hne. lia.
Qed.

Lemma NewAuthorityWithBase_members_witness :
  ∃ ca, NewAuthorityWithBase 5 3 NewSigner = Some ca
        ∧ Len ca = 3
        ∧ (∀ i, 0 ≤ i < 3 →
             GetAddress ca i = Some (Some (NewAddress (int_wrap (i + 5))))
             ∧ GetSigner ca i = Some (NewSigner ())
             ∧ GetPublicKey ca (Some (NewAddress (int_wrap (i + 5))))
               = Some (Some {| pk_err := None; verifyErr := None |}, i))
        ∧ (∀ i, i < 0 ∨ 3 ≤ i → GetAddress ca i = None ∧ GetSigner ca i = None)
        ∧ (∀ a, (∀ i, 0 ≤ i < 3 → index a ≠ int_wrap (i + 5)) →
                GetPublicKey ca (Some a) = Some (None, -1)).
Proof.
  refine (NewAuthorityWithBase_members 5 3 NewSigner _ _ eq_refl).
  split; [lia|by vm_compute].
Defined.

(** *** The invariant of rosters *)

(** X6: rosters stay well formed: what [Apply] returns for a well-formed roster
    and added players that have an address, and what [Take] returns, is well
    formed again, so that [GetPublicKey] never panics on it. *)
Theorem well_formed_is_kept (ca : CollectiveAuthority) :
  well_formed ca →
  (∀ cs r, Forall (λ p, is_Some (Player_Address p)) (Add cs) →
           Apply ca cs = Some r →
           well_formed r ∧ ∀ addr, is_Some (GetPublicKey r addr))
  ∧ (∀ Indices r, Take ca Indices = Some r →
                  well_formed r ∧ ∀ addr, is_Some (GetPublicKey r addr)).
Proof.
  intros Hwf.
  assert (Hscan : ∀ r, well_formed r → ∀ addr, is_Some (GetPublicKey r addr)).
  { intros r (Hlen & Ha & Hs) addr.
    destruct (GetPublicKey_from_scan r addr (addrs r) 0 Ha) as (res & Hres & _).
    - intros k Hk. rewrite Hlen in Hk.
      destruct (lookup_lt_is_Some_2 _ _ Hk) as [s Hsk].
      rewrite Forall_lookup in Hs. destruct (Hs _ _ Hsk) as [s' ->]. by exists s'.
    - by exists res. }
  split.
  - intros cs r Hadd Hr. pose proof (Apply_well_formed _ _ _ Hwf Hadd Hr). auto.
  - intros Indices r Hr. pose proof (Take_well_formed _ _ _ Hwf Hr). auto.
Qed.

Lemma well_formed_is_kept_witness :
  (∀ cs r, Forall (λ p, is_Some (Player_Address p)) (Add cs) →
           Apply authority3 cs = Some r →
           well_formed r ∧ ∀ addr, is_Some (GetPublicKey r addr))
  ∧ (∀ Indices r, Take authority3 Indices = Some r →
                  well_formed r ∧ ∀ addr, is_Some (GetPublicKey r addr)).
Proof.
  apply (well_formed_is_kept authority3).
  unfold well_formed. split; [reflexivity|].
  split; repeat constructor; eexists; reflexivity.
Defined.

(** *** The iterator over public keys *)

Lemma PublicKeyIterator_HasNext_at l i :
  Z.of_nat i < 2 ^ 63 →
  PublicKeyIterator_HasNext (key_iterator_at l i) = bool_decide (i < length l)%nat.
Proof.
  intros Hi. unfold PublicKeyIterator_HasNext, key_iterator_at. cbn.
  rewrite int_wrap_index by done. apply bool_decide_ext. lia.
Qed.

Lemma PublicKeyIterator_GetNext_at l i s :
  Z.of_nat i < 2 ^ 63 →
  l !! i = Some (Some s) →
  PublicKeyIterator_GetNext (key_iterator_at l i)
  = Some (AggregateSigner_GetPublicKey s, key_iterator_at l (S i)).
Proof.
  intros Hint Hi. unfold PublicKeyIterator_GetNext.
  rewrite PublicKeyIterator_HasNext_at by done.
  rewrite bool_decide_eq_true_2 by (by eapply lookup_lt_Some).
  cbn [pit_signers pit_index key_iterator_at].
  rewrite int_wrap_index by done.
  rewrite index_Z_of_nat, Hi. cbn. unfold key_iterator_at. do 3 f_equal. lia.
Qed.

Lemma PublicKeyIterator_GetNext_nil l i :
  Z.of_nat i < 2 ^ 63 →
  l !! i = Some None →
  PublicKeyIterator_GetNext (key_iterator_at l i) = None.
Proof.
  intros Hint Hi. unfold PublicKeyIterator_GetNext.
  rewrite PublicKeyIterator_HasNext_at by done.
  rewrite bool_decide_eq_true_2 by (by eapply lookup_lt_Some).
  cbn [pit_signers pit_index key_iterator_at].
  rewrite int_wrap_index by done.
  by rewrite index_Z_of_nat, Hi.
Qed.

Lemma PublicKeyIterator_GetNext_times_at l k i :
  Z.of_nat (length l) < 2 ^ 63 →
  (i + k ≤ length l)%nat →
  Forall is_Some l →
  PublicKeyIterator_GetNext_times k (key_iterator_at l i)
  = Some (default None ∘ crypto_GetPublicKey <$> take k (drop i l),
          key_iterator_at l (i + k)).
Proof.
  intros Hint. revert i. induction k as [|k IH]; intros i Hik Hall.
  - cbn. by rewrite Nat.add_0_r.
  - destruct (lookup_lt_is_Some_2 l i) as [x Hx]; [lia|].
    destruct (proj1 (Forall_lookup _ _) Hall _ _ Hx) as [s ->].
    assert (Hi : Z.of_nat i < 2 ^ 63) by lia.
    cbn [PublicKeyIterator_GetNext_times].
    rewrite (PublicKeyIterator_GetNext_at _ _ _ Hi Hx). cbn.
    rewrite IH by (done || lia). cbn.
    rewrite (drop_S _ _ _ Hx). cbn. do 3 f_equal. lia.
Qed.

Lemma PublicKeyIterator_exhausted l k i :
  Z.of_nat i < 2 ^ 63 →
  (length l ≤ i)%nat →
  PublicKeyIterator_GetNext_times k (key_iterator_at l i)
  = Some (replicate k None, key_iterator_at l i).
Proof.
  intros Hint Hi. induction k as [|k IH]; [reflexivity|].
  cbn [PublicKeyIterator_GetNext_times]. unfold PublicKeyIterator_GetNext.
  rewrite PublicKeyIterator_HasNext_at by done.
  rewrite bool_decide_eq_false_2 by lia. cbn. by rewrite IH.
Qed.

(** X7: on a roster of [n] signers, none of them nil, the first [n] calls of
    [GetNext] on a fresh iterator return the public keys of the signers in
    roster order; after them [HasNext] is false and further calls return nil.
    The call that reaches a nil signer panics. *)
Theorem PublicKeyIterator_yields_keys (ca : CollectiveAuthority) :
  let n := length (signers ca) in
  Z.of_nat n < 2 ^ 63 →
  (Forall is_Some (signers ca) →
   ∃ keys last,
     PublicKeyIterator_GetNext_times n (new_PublicKeyIterator ca) = Some (keys, last)
     ∧ mapM crypto_GetPublicKey (signers ca) = Some keys
     ∧ PublicKeyIterator_HasNext last = false
     ∧ ∀ m, PublicKeyIterator_GetNext_times m last = Some (replicate m None, last))
  ∧ (∀ k, signers ca !! k = Some None →
          Forall is_Some (take k (signers ca)) →
          PublicKeyIterator_GetNext_times (S k) (new_PublicKeyIterator ca) = None).
Proof.
  intros n Hint.
  assert (Hnew : new_PublicKeyIterator ca = key_iterator_at (signers ca) 0)
    by reflexivity.
  rewrite Hnew. split.
  - intros Hall. eexists _, (key_iterator_at (signers ca) n). split; [|split; [|split]].
    + rewrite PublicKeyIterator_GetNext_times_at by (done || subst n; lia).
      cbn. subst n. by rewrite firstn_all.
    + apply mapM_Some. apply Forall2_fmap_r, Forall_Forall2_diag.
      eapply Forall_impl; [exact Hall|]. by intros x [s ->].
    + rewrite PublicKeyIterator_HasNext_at by done.
      apply bool_decide_eq_false_2. subst n. lia.
    + intros m. apply PublicKeyIterator_exhausted; [done|]. subst n. lia.
  - intros k Hk Hbefore.
    assert (Hlt : (k < n)%nat) by (by eapply lookup_lt_Some).
    assert (Hloop : ∀ j i, (i + j = k)%nat →
              PublicKeyIterator_GetNext_times (S j) (key_iterator_at (signers ca) i)
              = None).
    { induction j as [|j IH]; intros i Hij.
      - cbn [PublicKeyIterator_GetNext_times].
        rewrite PublicKeyIterator_GetNext_nil; [done|lia|].
        by replace i with k by lia.
      - destruct (lookup_lt_is_Some_2 (signers ca) i) as [x Hx]; [subst n; lia|].
        assert (Hx' : take k (signers ca) !! i = Some x).
        { rewrite lookup_take_lt by lia. done. }
        rewrite Forall_lookup in Hbefore. destruct (Hbefore _ _ Hx') as [s ->].
        change (PublicKeyIterator_GetNext_times (S (S j)) ?it)
          with ('(pubkey, i1) ← PublicKeyIterator_GetNext it;
                '(rest, i2) ← PublicKeyIterator_GetNext_times (S j) i1;
                Some (pubkey :: rest, i2)).
        rewrite (PublicKeyIterator_GetNext_at _ _ s) by (done || lia).
        cbn [mbind option_bind]. rewrite IH by lia. reflexivity. }
    apply (Hloop k 0%nat). lia.
Qed.

Lemma PublicKeyIterator_yields_keys_witness :
  (Forall is_Some (signers authority3) →
   ∃ keys last,
     PublicKeyIterator_GetNext_times 3 (new_PublicKeyIterator authority3)
       = Some (keys, last)
     ∧ mapM crypto_GetPublicKey (signers authority3) = Some keys
     ∧ PublicKeyIterator_HasNext last = false
     ∧ ∀ m, PublicKeyIterator_GetNext_times m last = Some (replicate m None, last))
  ∧ (∀ k, signers authority3 !! k = Some None →
          Forall is_Some (take k (signers authority3)) →
          PublicKeyIterator_GetNext_times (S k) (new_PublicKeyIterator authority3)
          = None).
Proof. apply (PublicKeyIterator_yields_keys authority3). vm_compute. reflexivity. Defined.

(** *** Authorities made from overlay instances *)

Lemma NewAuthorityFromMino_signers (g : GenSigner) (n i : nat)
    (filled : list crypto_AggregateSigner) :
  length filled = i →
  for_each (seq i n) (λ i signers, store_at signers i (g ()))
    (filled ++ replicate n None)
  = Some (filled ++ replicate n (g ())).
Proof.
  revert i filled. induction n as [|n IH]; intros i filled Hlen; [done|].
  cbn [seq for_each replicate]. change (None :: replicate n None)
    with (replicate (S n) (None : crypto_AggregateSigner)).
  rewrite store_at_fill by done. cbn [mbind option_bind].
  rewrite (IH (S i)) by (rewrite length_app; cbn; lia).
  by rewrite <- app_assoc.
Qed.

Lemma NewAuthorityFromMino_addrs (instances : list mino_Mino) (i : nat)
    (filled : list mino_Address) :
  length filled = i →
  for_each (zip (seq i (length instances)) instances)
    (λ '(i, instance) addrs, a ← mino_Mino_GetAddress instance; store_at addrs i a)
    (filled ++ replicate (length instances) None)
  = got ← mapM mino_Mino_GetAddress instances; Some (filled ++ got).
Proof.
  revert i filled. induction instances as [|m instances IH]; intros i filled Hlen.
  - cbn. done.
  - cbn [length seq zip zip_with for_each replicate].
    change (mapM mino_Mino_GetAddress (m :: instances))
      with (y ← mino_Mino_GetAddress m;
            r ← mapM mino_Mino_GetAddress instances; mret (y :: r)).
    destruct (mino_Mino_GetAddress m) as [a|]; [|done]. cbn [mbind option_bind].
    change (None :: replicate (length instances) None)
      with (replicate (S (length instances)) (None : mino_Address)).
    rewrite store_at_fill by done. cbn [mbind option_bind].
    rewrite (IH (S i)) by (rewrite length_app; cbn; lia).
    destruct (mapM mino_Mino_GetAddress instances); [|done].
    cbn. by rewrite <- app_assoc.
Qed.

(** X8: an authority made from fake overlay instances has one member per
    instance, and every member has the address of index 0, the one address
    that a fake overlay knows: [GetPublicKey] finds the first member under
    it and nobody under any other address.  A nil instance makes the
    constructor panic. *)
Theorem NewAuthorityFromMino_one_address (g : GenSigner) (instances : list mino_Mino) :
  (Forall is_Some instances →
   ∃ ca, NewAuthorityFromMino g instances = Some ca
         ∧ Len ca = Z.of_nat (length instances)
         ∧ addrs ca = replicate (length instances) (Some (NewAddress 0))
         ∧ signers ca = replicate (length instances) (g ())
         ∧ ∀ a, GetPublicKey ca (Some a)
                = if bool_decide (index a = 0 ∧ instances ≠ [])
                  then pubkey ← crypto_GetPublicKey (g ()); Some (pubkey, 0)
                  else Some (None, -1))
  ∧ (¬ Forall is_Some instances → NewAuthorityFromMino g instances = None).
Proof.
  unfold NewAuthorityFromMino, for_range.
  pose proof (NewAuthorityFromMino_signers g (length instances) 0 [] eq_refl) as Hs.
  pose proof (NewAuthorityFromMino_addrs instances 0 [] eq_refl) as Ha.
  cbn [app] in Hs, Ha. rewrite Hs. cbn [mbind option_bind]. rewrite Ha.
  clear Hs Ha. split.
  - intros Hall.
    assert (Hgot : mapM mino_Mino_GetAddress instances
                   = Some (replicate (length instances) (Some (NewAddress 0)))).
    { apply mapM_Some. induction Hall as [|m instances [m' ->] _ IH]; constructor; done. }
    rewrite Hgot. cbn [mbind option_bind app].
    eexists. split; [reflexivity|]. unfold Len. cbn [signers addrs].
    rewrite length_replicate. do 3 (split; [done|]).
    intros a. unfold GetPublicKey. cbn [addrs].
    destruct instances as [|m instances].
    + cbn. rewrite bool_decide_eq_false_2; [done|]. by intros [_ ?].
    + destruct (decide (index a = 0)) as [H0|H0].
      * rewrite bool_decide_eq_true_2 by done.
        cbn. unfold Address_Equal. cbn.
        rewrite bool_decide_eq_true_2 by done. reflexivity.
      * rewrite bool_decide_eq_false_2 by (by intros [? _]).
        rewrite <- (app_nil_r (replicate _ _)).
        rewrite GetPublicKey_from_app; [reflexivity| |].
        -- apply Forall_replicate. by eexists.
        -- intros b Hb. apply elem_of_replicate in Hb as [[= ->] _].
           unfold Address_Equal. cbn. apply bool_decide_eq_false_2. congruence.
  - intros Hnil. destruct (mapM mino_Mino_GetAddress instances) eqn:Hm; [|done].
    exfalso. apply Hnil.
    assert (Hsome : is_Some (mapM mino_Mino_GetAddress instances)) by (by eexists).
    apply mapM_is_Some in Hsome. eapply Forall_impl; [exact Hsome|].
    intros [m|]; cbn; [by eexists|by intros [? ?]].
Qed.

End MembersProofs.

(** ** The call recorder *)

Module RecorderProofs.
Import Fake Recorder IteratorProofs.

Section Call.
Context {V : Type}.
Implicit Types (c : Call V) (args : list (option V)).

Lemma index_Z_app_l {A : Type} (l l' : list A) (n : Z) :
  (n < Z.of_nat (length l))%Z → index_Z (l ++ l') n = index_Z l n.
Proof.
  intros Hn. unfold index_Z. case_bool_decide; [|done].
  apply lookup_app_l. lia.
Qed.

Lemma index_Z_outside {A : Type} (l : list A) (n : Z) :
  (n < 0 ∨ Z.of_nat (length l) ≤ n)%Z → index_Z l n = None.
Proof.
  intros Hn. unfold index_Z. case_bool_decide; [|done].
  apply lookup_ge_None_2. lia.
Qed.

Lemma Add_all_calls c (recorded : list (list (option V))) :
  foldl Add (Some c) recorded = Some {| calls := calls c ++ recorded |}.
Proof.
  revert c. induction recorded as [|args recorded IH]; intros c.
  - cbn. rewrite app_nil_r. by destruct c.
  - cbn [foldl Add]. rewrite IH. cbn. by rewrite <- app_assoc.
Qed.

(** X9: the recorder keeps the calls in the order they were added: after adding
    the calls [recorded] to a recorder of [Len] calls, [Len] has grown by
    their number, the calls recorded before are where they were, the [k]-th
    added call is read back at position [Len + k], and reading a position
    outside the log panics. *)
Theorem Call_records_in_order c (recorded : list (list (option V))) (n i : Z) :
  let c' := foldl Add (Some c) recorded in
  Len c' = (Len (Some c) + Z.of_nat (length recorded))%Z
  ∧ ((0 ≤ n < Len (Some c))%Z → Get c' n i = Get (Some c) n i)
  ∧ (∀ k args, recorded !! k = Some args →
               Get c' (Len (Some c) + Z.of_nat k) i = index_Z args i)
  ∧ ((n < 0 ∨ Len c' ≤ n)%Z → Get c' n i = None).
Proof.
  intros c'. subst c'. rewrite Add_all_calls. unfold Len, Get. cbn [calls].
  rewrite length_app. split; [lia|]. split; [|split].
  - intros Hn. by rewrite index_Z_app_l by lia.
  - intros k args Hk. rewrite <- Nat2Z.inj_add, index_Z_of_nat.
    by rewrite lookup_app_r, Nat.add_sub', Hk by lia.
  - intros Hn. rewrite index_Z_outside; [done|]. rewrite length_app. lia.
Qed.

End Call.

End RecorderProofs.

(** ** What [Apply] and [Take] record *)

Module RecordingProofs.
Import Mem MemProofs RefinementProofs Recording IteratorProofs.

(** *** The rules of [keeps_logs] *)

Lemma keeps_logs_ret {R : Type} (r : R) (P : R → Prop) : P r → keeps_logs (ret r) P.
Proof. intros Hr st. split; [done|]. by intros r' [= <-]. Qed.

Lemma keeps_logs_bind {R R' : Type} (c : M R) (k : R → M R')
    (P : R → Prop) (Q : R' → Prop) :
  keeps_logs c P → (∀ r, P r → keeps_logs (k r) Q) → keeps_logs (bind c k) Q.
Proof.
  intros Hc Hk st. unfold bind. destruct (Hc st) as [Hlogs HP].
  destruct (c st) as [[r|] st']; cbn in *; [|done].
  destruct (Hk r (HP r eq_refl) st') as [Hlogs' HQ]. split; [congruence|done].
Qed.

Lemma keeps_logs_for_each {X S : Type} (l : list X) (body : X → S → M S)
    (I : S → Prop) (s : S) :
  I s → (∀ x s, I s → keeps_logs (body x s) I) → keeps_logs (for_each l body s) I.
Proof.
  intros Hs Hbody. revert s Hs. induction l as [|x l IH]; intros s Hs.
  - by apply keeps_logs_ret.
  - cbn. eapply keeps_logs_bind; [by apply Hbody|]. intros s' Hs'. by apply IH.
Qed.

Lemma keeps_logs_on_addrs {R : Type}
    (f : list (list Fake.mino_Address) → option (R * list (list Fake.mino_Address)))
    (P : R → Prop) :
  (∀ m r m', f m = Some (r, m') → P r) → keeps_logs (on_addrs f) P.
Proof.
  intros Hf st. unfold on_addrs.
  destruct (f (addr_arrays st)) as [[r m']|] eqn:Hfm; cbn; [|done].
  split; [done|]. intros r' [= <-]. by eapply Hf.
Qed.

Lemma keeps_logs_on_signers {R : Type}
    (f : list (list Fake.crypto_AggregateSigner)
         → option (R * list (list Fake.crypto_AggregateSigner)))
    (P : R → Prop) :
  (∀ m r m', f m = Some (r, m') → P r) → keeps_logs (on_signers f) P.
Proof.
  intros Hf st. unfold on_signers.
  destruct (f (signer_arrays st)) as [[r m']|] eqn:Hfm; cbn; [|done].
  split; [done|]. intros r' [= <-]. by eapply Hf.
Qed.

Lemma keeps_logs_copy_player ca newCA i k :
  keeps_logs (copy_player ca newCA i k) (λ _, True).
Proof.
  unfold copy_player. eapply keeps_logs_bind with (P := λ _, True).
  - by apply keeps_logs_on_addrs.
  - intros _ _. by apply keeps_logs_on_signers.
Qed.

(** A computation that records, followed by one that does not. *)
Lemma records_then_keeps {R R' : Type} (c : M R) (k : R → M R') f (Q : R' → Prop) :
  records c f (λ _, True) → (∀ r, keeps_logs (k r) Q) → records (bind c k) f Q.
Proof.
  intros Hc Hk st. unfold bind. destruct (Hc st) as [Hlogs _].
  destruct (c st) as [[r|] st']; cbn in *; [|done].
  destruct (Hk r st') as [Hlogs' HQ]. split; [congruence|done].
Qed.

Lemma records_Call_Add (p : nat) (args : list arg) :
  records (Call_Add (Some p) args) (alter (λ calls, calls ++ [args]) p) (λ _, True).
Proof. by intros st. Qed.

(** X10: [Apply] records exactly one call, [("apply", cs)], at the end of the log
    of the receiver's recorder, before anything else and so even when it
    panics afterwards; without a recorder it records nothing.  [Take] never
    records.  The roster that either returns has the receiver's recorder. *)
Theorem Apply_records_its_call spare (ca : CollectiveAuthority) (st : state) :
  (∀ cs,
     let out := Apply spare ca cs st in
     call_logs out.2
     = match Call ca with
       | Some p => alter (λ calls, calls ++ [apply_record cs]) p (call_logs st)
       | None => call_logs st
       end
     ∧ ∀ r, out.1 = Some r → Call r = Call ca)
  ∧ (∀ Indices,
       let out := Take ca Indices st in
       call_logs out.2 = call_logs st ∧ ∀ r, out.1 = Some r → Call r = Call ca).
Proof.
  split.
  - intros cs out. subst out.
    assert (Hrec : records (Apply spare ca cs)
                     (match Call ca with
                      | Some p => alter (λ calls, calls ++ [apply_record cs]) p
                      | None => λ logs, logs
                      end)
                     (λ r, Call r = Call ca)).
    { unfold Apply. apply records_then_keeps.
      { destruct (Call ca) as [p|]; [apply records_Call_Add|by apply keeps_logs_ret]. }
      intros _.
      eapply keeps_logs_bind with (P := λ _, True); [by apply keeps_logs_on_addrs|].
      intros na _.
      eapply keeps_logs_bind with (P := λ _, True); [by apply keeps_logs_on_signers|].
      intros ns _. cbn zeta.
      eapply keeps_logs_bind with (P := λ _, True).
      { apply keeps_logs_for_each; [done|]. intros i _ _. apply keeps_logs_copy_player. }
      intros _ _.
      eapply keeps_logs_bind with (P := λ r, Call r = Call ca).
      { apply keeps_logs_for_each; [done|]. intros player nA HnA.
        eapply keeps_logs_bind with (P := λ _, True); [by apply keeps_logs_on_addrs|].
        intros addrs' _.
        eapply keeps_logs_bind with (P := λ _, True); [by apply keeps_logs_on_signers|].
        intros signers' _. by apply keeps_logs_ret. }
      intros nA HnA.
      apply keeps_logs_for_each; [done|]. intros i nA' HnA'.
      eapply keeps_logs_bind with (P := λ _, True); [by apply keeps_logs_on_addrs|].
      intros addrs' _.
      eapply keeps_logs_bind with (P := λ _, True); [by apply keeps_logs_on_signers|].
      intros signers' _. by apply keeps_logs_ret. }
    destruct (Hrec st) as [Hlogs Hr]. split; [|exact Hr].
    rewrite Hlogs. by destruct (Call ca).
  - intros Indices out. subst out.
    assert (Hk : keeps_logs (Take ca Indices) (λ r, Call r = Call ca)).
    { unfold Take.
      eapply keeps_logs_bind with (P := λ _, True); [by apply keeps_logs_on_addrs|].
      intros na _.
      eapply keeps_logs_bind with (P := λ _, True); [by apply keeps_logs_on_signers|].
      intros ns _. cbn zeta.
      eapply keeps_logs_bind with (P := λ _, True).
      { apply keeps_logs_for_each; [done|]. intros [i k] _ _.
        apply keeps_logs_copy_player. }
      intros _ _. by apply keeps_logs_ret. }
    apply (Hk st).
Qed.

End RecordingProofs.

(** ** Iterators share the array of their roster *)

Module SharedIteratorProofs.
Import Mem MemProofs RefinementProofs Recording IteratorProofs.

Local Open Scope Z_scope.

(** Reading through the shared array gives what the value-level iterator
    gives on the elements that the slice shows, and writes nothing. *)
Lemma GetNext_view (st : state) (i : AddressIterator) :
  valid (addr_arrays st) (it_addrs i) →
  GetNext i st
  = ((λ '(a, fi), (a, {| it_addrs := it_addrs i; it_index := Fake.it_index fi |}))
       <$> Fake.GetNext (view_iterator st i),
     st).
Proof.
  intros Hvalid. unfold GetNext, Fake.GetNext, HasNext, Fake.HasNext.
  cbn [view_iterator Fake.it_addrs Fake.it_index].
  rewrite (contents_length _ _ Hvalid).
  case_bool_decide as Hnext; [|by destruct i].
  cbn [it_addrs it_index]. unfold bind, on_addrs, nat_index, Fake.index_Z.
  case_bool_decide; [|reflexivity]. cbn [mbind option_bind].
  rewrite load_contents.
  destruct (contents (addr_arrays st) (it_addrs i) !! _) as [a|]; [|reflexivity].
  cbn. by destruct st.
Qed.

Lemma GetNext_times_view (st : state) (k : nat) (i : AddressIterator) :
  valid (addr_arrays st) (it_addrs i) →
  GetNext_times k i st
  = ((λ '(l, fi), (l, {| it_addrs := it_addrs i; it_index := Fake.it_index fi |}))
       <$> Fake.GetNext_times k (view_iterator st i),
     st).
Proof.
  revert i. induction k as [|k IH]; intros i Hvalid.
  - cbn. by destruct i.
  - cbn [GetNext_times Fake.GetNext_times]. unfold bind at 1.
    rewrite GetNext_view by done.
    assert (Hsame : ∀ a fi, Fake.GetNext (view_iterator st i) = Some (a, fi) →
              view_iterator st {| it_addrs := it_addrs i; it_index := Fake.it_index fi |}
              = fi).
    { intros a fi. unfold Fake.GetNext, view_iterator. cbn.
      case_match; [|by intros [= <- <-]].
      destruct (Fake.index_Z _ _); [|done]. cbn. by intros [= <- <-]. }
    destruct (Fake.GetNext (view_iterator st i)) as [[a fi]|] eqn:Hnext; [|reflexivity].
    cbn [fmap option_fmap option_map mbind option_bind]. unfold bind at 1.
    rewrite IH by done. cbn [it_addrs]. rewrite (Hsame a fi eq_refl).
    by destruct (Fake.GetNext_times k fi) as [[rest fi']|].
Qed.

(** Any number of calls on the value-level iterator: the elements that are
    left, then nil. *)
Lemma GetNext_times_any (l : list Fake.mino_Address) (k i : nat) :
  Z.of_nat (length l) < 2 ^ 63 →
  (i ≤ length l)%nat →
  Fake.GetNext_times k (Fake.iterator_at l i)
  = Some (take k (drop i l) ++ replicate (k - (length l - i)) None,
          Fake.iterator_at l ((i + k) `min` length l)).
Proof.
  intros Hint. revert i. induction k as [|k IH]; intros i Hi.
  - cbn. rewrite take_0. cbn. do 3 f_equal. lia.
  - cbn [Fake.GetNext_times].
    destruct (decide (i < length l)%nat) as [Hlt|Hge].
    + destruct (lookup_lt_is_Some_2 l i Hlt) as [a Ha].
      rewrite (GetNext_iterator_at _ _ a) by (done || lia). cbn [mbind option_bind].
      rewrite IH by lia. cbn [mbind option_bind].
      rewrite (drop_S _ _ _ Ha). cbn [take app].
      do 3 f_equal; [f_equal; f_equal; lia|f_equal; lia].
    + rewrite GetNext_exhausted by lia. cbn [mbind option_bind].
      rewrite IH by lia. cbn [mbind option_bind].
      rewrite !drop_ge by lia. rewrite !take_nil. cbn [app].
      replace (S k - (length l - i))%nat with (S (k - (length l - i))) by lia.
      cbn [replicate]. do 3 f_equal. lia.
Qed.

(** What an iterator over the roster yields in a memory that preserves the
    arrays of [st]. *)
Lemma iterate_preserved (st st' : state) (ca : CollectiveAuthority) (k : nat) :
  valid_authority st ca →
  Z.of_nat (len (addrs ca)) < 2 ^ 63 →
  state_preserved st st' →
  let out := GetNext_times k (new_AddressIterator ca) st' in
  out.2 = st'
  ∧ fst <$> out.1
    = Some (take k (Fake.addrs (view st ca))
            ++ replicate (k - len (addrs ca)) None).
Proof.
  intros [Hva Hvs] Hint [Hpa Hps] out. subst out.
  assert (Hva' : valid (addr_arrays st') (addrs ca)) by (by eapply valid_preserved).
  rewrite GetNext_times_view by done. split; [reflexivity|]. cbn [fst].
  assert (Hview : view_iterator st' (new_AddressIterator ca)
                  = Fake.iterator_at (Fake.addrs (view st ca)) 0).
  { unfold view_iterator, Fake.iterator_at. cbn.
    by rewrite (contents_preserved _ _ _ Hpa (valid_in_store _ _ Hva)). }
  rewrite Hview. cbn [view Fake.addrs].
  pose proof (contents_length _ _ Hva) as Hlen.
  rewrite GetNext_times_any by lia. cbn. rewrite Hlen, Nat.sub_0_r. reflexivity.
Qed.

(** X11: an iterator shares the array of its roster and still yields the roster
    as it was: in the memory that [Apply] or [Take] leaves, whether they
    returned or panicked, the first calls of [GetNext] return the addresses
    of the receiver in order and the later ones nil, and the iteration
    writes nothing. *)
Theorem AddressIterator_after_Apply spare (ca : CollectiveAuthority) (st : state)
    (k : nat) :
  valid_authority st ca →
  Z.of_nat (len (addrs ca)) < 2 ^ 63 →
  let yields (st' : state) :=
    let out := GetNext_times k (new_AddressIterator ca) st' in
    out.2 = st'
    ∧ fst <$> out.1
      = Some (take k (Fake.addrs (view st ca))
              ++ replicate (k - len (addrs ca)) None) in
  (∀ cs, yields (Apply spare ca cs st).2)
  ∧ (∀ Indices, yields (Take ca Indices st).2).
Proof.
  intros Hvalid Hint yields. subst yields. cbn beta. split.
  - intros cs. apply iterate_preserved; [done|done|].
    apply (Apply_keeps st spare ca cs st (state_preserved_refl st)).
  - intros Indices. apply iterate_preserved; [done|done|].
    apply (Take_keeps st ca Indices st (state_preserved_refl st)).
Qed.

Lemma AddressIterator_after_Apply_witness :
  let yields (st' : state) :=
    let out := GetNext_times 4 (new_AddressIterator sample_authority) st' in
    out.2 = st'
    ∧ fst <$> out.1
      = Some (take 4 (Fake.addrs (view sample_state sample_authority))
              ++ replicate (4 - len (addrs sample_authority)) None) in
  (∀ cs, yields (Apply sample_spare sample_authority cs sample_state).2)
  ∧ (∀ Indices, yields (Take sample_authority Indices sample_state).2).
Proof.
  apply (AddressIterator_after_Apply sample_spare sample_authority sample_state 4).
  - split; split; cbn; lia.
  - vm_compute. reflexivity.
Defined.

End SharedIteratorProofs.

(** ** The fake hash *)

Module HashingProofs.
Import Fake Recorder Hashing IteratorProofs.

Local Open Scope Z_scope.

Lemma writes_cons (h : Hash) (input : list byte) (inputs : list (list byte)) :
  writes h (input :: inputs)
  = ((Write h input).1 :: (writes (Write h input).2 inputs).1,
     (writes (Write h input).2 inputs).2).
Proof.
  cbn [writes]. destruct (Write h input) as [r h1]. cbn.
  by destruct (writes h1 inputs).
Qed.

(** X12: a hash made with a delay lets that many writes through and fails every
    write after them with its error; a hash without delay fails from the
    first write on.  No write ever reports a byte written, the delay counts
    down to zero and stays there, and every write, failed or not, is recorded
    in order when the hash has a recorder. *)
Theorem Write_fails_after_delay (h : Hash) (inputs : list (list byte)) :
  delay h < 2 ^ 63 →
  let d := Z.to_nat (delay h) in
  let k := length inputs in
  (writes h inputs).1
  = replicate (k `min` d) (0, None) ++ replicate (k - d) (0, hash_err h)
  ∧ delay (writes h inputs).2
    = (if bool_decide (0 < delay h) then Z.max 0 (delay h - Z.of_nat k) else delay h)
  ∧ hash_err (writes h inputs).2 = hash_err h
  ∧ hash_Call (writes h inputs).2
    = foldl Add (hash_Call h) ((λ input, [Some input]) <$> inputs).
Proof.
  revert h. induction inputs as [|input inputs IH]; intros h Hd d k.
  - subst d k. cbn. repeat split. case_bool_decide; lia.
  - subst d k. rewrite writes_cons. cbn [fst snd length].
    assert (Hcall : hash_Call (Write h input).2 = Add (hash_Call h) [Some input]).
    { unfold Write. destruct (hash_Call h); by case_bool_decide. }
    assert (Herr : hash_err (Write h input).2 = hash_err h).
    { unfold Write. by case_bool_decide. }
    destruct (decide (0 < delay h)) as [Hpos|Hzero].
    + assert (Hdelay : delay (Write h input).2 = delay h - 1).
      { unfold Write. rewrite bool_decide_eq_true_2 by done. cbn.
        assert (Hp : 0 < 2 ^ 63) by reflexivity. apply int_wrap_small. lia. }
      assert (Hres : (Write h input).1 = (0, None)).
      { unfold Write. by rewrite bool_decide_eq_true_2. }
      destruct (IH (Write h input).2) as (Hrs & Hd' & He & Hc); [rewrite Hdelay; lia|].
      rewrite Hrs, Hd', He, Hc, Hres, Hdelay, Herr, Hcall.
      rewrite (bool_decide_eq_true_2 (0 < delay h)) by done.
      replace (Z.to_nat (delay h)) with (S (Z.to_nat (delay h - 1))) by lia.
      cbn [Nat.min Nat.sub replicate app foldl fmap list_fmap].
      split; [reflexivity|]. split; [|done].
      clear -Hpos. case_bool_decide; lia.
    + assert (Hdelay : delay (Write h input).2 = delay h).
      { unfold Write. by rewrite bool_decide_eq_false_2. }
      assert (Hres : (Write h input).1 = (0, hash_err h)).
      { unfold Write. by rewrite bool_decide_eq_false_2. }
      destruct (IH (Write h input).2) as (Hrs & Hd' & He & Hc); [rewrite Hdelay; lia|].
      rewrite Hrs, Hd', He, Hc, Hres, Hdelay, Herr, Hcall.
      rewrite !(bool_decide_eq_false_2 (0 < delay h)) by done.
      replace (Z.to_nat (delay h)) with 0%nat by lia.
      rewrite !Nat.min_0_r, !Nat.sub_0_r. cbn. done.
Qed.

Lemma Write_fails_after_delay_witness :
  let h := {| delay := 2; hash_err := xerrors_New "fake error";
              hash_Call := Some {| calls := [] |} |} in
  let inputs := [[x01]; [x02]; [x03]] in
  (writes h inputs).1
  = replicate (3 `min` 2) (0, None) ++ replicate (3 - 2) (0, hash_err h)
  ∧ delay (writes h inputs).2
    = (if bool_decide (0 < delay h) then Z.max 0 (delay h - 3) else delay h)
  ∧ hash_err (writes h inputs).2 = hash_err h
  ∧ hash_Call (writes h inputs).2
    = foldl Add (hash_Call h) ((λ input, [Some input]) <$> inputs).
Proof.
  intros h inputs. apply (Write_fails_after_delay h inputs). vm_compute. reflexivity.
Defined.

(** X13: a factory hands out the same hash at every call of [New]: writes through
    the hashes it returns are writes to that one hash, so they share its
    delay, and no other hash of the memory changes.  A factory made from a
    nil hash hands out a hash whose first write panics. *)
Theorem HashFactory_shares_one_hash (heap : hashes) (p : nat) (h : Hash)
    (inputs : list (list byte)) :
  heap !! p = Some h →
  writes_through (NewHashFactory (Some p)) inputs heap
  = Some ((writes h inputs).1, <[p := (writes h inputs).2]> heap)
  ∧ ∀ input, writes_through (NewHashFactory None) (input :: inputs) heap = None.
Proof.
  intros Hp. split; [|done].
  revert heap h Hp. induction inputs as [|input inputs IH]; intros heap h Hp.
  - cbn. by rewrite list_insert_id.
  - rewrite writes_cons. cbn [writes_through New NewHashFactory hash].
    unfold Write_at. cbn [mbind option_bind]. rewrite Hp. cbn [mbind option_bind].
    destruct (Write h input) as [r h1] eqn:Hw. cbn [mbind option_bind fst snd].
    rewrite (IH (<[p:=h1]> heap) h1).
    + cbn. by rewrite list_insert_insert_eq.
    + apply list_lookup_insert_eq. by eapply lookup_lt_Some.
Qed.

Lemma HashFactory_shares_one_hash_witness :
  let made := NewBadHashWithDelay 1 [] in
  let inputs := [[x01]; [x02]] in
  ∃ h, made.2 !! 0%nat = Some h
       ∧ writes_through (NewHashFactory made.1) inputs made.2
         = Some ((writes h inputs).1, <[0%nat := (writes h inputs).2]> made.2)
       ∧ ∀ input, writes_through (NewHashFactory None) (input :: inputs) made.2 = None.
Proof.
  intros made inputs. eexists. split; [reflexivity|].
  apply (HashFactory_shares_one_hash made.2 0). reflexivity.
Defined.

End HashingProofs.

(** ** The text codec of addresses *)

Module CodecProofs.
Import Fake AddressProofs.

Local Open Scope Z_scope.

Lemma Z_of_byte_range (b : byte) : 0 ≤ Z_of_byte b < 256.
Proof.
  unfold Z_of_byte. pose proof (Byte.to_N_bounded b) as Hb. lia.
Qed.

Lemma byte_of_Z_mod (z : Z) (b : byte) : z mod 256 = Z_of_byte b → byte_of_Z z = b.
Proof.
  intros Hz. unfold byte_of_Z. rewrite Hz. unfold Z_of_byte.
  by rewrite N2Z.id, Byte.of_to_N.
Qed.

(** A byte put above [n] low bits. *)
Lemma lor_shiftl_add (a b n : Z) :
  0 ≤ n → 0 ≤ a < 2 ^ n → Z.lor a (Z.shiftl b n) = a + b * 2 ^ n.
Proof.
  intros Hn Ha. rewrite Z.shiftl_mul_pow2 by done.
  assert (Hland : Z.land a (b * 2 ^ n) = 0).
  { apply Z.bits_inj'. intros k Hk. rewrite Z.land_spec, Z.bits_0.
    destruct (decide (k < n)) as [Hlt|Hge].
    - rewrite Z.mul_pow2_bits_low by lia. apply andb_false_r.
    - destruct (decide (a = 0)) as [->|Hne]; [by rewrite Z.bits_0|].
      rewrite (Z.bits_above_log2 a k); [done|lia|].
      apply Z.log2_lt_pow2; [lia|].
      eapply Z.lt_le_trans; [apply Ha|]. apply Z.pow_le_mono_r; lia. }
  rewrite <- Z.lxor_lor by done. symmetry. by apply Z.add_nocarry_lxor.
Qed.

(** The number that [Uint32] reads, as a sum. *)
Lemma Uint32_sum (b0 b1 b2 b3 : byte) (rest : list byte) :
  Uint32 (b0 :: b1 :: b2 :: b3 :: rest)
  = Some (Z_of_byte b0 + (Z_of_byte b1 + (Z_of_byte b2 + Z_of_byte b3 * 256) * 256) * 256).
Proof.
  unfold Uint32. f_equal.
  pose proof (Z_of_byte_range b0). pose proof (Z_of_byte_range b1).
  pose proof (Z_of_byte_range b2). pose proof (Z_of_byte_range b3).
  change 16 with (8 + 8). change 24 with (8 + 8 + 8).
  rewrite <- !Z.shiftl_shiftl by lia.
  rewrite <- !Z.shiftl_lor.
  rewrite !lor_shiftl_add by (done || (change (2 ^ 8) with 256; lia)).
  reflexivity.
Qed.

Lemma PutUint32_sum (b0 b1 b2 b3 : byte) :
  PutUint32 (Z_of_byte b0 + (Z_of_byte b1 + (Z_of_byte b2 + Z_of_byte b3 * 256) * 256) * 256)
  = [b0; b1; b2; b3].
Proof.
  pose proof (Z_of_byte_range b0). pose proof (Z_of_byte_range b1).
  pose proof (Z_of_byte_range b2). pose proof (Z_of_byte_range b3).
  unfold PutUint32. rewrite !Z.shiftr_div_pow2 by lia.
  change (2 ^ 8) with 256. change (2 ^ 16) with 65536. change (2 ^ 24) with 16777216.
  repeat f_equal; apply byte_of_Z_mod; Z.div_mod_to_equations; lia.
Qed.

(** X14: the factory never panics and never fails: a text of at most four bytes
    gives the zero address, a longer one the address whose index its first
    four bytes spell in little-endian order, a number below [2^32].  Encoding
    the address that the factory made from a longer text gives these four
    bytes back. *)
Theorem FromText_total (text : list byte) :
  ∃ a, FromText text = Some a
       ∧ 0 ≤ index a < 2 ^ 32
       ∧ err a = None
       ∧ ((length text ≤ 4)%nat → a = NewAddress 0)
       ∧ ((4 < length text)%nat → MarshalText a = (take 4 text, None)).
Proof.
  unfold FromText. case_bool_decide as Hlen.
  - destruct text as [|b0 [|b1 [|b2 [|b3 rest]]]]; try (cbn in Hlen; lia).
    rewrite Uint32_sum. cbn [mbind option_bind].
    eexists. split; [reflexivity|]. cbn [index err].
    pose proof (Z_of_byte_range b0). pose proof (Z_of_byte_range b1).
    pose proof (Z_of_byte_range b2). pose proof (Z_of_byte_range b3).
    assert (H32 : 2 ^ 32 = 4294967296) by reflexivity.
    split; [lia|]. split; [done|]. split; [lia|]. intros _.
    unfold MarshalText, uint32. cbn [index err fst].
    rewrite Z.mod_small by lia. by rewrite PutUint32_sum.
  - eexists. split; [reflexivity|]. cbn.
    split; [lia|]. split; [done|]. split; [done|lia].
Qed.

(** X15: the text of an address tells its index modulo [2^32], and nothing else:
    it is always four bytes long and comes with the error of the address, and
    two addresses have the same text exactly when their indices agree modulo
    [2^32].  Among addresses with an index below [2^32], as the factory makes
    them, the text is the same exactly for addresses that are [Equal]. *)
Theorem MarshalText_tells_index (a b : Address) :
  length (MarshalText a).1 = 4%nat
  ∧ (MarshalText a).2 = err a
  ∧ ((MarshalText a).1 = (MarshalText b).1 ↔ index a mod 2 ^ 32 = index b mod 2 ^ 32)
  ∧ (0 ≤ index a < 2 ^ 32 → 0 ≤ index b < 2 ^ 32 →
     ((MarshalText a).1 = (MarshalText b).1 ↔ Address_Equal a (Some b) = true)).
Proof.
  split; [reflexivity|]. split; [reflexivity|].
  assert (Hiff : (MarshalText a).1 = (MarshalText b).1
                 ↔ index a mod 2 ^ 32 = index b mod 2 ^ 32).
  { unfold MarshalText, uint32. cbn [fst]. split; [|by intros ->].
    intros Heq. apply (f_equal Uint32) in Heq.
    rewrite !Uint32_PutUint32 in Heq by (by apply Z.mod_pos_bound).
    by injection Heq. }
  split; [exact Hiff|]. intros Ha Hb. rewrite Hiff.
  rewrite !Z.mod_small by done.
  unfold Address_Equal. rewrite bool_decide_eq_true. split; congruence.
Qed.

End CodecProofs.

(** ** Printing an address *)

Module PrintingProofs.
Import Fake Printing.

Local Open Scope string_scope.

Lemma length_append (s t : string) :
  String.length (s ++ t) = (String.length s + String.length t)%nat.
Proof. induction s as [|c s IH]; cbn; [done|]. by rewrite IH. Qed.

Lemma append_inj_l (s1 s2 t : string) : s1 ++ t = s2 ++ t → s1 = s2.
Proof.
  revert s2. induction s1 as [|c s1 IH]; intros [|c2 s2] Heq.
  - done.
  - apply (f_equal String.length) in Heq. cbn in Heq. rewrite length_append in Heq. lia.
  - apply (f_equal String.length) in Heq. cbn in Heq. rewrite length_append in Heq. lia.
  - cbn in Heq. injection Heq as -> Heq. f_equal. by apply IH.
Qed.

Lemma Sprintf_d_inj (x y : Z) : Sprintf_d x = Sprintf_d y → x = y.
Proof.
  unfold Sprintf_d. intros Heq.
  apply (f_equal NilEmpty.int_of_string) in Heq.
  rewrite !NilEmpty.isi in Heq. injection Heq as Heq.
  by apply DecimalZ.to_int_inj.
Qed.

(** X16: [String] tells addresses apart as [Equal] does: two addresses print the
    same exactly when they are [Equal], whatever their errors. *)
Theorem Address_String_tells_Equal (a b : Address) :
  Address_String a = Address_String b ↔ Address_Equal a (Some b) = true.
Proof.
  unfold Address_Equal. rewrite bool_decide_eq_true.
  unfold Address_String. split.
  - intros Heq. cbn in Heq. injection Heq as Heq.
    apply append_inj_l, Sprintf_d_inj in Heq. congruence.
  - by intros ->.
Qed.

End PrintingProofs.

(** ** The nonces of the e-voting client, without bound *)

Module NonceProofs.
Import Evoting EvotingProofs Controller.

Local Open Scope Z_scope.

Section GetNonce.
Context {Identity : Type}.

Lemma uint64_wrap_succ (z : Z) : uint64_wrap (uint64_wrap z + 1) = uint64_wrap (z + 1).
Proof.
  unfold uint64_wrap, uint64_modulus.
  rewrite Zplus_mod_idemp_l. reflexivity.
Qed.

Lemma calls_from (n : Z) (ids : list Identity) :
  (calls {| nonce := uint64_wrap n |} ids).1
  = imap (λ i _, (uint64_wrap (n + Z.of_nat i), None)) ids
  ∧ nonce (calls {| nonce := uint64_wrap n |} ids).2
    = uint64_wrap (n + Z.of_nat (length ids)).
Proof.
  revert n. induction ids as [|id ids IH]; intros n.
  - cbn. by rewrite Z.add_0_r.
  - cbn [calls GetNonce nonce]. rewrite uint64_wrap_succ.
    destruct (IH (n + 1)) as [Hrs Hn].
    destruct (calls {| nonce := uint64_wrap (n + 1) |} ids) as [rs c2].
    cbn [fst snd] in *. rewrite Hrs, Hn. cbn [imap length]. split.
    + rewrite Z.add_0_r. f_equal. apply imap_ext. intros i x _. cbn.
      do 2 f_equal. lia.
    + f_equal. lia.
Qed.

(** X17: however many calls are made, the [i]-th call of [GetNonce] returns the
    initial nonce plus [i] modulo [2^64], with a nil error, and each call
    leaves the nonce it returned plus one, modulo [2^64], in the client: the
    nonces repeat after [2^64] calls. *)
Theorem GetNonce_counts_modulo (c : client) (ids : list Identity) :
  0 ≤ nonce c < uint64_modulus →
  (calls c ids).1 = imap (λ i _, (uint64_wrap (nonce c + Z.of_nat i), None)) ids
  ∧ nonce (calls c ids).2 = uint64_wrap (nonce c + Z.of_nat (length ids))
  ∧ ∀ i j r r', Z.of_nat j = Z.of_nat i + uint64_modulus →
                (calls c ids).1 !! i = Some r → (calls c ids).1 !! j = Some r' →
                r = r'.
Proof.
  intros Hc.
  assert (Hsame : c = {| nonce := uint64_wrap (nonce c) |}).
  { rewrite uint64_wrap_small by done. by destruct c. }
  destruct (calls_from (nonce c) ids) as [Hrs Hn]. rewrite <- Hsame in Hrs, Hn.
  split; [exact Hrs|]. split; [exact Hn|].
  intros i j r r' Hij. rewrite Hrs, !list_lookup_imap.
  destruct (ids !! i); [|done]. destruct (ids !! j); [|done]. cbn.
  intros [= <-] [= <-]. f_equal. rewrite Hij. unfold uint64_wrap.
  replace (nonce c + (Z.of_nat i + uint64_modulus))
    with (nonce c + Z.of_nat i + 1 * uint64_modulus) by lia.
  by rewrite Z.mod_add.
Qed.

End GetNonce.

(** The client of the e-voting commands starts at 1: its first three nonces
    are 1, 2 and 3. *)
Lemma GetNonce_counts_modulo_witness :
  (calls SetCommands_client [(); (); ()]).1
  = imap (λ i _, (uint64_wrap (nonce SetCommands_client + Z.of_nat i), None))
         [(); (); ()]
  ∧ nonce (calls SetCommands_client [(); (); ()]).2
    = uint64_wrap (nonce SetCommands_client + Z.of_nat 3)
  ∧ ∀ i j r r', Z.of_nat j = Z.of_nat i + uint64_modulus →
                (calls SetCommands_client [(); (); ()]).1 !! i = Some r →
                (calls SetCommands_client [(); (); ()]).1 !! j = Some r' →
                r = r'.
Proof. apply (GetNonce_counts_modulo SetCommands_client [(); (); ()]). done. Defined.

End NonceProofs.

(** ** The outcomes of the change set engine *)

Module JsonErrorProofs.
Import Json JsonProofs.

Section changeSetFormat.
Context {mino_Address crypto_PublicKey : Type}.
Variable Address_MarshalText : mino_Address → list byte * error.
Variable PublicKey_Serialize : crypto_PublicKey → list byte * error.
Variable ctx_Marshal : ChangeSet → list byte * error.
Variable ctx_Unmarshal : list byte → ChangeSet * error.
Variable ctx_GetFactory : factory_key → serde_Factory mino_Address crypto_PublicKey.

Lemma Encode_players_failed (players : list (roster_Player mino_Address crypto_PublicKey))
    (add : list Player) (e : string) :
  Encode_players Address_MarshalText PublicKey_Serialize players = (add, Some e) →
  add = [].
Proof.
  destruct players as [|p players]; [done|]. cbn.
  destruct (Address_MarshalText _) as [addr [ea|]]; [by intros [= <- _]|].
  destruct (PublicKey_Serialize _) as [pubkey [ep|]]; [by intros [= <- _]|].
  destruct (Encode_players _ _ players) as [add' [e'|]]; by intros [= <-].
Qed.

Lemma Encode_players_prefix (ok rest : list (roster_Player mino_Address crypto_PublicKey)) :
  Forall (RosterJson.player_marshals Address_MarshalText PublicKey_Serialize) ok →
  Encode_players Address_MarshalText PublicKey_Serialize (ok ++ rest)
  = match Encode_players Address_MarshalText PublicKey_Serialize rest with
    | (add, None) =>
        ((RosterJson.encoded Address_MarshalText PublicKey_Serialize <$> ok) ++ add, None)
    | (_, Some e) => ([], Some e)
    end.
Proof.
  induction 1 as [|p ok [Ha Hp] _ IH]; cbn [app fmap list_fmap].
  - destruct (Encode_players _ _ rest) as [add [e|]] eqn:Hrest; [|done].
    by rewrite (Encode_players_failed _ _ _ Hrest).
  - cbn [Encode_players]. rewrite IH.
    unfold RosterJson.encoded, RosterJson.encoded_player.
    destruct (Address_MarshalText (roster_Address p)) as [addr erra]. cbn in Ha.
    destruct (PublicKey_Serialize (roster_PublicKey p)) as [pubkey errp]. cbn in Hp.
    subst erra errp. by destruct (Encode_players _ _ rest) as [add [e|]].
Qed.

(** X18: the outcomes of [Encode].  A message that is not a change set is
    refused.  The added players are encoded in order, the address of a player
    before its public key, and the first failure ends the call with its
    error, whatever follows.  When every player encodes, the codec of the
    context is given the removal indices as they are and the encoded players,
    and its error, if any, is the error of the call.  Data is only ever
    returned with a nil error. *)
Theorem Encode_outcomes :
  (∀ T, Encode Address_MarshalText PublicKey_Serialize ctx_Marshal (other_Message T)
        = ([], Errorf_T "unsupported message of type" T))
  ∧ (∀ cset ok bad rest e,
       elems (roster_Add cset) = ok ++ bad :: rest →
       Forall (RosterJson.player_marshals Address_MarshalText PublicKey_Serialize) ok →
       ((Address_MarshalText (roster_Address bad)).2 = Some e →
        Encode Address_MarshalText PublicKey_Serialize ctx_Marshal (ChangeSet_Message cset)
        = ([], Errorf "couldn't serialize address" e))
       ∧ ((Address_MarshalText (roster_Address bad)).2 = None →
          (PublicKey_Serialize (roster_PublicKey bad)).2 = Some e →
          Encode Address_MarshalText PublicKey_Serialize ctx_Marshal (ChangeSet_Message cset)
          = ([], Errorf "couldn't serialize public key" e)))
  ∧ (∀ cset,
       Forall (RosterJson.player_marshals Address_MarshalText PublicKey_Serialize)
         (elems (roster_Add cset)) →
       let m := {| Remove := roster_Remove cset;
                   Add := Some (RosterJson.encoded Address_MarshalText PublicKey_Serialize
                                  <$> elems (roster_Add cset)) |} in
       Encode Address_MarshalText PublicKey_Serialize ctx_Marshal (ChangeSet_Message cset)
       = match (ctx_Marshal m).2 with
         | Some e => ([], Errorf "couldn't marshal" e)
         | None => ((ctx_Marshal m).1, None)
         end)
  ∧ (∀ msg, (Encode Address_MarshalText PublicKey_Serialize ctx_Marshal msg).2 ≠ None →
            (Encode Address_MarshalText PublicKey_Serialize ctx_Marshal msg).1 = []).
Proof.
  split; [done|]. split; [|split].
  - intros cset ok bad rest e Hadd Hok.
    unfold Encode, Encode_message. rewrite Hadd, Encode_players_prefix by done.
    cbn [Encode_players].
    destruct (Address_MarshalText (roster_Address bad)) as [addr erra].
    destruct (PublicKey_Serialize (roster_PublicKey bad)) as [pubkey errp].
    cbn [snd]. split.
    + by intros ->.
    + by intros -> ->.
  - intros cset Hall m. subst m.
    unfold Encode, Encode_message.
    pose proof (Encode_players_prefix _ [] Hall) as Hp. rewrite app_nil_r in Hp.
    rewrite Hp. cbn [Encode_players]. rewrite app_nil_r.
    by destruct (ctx_Marshal _) as [data [e|]].
  - intros [cset|T] Herr; [|done].
    unfold Encode in *. destruct (Encode_message _ _ cset) as [m [e|]]; [done|].
    by destruct (ctx_Marshal m) as [data [e|]].
Qed.

Lemma Decode_players_result
    (FromText : list byte → mino_Address)
    (PublicKeyOf : list byte → crypto_PublicKey * error) (players : list Player) :
  match Decode_players FromText PublicKeyOf players with
  | (add, None) => length add = length players
  | (add, Some _) => add = []
  end.
Proof.
  induction players as [|p players IH]; [done|]. cbn.
  destruct (PublicKeyOf (PublicKey p)) as [pubkey [e|]]; [done|].
  destruct (Decode_players FromText PublicKeyOf players) as [add [e|]]; [done|].
  cbn. by f_equal.
Qed.

(** X19: what [Decode] returns is a change set with a nil error, or no message
    with an error, never both and never neither.  A change set comes only
    from data that the codec reads without error and under factories of the
    two expected kinds; it carries the removal indices of the message as they
    are and as many added players as the message, and its [Add] is nil,
    rather than empty, exactly when the message adds nobody. *)
Theorem Decode_result (data : list byte) :
  match Decode ctx_Unmarshal ctx_GetFactory data with
  | (Some (ChangeSet_Message cset), None) =>
      ∃ m pkFac PublicKeyOf addrFac FromText,
        ctx_Unmarshal data = (m, None)
        ∧ ctx_GetFactory PubKeyFac = PublicKeyFactory pkFac PublicKeyOf
        ∧ ctx_GetFactory AddrKeyFac = AddressFactory addrFac FromText
        ∧ roster_Remove cset = Remove m
        ∧ len (roster_Add cset) = len (Add m)
        ∧ (len (Add m) = 0 ↔ roster_Add cset = None)
  | (None, Some _) => True
  | _ => False
  end.
Proof.
  unfold Decode. destruct (ctx_Unmarshal data) as [m [e|]] eqn:Hm; [done|].
  destruct (ctx_GetFactory PubKeyFac) as [pkFac PublicKeyOf| |]; [|done..].
  destruct (ctx_GetFactory AddrKeyFac) as [|addrFac FromText|]; [done| |done].
  case_bool_decide as Hzero.
  - exists m, pkFac, PublicKeyOf, addrFac, FromText. cbn. by rewrite Hzero.
  - pose proof (Decode_players_result FromText PublicKeyOf (elems (Add m))) as Hres.
    destruct (Decode_players FromText PublicKeyOf (elems (Add m))) as [add [e|]]; [done|].
    exists m, pkFac, PublicKeyOf, addrFac, FromText. cbn. unfold len in *. cbn.
    do 4 (split; [done|]). split; [done|]. split; [done|done].
Qed.

(** A factory of the wrong kind is named in the error by its own type, the
    factory of public keys being looked at first. *)
Lemma Decode_wrong_factory (data : list byte) (m : ChangeSet) (T : string) :
  ctx_Unmarshal data = (m, None) →
  (ctx_GetFactory PubKeyFac = other_Factory T
   ∨ (∃ FromText, ctx_GetFactory PubKeyFac = AddressFactory T FromText) →
   Decode ctx_Unmarshal ctx_GetFactory data
   = (None, Errorf_T "invalid public key factory of type" T))
  ∧ ((∃ pkFac PublicKeyOf, ctx_GetFactory PubKeyFac = PublicKeyFactory pkFac PublicKeyOf) →
     ctx_GetFactory AddrKeyFac = other_Factory T
     ∨ (∃ PublicKeyOf, ctx_GetFactory AddrKeyFac = PublicKeyFactory T PublicKeyOf) →
     Decode ctx_Unmarshal ctx_GetFactory data
     = (None, Errorf_T "invalid address factory of type" T)).
Proof.
  intros Hm. unfold Decode. rewrite Hm. split.
  - by intros [->|[FromText ->]].
  - by intros (pkFac & PublicKeyOf & ->) [->|[PublicKeyOf' ->]].
Qed.

End changeSetFormat.

End JsonErrorProofs.

(** ** The round trip of rosters through JSON *)

Module RosterJsonProofs.
Import Json RosterJson.

Section rosterFormat.
Context {mino_Address crypto_PublicKey Roster : Type}.
Variable Address_MarshalText : mino_Address → list byte * error.
Variable PublicKey_Serialize : crypto_PublicKey → list byte * error.
Variable Roster_Len : Roster → Z.
Variable Roster_addresses : Roster → list mino_Address.
Variable Roster_pubkeys : Roster → list crypto_PublicKey.
Variable roster_New : list mino_Address → list crypto_PublicKey → Roster.
Variable ctx_Marshal : list Player → list byte * error.
Variable ctx_Unmarshal : list byte → list Player * error.
Variable ctx_GetFactory : factory_key → serde_Factory mino_Address crypto_PublicKey.
Variable pkFac addrFac : string.
Variable FromText : list byte → mino_Address.
Variable PublicKeyOf : list byte → crypto_PublicKey * error.

(** The loop of [Encode] on as many addresses as public keys, with room for
    them in the slice: [stored] holds the players stored so far. *)
Lemma Encode_loop_stores (addrs : list mino_Address) (pubkeys : list crypto_PublicKey)
    (stored : list Player) (z : Player) (spare : nat) (m : list Player) :
  length addrs = length pubkeys →
  RosterJson.Encode_loop Address_MarshalText PublicKey_Serialize
    (length stored) addrs pubkeys (stored ++ replicate (length addrs + spare) z)
  = Some (m, None) →
  m = stored
      ++ zip_with (encoded_player Address_MarshalText PublicKey_Serialize) addrs pubkeys
      ++ replicate spare z
  ∧ Forall2 (marshals Address_MarshalText PublicKey_Serialize) addrs pubkeys.
Proof.
  revert pubkeys stored m.
  induction addrs as [|a addrs IH]; intros [|pk pubkeys] stored m Hlen; try done.
  - cbn. intros [= <-]. by split.
  - cbn [RosterJson.Encode_loop length Nat.add replicate].
    destruct (Address_MarshalText a) as [addr [e|]] eqn:Ha; [done|].
    destruct (PublicKey_Serialize pk) as [pubkey [e|]] eqn:Hpk; [done|].
    change (z :: replicate (length addrs + spare) z)
      with (replicate (S (length addrs + spare)) z).
    rewrite InvariantProofs.store_at_fill by done. cbn [mbind option_bind].
    replace (S (length stored))
      with (length (stored ++ [{| Address := addr; PublicKey := pubkey |}]))
      by (rewrite length_app; cbn; lia).
    intros Hloop. apply IH in Hloop as [-> Hall]; [|by injection Hlen].
    split.
    + cbn [zip_with]. unfold encoded_player at 2. rewrite Ha, Hpk. cbn.
      by rewrite <- app_assoc.
    + constructor; [|done]. unfold marshals. by rewrite Ha, Hpk.
Qed.

Lemma Decode_loop_encoded (addrs : list mino_Address) (pubkeys : list crypto_PublicKey) :
  Forall2 (comes_back Address_MarshalText PublicKey_Serialize FromText PublicKeyOf)
    addrs pubkeys →
  Decode_loop FromText PublicKeyOf
    (zip_with (encoded_player Address_MarshalText PublicKey_Serialize) addrs pubkeys)
  = ((addrs, pubkeys), None).
Proof.
  induction 1 as [|a pk addrs pubkeys [Ha Hpk] _ IH]; [done|].
  cbn [zip_with Decode_loop encoded_player Address PublicKey].
  by rewrite Hpk, IH, Ha.
Qed.

(** X20: a roster that [Encode] turns into [data] without error comes back from
    [Decode] of [data] as the roster that [roster.New] makes of the addresses
    and the public keys which the iterators of the encoded roster yielded, in
    the same order.  This holds for a roster whose [Len] is the number of its
    addresses and of its public keys, when the codec of the context reads
    back the message of the roster from the bytes that it wrote for it, and
    every address and public key comes back from its encoding under the
    factories of the context. *)
Theorem Roster_round_trip (roster : Roster) (data : list byte) :
  ctx_GetFactory PubKeyFac = PublicKeyFactory pkFac PublicKeyOf →
  ctx_GetFactory AddrKeyFac = AddressFactory addrFac FromText →
  Roster_Len roster = Z.of_nat (length (Roster_addresses roster)) →
  length (Roster_addresses roster) = length (Roster_pubkeys roster) →
  (∀ m d, RosterJson.Encode_message Address_MarshalText PublicKey_Serialize Roster_Len
            Roster_addresses Roster_pubkeys roster = Some (m, None) →
          ctx_Marshal m = (d, None) → ctx_Unmarshal d = (m, None)) →
  Forall2 (comes_back Address_MarshalText PublicKey_Serialize FromText PublicKeyOf)
    (Roster_addresses roster) (Roster_pubkeys roster) →
  RosterJson.Encode Address_MarshalText PublicKey_Serialize Roster_Len
    Roster_addresses Roster_pubkeys ctx_Marshal (Roster_Message roster)
  = Some (data, None) →
  RosterJson.Decode roster_New ctx_Unmarshal ctx_GetFactory data
  = (Some (Roster_Message
             (roster_New (Roster_addresses roster) (Roster_pubkeys roster))),
     None).
Proof.
  intros Hpk Haddr HLen Hlen Hcodec Hback Henc.
  unfold RosterJson.Encode in Henc.
  destruct (RosterJson.Encode_message _ _ _ _ _ roster) as [[m [e|]]|] eqn:Hmsg;
    [done| |done].
  cbn in Henc. destruct (ctx_Marshal m) as [d [e|]] eqn:Hdata; [done|].
  injection Henc as ->. specialize (Hcodec m data eq_refl Hdata).
  unfold RosterJson.Encode_message in Hmsg.
  destruct (makeslice_panics _ _); [done|].
  rewrite HLen, Nat2Z.id in Hmsg.
  pose proof (Encode_loop_stores (Roster_addresses roster) (Roster_pubkeys roster)
                [] {| Address := []; PublicKey := [] |} 0 m Hlen) as Hloop.
  rewrite Nat.add_0_r in Hloop. cbn [app length] in Hloop.
  destruct (Hloop Hmsg) as [-> _]. cbn [replicate] in Hcodec. rewrite app_nil_r in Hcodec.
  unfold RosterJson.Decode. rewrite Hcodec, Hpk, Haddr.
  by rewrite Decode_loop_encoded.
Qed.

End rosterFormat.

(** The sample run: a roster of three players, of addresses 1, 258 and 0. *)
Lemma sample_roster_Encode :
  RosterJson.Encode Fake.MarshalText sample_Serialize sample_Len fst snd
    sample_roster_Marshal (Roster_Message sample_roster)
  = Some (sample_roster_data, None).
Proof. reflexivity. Qed.

Lemma Roster_round_trip_witness :
  RosterJson.Decode (Roster := sample_Roster) pair sample_roster_Unmarshal
    sample_GetFactory sample_roster_data
  = (Some (Roster_Message (sample_roster.1, sample_roster.2)), None).
Proof.
  apply (Roster_round_trip Fake.MarshalText sample_Serialize sample_Len fst snd pair
           sample_roster_Marshal sample_roster_Unmarshal sample_GetFactory
           "sample.PublicKeyFactory" "sample.AddressFactory"
           sample_FromText sample_PublicKeyOf sample_roster sample_roster_data).
  - reflexivity.
  - reflexivity.
  - reflexivity.
  - reflexivity.
  - intros m d Hm Hd. vm_compute in Hm. injection Hm as <-.
    vm_compute in Hd. injection Hd as <-. reflexivity.
  - repeat constructor.
  - reflexivity.
Defined.

End RosterJsonProofs.
